(** * Tetris engine core: a shallow embedding and its verified properties

    The development follows the TypeScript sources of the simulation core:
    - [core/types/tetromino.ts]  shapes, kick tables, the 7-bag;
    - [core/types/board.ts]      the sparse board and its row operations;
    - [core/types/scoring.ts]    points, clear types, heat;
    - [core/types/gameState.ts], [core/types/events.ts]
                                 the aggregate state and the events;
    - [core/engine/Collision.ts] placement checks, ghost row, T-spin test;
    - [core/engine/Rotation.ts]  the kick search;
    - [core/engine/Board.ts] and [core/engine/GameLoop.ts]
                                 spawn, lock delay and the per-tick update;
    - [core/chaos/ChaosManager.ts]
                                 the garbage rain and the bonus clear.

    It has three parts: the embedding of the engine, function by function;
    the vocabulary of the statements with the sample values they are
    instantiated at; the lemmas and theorems.

    Conventions of the embedding.
    - JavaScript numbers that hold counts, coordinates, levels and scores are
      integers ([Z]); durations, heat and gravity are rationals ([Qc], exact
      arithmetic standing for the double-precision values of the source).
    - String unions are inductive types; where a constructor name is taken
      (the piece types [I], [O], [S], [Z]) it is prefixed.  Where two records
      share a field name the later one is prefixed ([gs_score], [cfg_lockDelay],
      [act_hold], ...).
    - [Map<string, CellState>] keyed by [cellKey x y] is a [gmap (Z * Z)]:
      [cellKey] is injective on integer coordinates and every key of the
      engine is built by it.
    - Object spread [{ ...o, f: v }] is a [with...] function that rebuilds the
      record with one field replaced.
    - [Math.random()] is an oracle [rnd : nat -> Qc] read through a call
      counter; [Date.now()] is a value [now] supplied by the host.
    - A thrown [TypeError] (drawing from an empty queue and then indexing the
      shape table with [undefined]) is the [None] of the [Eff] monad.
    - A [while] loop is a structural recursion on a bound of its number of
      passes; the bound is shown never to cut a loop short. *)

From Stdlib Require Import ZArith QArith Qcanon Qround Lia String.
From stdpp Require Import base numbers list gmap sorting.

Local Open Scope Z_scope.

(** ** Rational helpers *)

Definition qc (n : Z) (d : positive) : Qc := Q2Qc (n # d).

(** [Math.floor] on a rational. *)
Definition Qcfloor (q : Qc) : Z := Qfloor (this q).

(** [Math.max] and [Math.min] on rationals. *)
Definition Qcmax (a b : Qc) : Qc := if decide (a ≤ b)%Qc then b else a.
Definition Qcmin (a b : Qc) : Qc := if decide (a ≤ b)%Qc then a else b.

(** [Math.pow] with an integer exponent. *)
Definition Qcpow (b : Qc) (e : Z) : Qc :=
  if decide (0 <= e) then Qcpower b (Z.to_nat e)
  else (/ Qcpower b (Z.to_nat (- e)))%Qc.

(** ** tetromino.ts: piece types, shapes and kick tables *)

(** ['I' | 'O' | 'T' | 'S' | 'Z' | 'J' | 'L'] (prefixed: [I], [O], [S] and
    [Z] are taken by the prelude). *)
Inductive TetrominoType := TI | TO | TT | TS | TZ | TJ | TL.

Global Instance TetrominoType_eq_dec : EqDecision TetrominoType.
Proof. solve_decision. Defined.

(** [RotationState = 0 | 1 | 2 | 3]. *)
Inductive RotationState := R0 | R1 | R2 | R3.

Global Instance RotationState_eq_dec : EqDecision RotationState.
Proof. solve_decision. Defined.

Definition rotIndex (r : RotationState) : Z :=
  match r with R0 => 0 | R1 => 1 | R2 => 2 | R3 => 3 end.

(** The unchecked cast [as RotationState] of a value already reduced mod 4. *)
Definition asRotationState (n : Z) : RotationState :=
  match n with 0 => R0 | 1 => R1 | 2 => R2 | _ => R3 end.

Record Position := mkPos { pos_x : Z; pos_y : Z }.

Global Instance Position_eq_dec : EqDecision Position.
Proof. solve_decision. Defined.

Definition TETROMINO_SHAPES (t : TetrominoType) (r : RotationState) : list Position :=
  match t, r with
  | TI, R0 => [mkPos (-1) 0; mkPos 0 0; mkPos 1 0; mkPos 2 0]
  | TI, R1 => [mkPos 1 (-1); mkPos 1 0; mkPos 1 1; mkPos 1 2]
  | TI, R2 => [mkPos (-1) 1; mkPos 0 1; mkPos 1 1; mkPos 2 1]
  | TI, R3 => [mkPos 0 (-1); mkPos 0 0; mkPos 0 1; mkPos 0 2]
  | TO, _ => [mkPos 0 0; mkPos 1 0; mkPos 0 1; mkPos 1 1]
  | TT, R0 => [mkPos (-1) 0; mkPos 0 0; mkPos 1 0; mkPos 0 (-1)]
  | TT, R1 => [mkPos 0 (-1); mkPos 0 0; mkPos 0 1; mkPos 1 0]
  | TT, R2 => [mkPos (-1) 0; mkPos 0 0; mkPos 1 0; mkPos 0 1]
  | TT, R3 => [mkPos 0 (-1); mkPos 0 0; mkPos 0 1; mkPos (-1) 0]
  | TS, R0 => [mkPos 0 0; mkPos 1 0; mkPos (-1) 1; mkPos 0 1]
  | TS, R1 => [mkPos 0 (-1); mkPos 0 0; mkPos 1 0; mkPos 1 1]
  | TS, R2 => [mkPos 0 0; mkPos 1 0; mkPos (-1) 1; mkPos 0 1]
  | TS, R3 => [mkPos (-1) (-1); mkPos (-1) 0; mkPos 0 0; mkPos 0 1]
  | TZ, R0 => [mkPos (-1) 0; mkPos 0 0; mkPos 0 1; mkPos 1 1]
  | TZ, R1 => [mkPos 1 (-1); mkPos 0 0; mkPos 1 0; mkPos 0 1]
  | TZ, R2 => [mkPos (-1) 0; mkPos 0 0; mkPos 0 1; mkPos 1 1]
  | TZ, R3 => [mkPos 0 (-1); mkPos (-1) 0; mkPos 0 0; mkPos (-1) 1]
  | TJ, R0 => [mkPos (-1) (-1); mkPos (-1) 0; mkPos 0 0; mkPos 1 0]
  | TJ, R1 => [mkPos 0 (-1); mkPos 1 (-1); mkPos 0 0; mkPos 0 1]
  | TJ, R2 => [mkPos (-1) 0; mkPos 0 0; mkPos 1 0; mkPos 1 1]
  | TJ, R3 => [mkPos 0 (-1); mkPos 0 0; mkPos (-1) 1; mkPos 0 1]
  | TL, R0 => [mkPos 1 (-1); mkPos (-1) 0; mkPos 0 0; mkPos 1 0]
  | TL, R1 => [mkPos 0 (-1); mkPos 0 0; mkPos 0 1; mkPos 1 1]
  | TL, R2 => [mkPos (-1) 0; mkPos 0 0; mkPos 1 0; mkPos (-1) 1]
  | TL, R3 => [mkPos (-1) (-1); mkPos 0 (-1); mkPos 0 0; mkPos 0 1]
  end.

(** The eight keys ['0->1'], ['1->0'], ... of the kick tables. *)
Inductive WallKickKey := K01 | K10 | K12 | K21 | K23 | K32 | K30 | K03.

Definition WALL_KICKS_JLSTZ (k : WallKickKey) : list Position :=
  match k with
  | K01 => [mkPos 0 0; mkPos (-1) 0; mkPos (-1) (-1); mkPos 0 2; mkPos (-1) 2]
  | K10 => [mkPos 0 0; mkPos 1 0; mkPos 1 1; mkPos 0 (-2); mkPos 1 (-2)]
  | K12 => [mkPos 0 0; mkPos 1 0; mkPos 1 1; mkPos 0 (-2); mkPos 1 (-2)]
  | K21 => [mkPos 0 0; mkPos (-1) 0; mkPos (-1) (-1); mkPos 0 2; mkPos (-1) 2]
  | K23 => [mkPos 0 0; mkPos 1 0; mkPos 1 (-1); mkPos 0 2; mkPos 1 2]
  | K32 => [mkPos 0 0; mkPos (-1) 0; mkPos (-1) 1; mkPos 0 (-2); mkPos (-1) (-2)]
  | K30 => [mkPos 0 0; mkPos (-1) 0; mkPos (-1) 1; mkPos 0 (-2); mkPos (-1) (-2)]
  | K03 => [mkPos 0 0; mkPos 1 0; mkPos 1 (-1); mkPos 0 2; mkPos 1 2]
  end.

Definition WALL_KICKS_I (k : WallKickKey) : list Position :=
  match k with
  | K01 => [mkPos 0 0; mkPos (-2) 0; mkPos 1 0; mkPos (-2) 1; mkPos 1 (-2)]
  | K10 => [mkPos 0 0; mkPos 2 0; mkPos (-1) 0; mkPos 2 (-1); mkPos (-1) 2]
  | K12 => [mkPos 0 0; mkPos (-1) 0; mkPos 2 0; mkPos (-1) (-2); mkPos 2 1]
  | K21 => [mkPos 0 0; mkPos 1 0; mkPos (-2) 0; mkPos 1 2; mkPos (-2) (-1)]
  | K23 => [mkPos 0 0; mkPos 2 0; mkPos (-1) 0; mkPos 2 (-1); mkPos (-1) 2]
  | K32 => [mkPos 0 0; mkPos (-2) 0; mkPos 1 0; mkPos (-2) 1; mkPos 1 (-2)]
  | K30 => [mkPos 0 0; mkPos 1 0; mkPos (-2) 0; mkPos 1 2; mkPos (-2) (-1)]
  | K03 => [mkPos 0 0; mkPos (-1) 0; mkPos 2 0; mkPos (-1) (-2); mkPos 2 1]
  end.

Definition WALL_KICKS_O (k : WallKickKey) : list Position := [mkPos 0 0].

Definition getWallKicks (t : TetrominoType) : WallKickKey -> list Position :=
  if decide (t = TI) then WALL_KICKS_I
  else if decide (t = TO) then WALL_KICKS_O
  else WALL_KICKS_JLSTZ.

(** [`${from}->${to}`]; the tables have no entry for the other pairs. *)
Definition getWallKickKey (from to : RotationState) : option WallKickKey :=
  match from, to with
  | R0, R1 => Some K01 | R1, R0 => Some K10
  | R1, R2 => Some K12 | R2, R1 => Some K21
  | R2, R3 => Some K23 | R3, R2 => Some K32
  | R3, R0 => Some K30 | R0, R3 => Some K03
  | _, _ => None
  end.

Record LockDelay := mkLockDelay {
  ld_active : bool;
  ld_remaining : Qc;
  ld_moveResets : Z;
  ld_maxResets : Z
}.

Record ActivePiece := mkPiece {
  ptype : TetrominoType;
  position : Position;
  rotation : RotationState;
  ghostY : Z;
  lockDelay : LockDelay;
  softDropCells : Z
}.

Definition getPieceBlocks (piece : ActivePiece) : list Position :=
  map (fun offset => mkPos (pos_x (position piece) + pos_x offset)
                           (pos_y (position piece) + pos_y offset))
      (TETROMINO_SHAPES (ptype piece) (rotation piece)).

(** ** board.ts: the sparse board *)

Record BoardConfig := mkBoardConfig { width : Z; height : Z; bufferRows : Z }.

Definition DEFAULT_BOARD_CONFIG : BoardConfig := mkBoardConfig 10 20 4.

Inductive Special := garbage | glitch | bomb.

Record CellState := mkCell {
  cell_type : TetrominoType;
  lockedAt : option Z;
  special : option Special
}.

Record BoardState := mkBoard {
  config : BoardConfig;
  cells : gmap (Z * Z) CellState;
  pendingClearRows : list Z;
  lastModified : Z
}.

Definition cellKey (x y : Z) : Z * Z := (x, y).

Definition parseKey (key : Z * Z) : Position := mkPos key.1 key.2.

Definition createBoard (cfg : BoardConfig) (now : Z) : BoardState :=
  mkBoard cfg ∅ [] now.

Definition getCell (board : BoardState) (x y : Z) : option CellState :=
  cells board !! cellKey x y.

Definition setCell (board : BoardState) (x y : Z) (cell : option CellState)
    (now : Z) : BoardState :=
  let newCells :=
    match cell with
    | None => delete (cellKey x y) (cells board)
    | Some c => <[cellKey x y := c]> (cells board)
    end in
  mkBoard (config board) newCells (pendingClearRows board) now.

Definition totalHeight (board : BoardState) : Z :=
  height (config board) + bufferRows (config board).

Definition isValidPosition (board : BoardState) (x y : Z) : bool :=
  bool_decide (0 <= x) && bool_decide (x < width (config board))
  && bool_decide (0 <= y) && bool_decide (y < totalHeight board).

Definition isCellOccupied (board : BoardState) (x y : Z) : bool :=
  bool_decide (is_Some (cells board !! cellKey x y)).

(** The inner loop of [getFilledRows]: every column of row [y] occupied. *)
Definition rowFilled (board : BoardState) (y : Z) : bool :=
  forallb (fun x => isCellOccupied board x y) (seqZ 0 (width (config board))).

Definition getFilledRows (board : BoardState) : list Z :=
  filter (fun y => rowFilled board y = true) (seqZ 0 (totalHeight board)).

(** One column of [clearRows]: [readY] runs over the rows bottom to top,
    skipping the cleared ones; [writeY] counts the rows kept so far. *)
Fixpoint clearColumn (board : BoardState) (sortedRows : list Z) (x : Z)
    (readYs : list Z) (writeY : Z) (newCells : gmap (Z * Z) CellState)
    : gmap (Z * Z) CellState :=
  match readYs with
  | [] => newCells
  | readY :: rest =>
      if bool_decide (readY ∈ sortedRows)
      then clearColumn board sortedRows x rest writeY newCells
      else
        let newCells' :=
          match getCell board x readY with
          | Some cell => <[cellKey x writeY := cell]> newCells
          | None => newCells
          end in
        clearColumn board sortedRows x rest (writeY + 1) newCells'
  end.

(** [(a, b) => b - a]: descending order. *)
Definition descending (a b : Z) : Prop := b <= a.

Global Instance descending_dec : RelDecision descending.
Proof. intros a b. unfold descending. apply _. Defined.

Definition clearRows (board : BoardState) (rows : list Z) (now : Z) : BoardState :=
  if bool_decide (length rows = 0%nat) then board
  else
    let sortedRows := merge_sort descending rows in
    let newCells :=
      foldl (fun acc x =>
               clearColumn board sortedRows x (seqZ 0 (totalHeight board)) 0 acc)
            ∅ (seqZ 0 (width (config board))) in
    mkBoard (config board) newCells [] now.

Definition lockPiece (board : BoardState) (positions : list Position)
    (type : TetrominoType) (now : Z) : BoardState :=
  foldl (fun newBoard pos =>
           setCell newBoard (pos_x pos) (pos_y pos)
                   (Some (mkCell type (Some now) None)) now)
        board positions.

(** The loop of [getHighestOccupiedRow] over the keys of the map.  For a
    board whose rows are all non-negative the result is the largest row and
    does not depend on the order in which the keys are visited. *)
Definition getHighestOccupiedRow (board : BoardState) : Z :=
  foldl (fun highest key =>
           if bool_decide (highest = -1) || bool_decide (pos_y (parseKey key) > highest)
           then pos_y (parseKey key) else highest)
        (-1) (map fst (map_to_list (cells board))).

Definition isDangerZone (board : BoardState) (threshold : Z) : bool :=
  bool_decide (getHighestOccupiedRow board >= threshold).

(** ** Collision.ts: placement, ghost row, T-spin test *)

Definition canPlacePiece (board : BoardState) (type : TetrominoType)
    (pos : Position) (rot : RotationState) : bool :=
  forallb (fun offset =>
             isValidPosition board (pos_x pos + pos_x offset) (pos_y pos + pos_y offset)
             && negb (isCellOccupied board (pos_x pos + pos_x offset)
                                     (pos_y pos + pos_y offset)))
          (TETROMINO_SHAPES type rot).

Definition isValidPiecePosition (board : BoardState) (piece : ActivePiece) : bool :=
  forallb (fun block =>
             isValidPosition board (pos_x block) (pos_y block)
             && negb (isCellOccupied board (pos_x block) (pos_y block)))
          (getPieceBlocks piece).

Definition canMove (board : BoardState) (piece : ActivePiece) (dx dy : Z) : bool :=
  canPlacePiece board (ptype piece)
    (mkPos (pos_x (position piece) + dx) (pos_y (position piece) + dy))
    (rotation piece).

Definition withPosition (piece : ActivePiece) (pos : Position) : ActivePiece :=
  mkPiece (ptype piece) pos (rotation piece) (ghostY piece) (lockDelay piece)
          (softDropCells piece).

Definition withRotation (piece : ActivePiece) (rot : RotationState) : ActivePiece :=
  mkPiece (ptype piece) (position piece) rot (ghostY piece) (lockDelay piece)
          (softDropCells piece).

Definition withGhostY (piece : ActivePiece) (gy : Z) : ActivePiece :=
  mkPiece (ptype piece) (position piece) (rotation piece) gy (lockDelay piece)
          (softDropCells piece).

Definition withLockDelay (piece : ActivePiece) (ld : LockDelay) : ActivePiece :=
  mkPiece (ptype piece) (position piece) (rotation piece) (ghostY piece) ld
          (softDropCells piece).

Definition withType (piece : ActivePiece) (t : TetrominoType) : ActivePiece :=
  mkPiece t (position piece) (rotation piece) (ghostY piece) (lockDelay piece)
          (softDropCells piece).

Definition withSoftDropCells (piece : ActivePiece) (n : Z) : ActivePiece :=
  mkPiece (ptype piece) (position piece) (rotation piece) (ghostY piece)
          (lockDelay piece) n.

Definition tryMove (board : BoardState) (piece : ActivePiece) (dx dy : Z)
    : option ActivePiece :=
  if negb (canMove board piece dx dy) then None
  else Some (withPosition piece
               (mkPos (pos_x (position piece) + dx) (pos_y (position piece) + dy))).

Definition isOnGround (board : BoardState) (piece : ActivePiece) : bool :=
  negb (canMove board piece 0 (-1)).

(** The [while] loop of [calculateGhostY], with [fuel] bounding the number of
    rows descended. *)
Fixpoint ghostLoop (fuel : nat) (board : BoardState) (type : TetrominoType)
    (x : Z) (rot : RotationState) (gy : Z) : Z :=
  match fuel with
  | O => gy
  | S fuel' =>
      if canPlacePiece board type (mkPos x (gy - 1)) rot
      then ghostLoop fuel' board type x rot (gy - 1)
      else gy
  end.

(** A placement is legal only with every block at a row [>= 0] and every
    shape has a block at offset [<= 1], so the loop descends at most
    [position.y + 1] rows. *)
Definition calculateGhostY (board : BoardState) (piece : ActivePiece) : Z :=
  ghostLoop (Z.to_nat (pos_y (position piece) + 1)) board (ptype piece)
            (pos_x (position piece)) (rotation piece) (pos_y (position piece)).

Definition checkBlockOut (board : BoardState) (piece : ActivePiece) : bool :=
  negb (isValidPiecePosition board piece).

Definition getDropPositions (board : BoardState) (piece : ActivePiece)
    : list Position * Z :=
  let gy := calculateGhostY board piece in
  let dropDistance := pos_y (position piece) - gy in
  (getPieceBlocks (withPosition piece (mkPos (pos_x (position piece)) gy)),
   dropDistance).

Definition getFrontCornerIndices (rot : RotationState) : nat * nat :=
  match rot with
  | R0 => (0, 1)%nat
  | R1 => (1, 3)%nat
  | R2 => (2, 3)%nat
  | R3 => (0, 2)%nat
  end.

(** The corner test of [detectTSpin]: out of bounds counts as filled. *)
Definition cornerFilled (board : BoardState) (corner : Position) : bool :=
  negb (isValidPosition board (pos_x corner) (pos_y corner))
  || isCellOccupied board (pos_x corner) (pos_y corner).

Definition tSpinCorners (piece : ActivePiece) : list Position :=
  [ mkPos (pos_x (position piece) - 1) (pos_y (position piece) + 1);
    mkPos (pos_x (position piece) + 1) (pos_y (position piece) + 1);
    mkPos (pos_x (position piece) - 1) (pos_y (position piece) - 1);
    mkPos (pos_x (position piece) + 1) (pos_y (position piece) - 1) ].

Definition countFilled (board : BoardState) (cs : list Position) : Z :=
  Z.of_nat (length (filter (fun c => cornerFilled board c = true) cs)).

Record TSpinResult := mkTSpin { isTSpin : bool; isMini : bool }.

Definition detectTSpin (board : BoardState) (piece : ActivePiece)
    (wasWallKick : bool) (kickIndex : Z) : TSpinResult :=
  if negb (bool_decide (ptype piece = TT)) then mkTSpin false false
  else
    let corners := tSpinCorners piece in
    let filledCorners := countFilled board corners in
    if bool_decide (filledCorners < 3) then mkTSpin false false
    else
      let '(i1, i2) := getFrontCornerIndices (rotation piece) in
      let frontCorners := omap (fun idx => corners !! idx) [i1; i2] in
      let frontCornersFilled := countFilled board frontCorners in
      mkTSpin true
        (bool_decide (frontCornersFilled < 2)
         && negb (wasWallKick && bool_decide (kickIndex = 4))).

Definition isPerfectClear (board : BoardState) : bool :=
  bool_decide (size (cells board) = 0%nat).

(** ** Rotation.ts: the kick search *)

Inductive RotationDirection := cw | ccw | r180.

Record RotationResult := mkRotationResult {
  success : bool;
  newPiece : option ActivePiece;
  wasWallKick : bool;
  kickIndex : Z
}.

Definition getNewRotation (current : RotationState) (direction : RotationDirection)
    : RotationState :=
  match direction with
  | cw => asRotationState ((rotIndex current + 1) mod 4)
  | ccw => asRotationState ((rotIndex current + 3) mod 4)
  | r180 => asRotationState ((rotIndex current + 2) mod 4)
  end.

Definition rotationFailed : RotationResult := mkRotationResult false None false (-1).

(** The [for] loop over the kick offsets; [i] is the index of the head. *)
Fixpoint kickSearch (board : BoardState) (piece : ActivePiece)
    (newRotation : RotationState) (kicks : list Position) (i : Z) : RotationResult :=
  match kicks with
  | [] => rotationFailed
  | kick :: rest =>
      let newPosition := mkPos (pos_x (position piece) + pos_x kick)
                               (pos_y (position piece) + pos_y kick) in
      if canPlacePiece board (ptype piece) newPosition newRotation
      then mkRotationResult true
             (Some (withRotation (withPosition piece newPosition) newRotation))
             (bool_decide (i > 0)) i
      else kickSearch board piece newRotation rest (i + 1)
  end.

(** [tryRotate] for a quarter turn ([direction] is [cw] or [ccw]). *)
Definition tryRotateQuarter (board : BoardState) (piece : ActivePiece)
    (direction : RotationDirection) : RotationResult :=
  let newRotation := getNewRotation (rotation piece) direction in
  match getWallKickKey (rotation piece) newRotation with
  | Some kickKey => kickSearch board piece newRotation
                      (getWallKicks (ptype piece) kickKey) 0
  | None => rotationFailed
  end.

(** [tryRotate]; its recursive calls for ['180'] are all quarter turns. *)
Definition tryRotate (board : BoardState) (piece : ActivePiece)
    (direction : RotationDirection) : RotationResult :=
  match direction with
  | r180 =>
      let newRotation := getNewRotation (rotation piece) r180 in
      let viaCCW :=
        let ccwFirst := tryRotateQuarter board piece ccw in
        let plain :=
          if canPlacePiece board (ptype piece) (position piece) newRotation
          then mkRotationResult true (Some (withRotation piece newRotation)) false 0
          else rotationFailed in
        match success ccwFirst, newPiece ccwFirst with
        | true, Some p =>
            let ccwSecond := tryRotateQuarter board p ccw in
            if success ccwSecond then ccwSecond else plain
        | _, _ => plain
        end in
      let cwFirst := tryRotateQuarter board piece cw in
      match success cwFirst, newPiece cwFirst with
      | true, Some p =>
          let cwSecond := tryRotateQuarter board p cw in
          if success cwSecond then cwSecond else viaCCW
      | _, _ => viaCCW
      end
  | _ => tryRotateQuarter board piece direction
  end.

Definition rotatePiece (board : BoardState) (piece : ActivePiece)
    (direction : RotationDirection) : option (ActivePiece * bool * Z) :=
  let result := tryRotate board piece direction in
  match success result, newPiece result with
  | true, Some p => Some (p, wasWallKick result, kickIndex result)
  | _, _ => None
  end.

(** ** scoring.ts: clear types, points and heat *)

Inductive ClearType :=
  | Single | Double | Triple | Tetris
  | TSpinMini | TSpinSingle | TSpinDouble | TSpinTriple
  | PerfectClear.

(** The string each clear type stands for in the source. *)
Definition clearTypeName (c : ClearType) : string :=
  match c with
  | Single => "single" | Double => "double" | Triple => "triple"
  | Tetris => "tetris"
  | TSpinMini => "t-spin-mini" | TSpinSingle => "t-spin-single"
  | TSpinDouble => "t-spin-double" | TSpinTriple => "t-spin-triple"
  | PerfectClear => "perfect-clear"
  end%string.

Record ScoreState := mkScore {
  score : Z;
  level : Z;
  linesCleared : Z;
  linesAtLevel : Z;
  linesToNextLevel : Z
}.

Record ComboState := mkCombo {
  comboCount : Z;
  backToBack : Z;
  backToBackActive : bool;
  perfectClears : Z
}.

Record ClearEvent := mkClearEvent {
  ce_type : ClearType;
  ce_lines : list Z;
  ce_timestamp : Qc;
  ce_backToBack : bool;
  ce_comboCount : Z;
  ce_points : Z;
  ce_heatContribution : Qc
}.

Record StreakState := mkStreak {
  heatLevel : Qc;
  peakHeat : Qc;
  timeSinceLastClear : Qc;
  recentClears : list ClearEvent
}.

Record ScoringConfig := mkScoringConfig {
  basePoints : ClearType -> Z;
  softDropPoints : Z;
  hardDropPoints : Z;
  comboBonus : Z;
  sc_backToBackMultiplier : Qc;
  sc_linesPerLevel : Z;
  sc_maxLevel : Z
}.

Definition DEFAULT_SCORING_CONFIG : ScoringConfig :=
  mkScoringConfig
    (fun c => match c with
              | Single => 100 | Double => 300 | Triple => 500 | Tetris => 800
              | TSpinMini => 100 | TSpinSingle => 800 | TSpinDouble => 1200
              | TSpinTriple => 1600 | PerfectClear => 3000
              end)
    1 2 50 (qc 3 2) 10 15.

Record HeatConfig := mkHeatConfig {
  clearHeat : ClearType -> Qc;
  comboMultiplier : Qc;
  hc_backToBackMultiplier : Qc;
  decayPerSecond : Qc;
  maxHeat : Qc
}.

Definition DEFAULT_HEAT_CONFIG : HeatConfig :=
  mkHeatConfig
    (fun c => match c with
              | Single => qc 8 100 | Double => qc 15 100 | Triple => qc 25 100
              | Tetris => qc 40 100
              | TSpinMini => qc 20 100 | TSpinSingle => qc 30 100
              | TSpinDouble => qc 45 100 | TSpinTriple => qc 60 100
              | PerfectClear => qc 80 100
              end)
    (qc 5 100) (qc 3 2) (qc 8 100) 1%Qc.

Definition calculateClearPoints (clearType : ClearType) (lvl cmb : Z)
    (isBackToBack : bool) (cfg : ScoringConfig) : Z :=
  let points := basePoints cfg clearType * lvl in
  let points := if bool_decide (cmb > 0)
                then points + comboBonus cfg * cmb * lvl else points in
  if isBackToBack
  then Qcfloor (Qc_of_Z points * sc_backToBackMultiplier cfg)
  else points.

Definition getClearType (lineCount : Z) (tspin mini : bool) : ClearType :=
  if tspin then
    if mini then TSpinMini
    else match lineCount with
         | 1 => TSpinSingle
         | 2 => TSpinDouble
         | 3 => TSpinTriple
         | _ => TSpinMini
         end
  else match lineCount with
       | 1 => Single
       | 2 => Double
       | 3 => Triple
       | 4 => Tetris
       | _ => Single
       end.

(** [clearType === 'tetris' || clearType.startsWith('t-spin')]. *)
Definition isDifficultClear (clearType : ClearType) : bool :=
  String.eqb (clearTypeName clearType) "tetris"
  || String.prefix "t-spin" (clearTypeName clearType).

Definition calculateHeatContribution (clearType : ClearType) (cmb : Z)
    (isBackToBack : bool) (cfg : HeatConfig) : Qc :=
  let heat := clearHeat cfg clearType in
  let heat := (heat + heat * comboMultiplier cfg * Qc_of_Z cmb)%Qc in
  let heat := if isBackToBack then (heat * hc_backToBackMultiplier cfg)%Qc else heat in
  Qcmin heat (maxHeat cfg).

Definition decayHeat (currentHeat deltaMs : Qc) (cfg : HeatConfig) : Qc :=
  let decay := (decayPerSecond cfg * (deltaMs / Qc_of_Z 1000))%Qc in
  Qcmax 0%Qc (currentHeat - decay)%Qc.

Definition createScoreState : ScoreState :=
  mkScore 0 1 0 0 (sc_linesPerLevel DEFAULT_SCORING_CONFIG).

Definition createComboState : ComboState := mkCombo 0 0 false 0.

Definition createStreakState : StreakState := mkStreak 0%Qc 0%Qc 0%Qc [].

(** ** gameState.ts: phases, configuration and the aggregate state *)

Inductive GamePhase :=
  | menu | countdown | playing | clearing | paused | gameOver | victory.

Global Instance GamePhase_eq_dec : EqDecision GamePhase.
Proof. solve_decision. Defined.

Inductive DasDirection := das_left | das_right.

Record DasState := mkDas {
  das_direction : option DasDirection;
  chargeTime : Qc;
  autoRepeatActive : bool
}.

Record InputState := mkInput {
  in_das : DasState;
  softDropHeld : bool;
  hardDropTriggered : bool;
  rotationQueue : list RotationDirection;
  holdTriggered : bool
}.

Record TimingState := mkTiming {
  gameTime : Qc;
  lastUpdateTime : Qc;
  gravityAccumulator : Qc;
  gravitySpeed : Qc;
  baseGravity : Qc
}.

Record HoldState := mkHold {
  hold_piece : option TetrominoType;
  hold_available : bool
}.

Inductive GoalType := goal_score | goal_lines.

(** The untyped [data] payload of a chaos event is not represented. *)
Record ChaosEventState := mkChaosEvent {
  chaos_id : string;
  chaos_type : string;
  chaos_startTime : Qc;
  chaos_duration : Qc;
  chaos_intensity : Qc
}.

Inductive ModeSpecificState :=
  | ClassicMode (goal : option (GoalType * Z))
  | MarathonMode
  | ChaosMode (activeEvents : list ChaosEventState) (nextEventIn : Qc) (intensity : Qc)
  | ZenMode (autoRescueEnabled : bool) (piecesPlaced : Z) (timeElapsed : Qc).

Record PieceBag := mkBag {
  current : list TetrominoType;
  next : list TetrominoType;
  preview : list TetrominoType
}.

Record GameConfig := mkGameConfig {
  boardWidth : Z;
  boardHeight : Z;
  previewCount : Z;
  startLevel : Z;
  linesPerLevel : Z;
  maxLevel : Z;
  cfg_lockDelay : Qc;
  lockDelayResets : Z;
  cfg_das : Qc;
  cfg_arr : Qc;
  softDropMultiplier : Z;
  holdEnabled : bool;
  ghostEnabled : bool
}.

Definition DEFAULT_GAME_CONFIG : GameConfig :=
  mkGameConfig 10 20 3 1 10 15 (Qc_of_Z 500) 15 (Qc_of_Z 170) (Qc_of_Z 50)
               20 true true.

(** ** events.ts: the events one tick can emit *)

Inductive MoveDirection := move_left | move_right | move_down.

(** The events of [GameEvent] that the engine emits ([ChaosEvent] is
    declared in the source and emitted nowhere). *)
Inductive GameEvent :=
  | PieceSpawnEvent (piece : TetrominoType)
  | PieceMoveEvent (direction : MoveDirection) (pos : Position)
  | PieceRotateEvent (rot : RotationState) (wasKick : bool) (kick : Z)
  | PieceLockEvent (positions : list Position) (piece : TetrominoType)
  | PieceHoldEvent (swapped : option TetrominoType) (held : TetrominoType)
  | HardDropEvent (startY endY cellsDropped : Z)
  | SoftDropEvent (cellsDropped : Z)
  | LinesClearEvent (event : ClearEvent)
  | LevelUpEvent (newLevel previousLevel : Z)
  | ComboEvent (count : Z)
  | BackToBackEvent (count : Z)
  | PerfectClearEvent (points : Z)
  | GameOverEvent (finalScore finalLevel lines : Z)
  | HeatChangeEvent (heat delta previousHeat : Qc)
  | DangerZoneEvent (active : bool) (intensity : Qc).

Record GameState := mkGameState {
  phase : GamePhase;
  board : BoardState;
  activePiece : option ActivePiece;
  hold : HoldState;
  bag : PieceBag;
  gs_score : ScoreState;
  combo : ComboState;
  streak : StreakState;
  timing : TimingState;
  input : InputState;
  modeState : ModeSpecificState;
  frameEvents : list GameEvent;
  seed : Z
}.

(** Object spread [{ ...state, field: v }] for the fields the engine writes. *)
Definition withPhase (s : GameState) (v : GamePhase) : GameState :=
  mkGameState v (board s) (activePiece s) (hold s) (bag s) (gs_score s) (combo s)
              (streak s) (timing s) (input s) (modeState s) (frameEvents s) (seed s).
Definition withBoard (s : GameState) (v : BoardState) : GameState :=
  mkGameState (phase s) v (activePiece s) (hold s) (bag s) (gs_score s) (combo s)
              (streak s) (timing s) (input s) (modeState s) (frameEvents s) (seed s).
Definition withActivePiece (s : GameState) (v : option ActivePiece) : GameState :=
  mkGameState (phase s) (board s) v (hold s) (bag s) (gs_score s) (combo s)
              (streak s) (timing s) (input s) (modeState s) (frameEvents s) (seed s).
Definition withHold (s : GameState) (v : HoldState) : GameState :=
  mkGameState (phase s) (board s) (activePiece s) v (bag s) (gs_score s) (combo s)
              (streak s) (timing s) (input s) (modeState s) (frameEvents s) (seed s).
Definition withBag (s : GameState) (v : PieceBag) : GameState :=
  mkGameState (phase s) (board s) (activePiece s) (hold s) v (gs_score s) (combo s)
              (streak s) (timing s) (input s) (modeState s) (frameEvents s) (seed s).
Definition withScore (s : GameState) (v : ScoreState) : GameState :=
  mkGameState (phase s) (board s) (activePiece s) (hold s) (bag s) v (combo s)
              (streak s) (timing s) (input s) (modeState s) (frameEvents s) (seed s).
Definition withCombo (s : GameState) (v : ComboState) : GameState :=
  mkGameState (phase s) (board s) (activePiece s) (hold s) (bag s) (gs_score s) v
              (streak s) (timing s) (input s) (modeState s) (frameEvents s) (seed s).
Definition withStreak (s : GameState) (v : StreakState) : GameState :=
  mkGameState (phase s) (board s) (activePiece s) (hold s) (bag s) (gs_score s)
              (combo s) v (timing s) (input s) (modeState s) (frameEvents s) (seed s).
Definition withTiming (s : GameState) (v : TimingState) : GameState :=
  mkGameState (phase s) (board s) (activePiece s) (hold s) (bag s) (gs_score s)
              (combo s) (streak s) v (input s) (modeState s) (frameEvents s) (seed s).

Definition calculateGravity (lvl : Z) : Qc :=
  let clampedLevel := Z.min lvl 20 in
  let secondsPerCell :=
    Qcpow (qc 8 10 - Qc_of_Z (clampedLevel - 1) * qc 7 1000)%Qc (clampedLevel - 1) in
  (1 / secondsPerCell)%Qc.

(** ** The effects of the engine

    A computation reads [Math.random()] through a call counter and may throw;
    [Eff A] takes the number of calls made so far and returns the result with
    the new count, or [None] when a [TypeError] is thrown. *)

Definition Eff (A : Type) : Type := nat -> option (A * nat).

Global Instance eff_ret : MRet Eff := fun A a n => Some (a, n).

Global Instance eff_bind : MBind Eff := fun A B k m n =>
  match m n with
  | Some (a, n') => k a n'
  | None => None
  end.

Definition throw {A} : Eff A := fun _ => None.

Record InputActions := mkActions {
  moveLeft : bool;
  moveRight : bool;
  softDrop : bool;
  hardDrop : bool;
  rotateCW : bool;
  rotateCCW : bool;
  rotate180 : bool;
  act_hold : bool
}.

(** [UpdateResult]: the new state with the events of the step. *)
Definition UpdateResult : Type := GameState * list GameEvent.

Section Engine.

(** The values [Math.random()] returns, in call order, and the reading of
    [Date.now()] during the step. *)
Variable rnd : nat -> Qc.
Variable now : Z.

Definition random : Eff Qc := fun n => Some (rnd n, S n).

(** *** tetromino.ts: the 7-bag *)

(** [[pieces[i], pieces[j]] = [pieces[j], pieces[i]]].  [Math.random()] lies
    in [0, 1), so [j <= i] and both reads are in range. *)
Definition swapPieces (pieces : list TetrominoType) (i j : nat) : list TetrominoType :=
  match pieces !! i, pieces !! j with
  | Some a, Some b => <[j := a]> (<[i := b]> pieces)
  | _, _ => pieces
  end.

(** The Fisher-Yates loop [for (i = length - 1; i > 0; i--)]. *)
Fixpoint shuffleFrom (i : nat) (pieces : list TetrominoType)
    : Eff (list TetrominoType) :=
  match i with
  | O => mret pieces
  | S i' =>
      r ← random;
      let j := Z.to_nat (Qcfloor (r * Qc_of_Z (Z.of_nat i + 1))) in
      shuffleFrom i' (swapPieces pieces i j)
  end.

Definition allPieceTypes : list TetrominoType := [TI; TO; TT; TS; TZ; TJ; TL].

Definition createBag : Eff (list TetrominoType) :=
  shuffleFrom (length allPieceTypes - 1) allPieceTypes.

Definition createPieceBag (previewCnt : Z) : Eff PieceBag :=
  cur ← createBag;
  nxt ← createBag;
  mret (mkBag cur nxt (take (Z.to_nat previewCnt) (cur ++ nxt))).

(** [getNextPiece]; the drawn piece is [None] when [shift()] finds the
    queue empty and returns [undefined]. *)
Definition getNextPiece (b : PieceBag) : Eff (option TetrominoType * PieceBag) :=
  let piece := head (current b) in
  let cur := tail (current b) in
  '(cur, nxt) ← (if bool_decide (length cur = 0%nat)
                  then fresh ← createBag; mret (next b, fresh)
                  else mret (cur, next b));
  let pre := tail (preview b) in
  let allPieces := cur ++ nxt in
  let pre :=
    if bool_decide (length pre < length (preview b))%nat
       && bool_decide (length pre < length allPieces)%nat
    then pre ++ option_list (allPieces !! length pre)
    else pre in
  mret (piece, mkBag cur nxt pre).

(** *** Board.ts: spawning, locking and the lock delay *)

Definition spawnPiece (b : BoardState) (type : TetrominoType) (cfg : GameConfig)
    : option ActivePiece :=
  let spawnX := width (config b) / 2 - 1 in
  let spawnY := height (config b) in
  let piece := mkPiece type (mkPos spawnX spawnY) R0 0
                 (mkLockDelay false (cfg_lockDelay cfg) 0 (lockDelayResets cfg)) 0 in
  let piece := withGhostY piece (calculateGhostY b piece) in
  if negb (isValidPiecePosition b piece) then None else Some piece.

(** [spawnNextPiece]; with an [undefined] piece type the shape lookup of
    [spawnPiece] throws. *)
Definition spawnNextPiece (b : BoardState) (bg : PieceBag) (cfg : GameConfig)
    : Eff (option ActivePiece * PieceBag) :=
  '(type, newBag) ← getNextPiece bg;
  match type with
  | Some t => mret (spawnPiece b t cfg, newBag)
  | None => throw
  end.

Definition lockActivePiece (b : BoardState) (piece : ActivePiece)
    : BoardState * list Position :=
  let positions := getPieceBlocks piece in
  (lockPiece b positions (ptype piece) now, positions).

Definition processLineClears (b : BoardState) : BoardState * list Z :=
  let clearedRows := getFilledRows b in
  if bool_decide (length clearedRows = 0%nat) then (b, [])
  else (clearRows b clearedRows now, clearedRows).

Definition getDangerLevel (b : BoardState) : Qc :=
  let highestRow := getHighestOccupiedRow b in
  if bool_decide (highestRow = -1) then 0%Qc
  else
    let dangerThreshold := height (config b) - 8 in
    if bool_decide (highestRow < dangerThreshold) then 0%Qc
    else
      let dangerRange := height (config b) - dangerThreshold in
      Qcmin 1%Qc (Qc_of_Z (highestRow - dangerThreshold) / Qc_of_Z dangerRange)%Qc.

Definition updateGhostY (b : BoardState) (piece : ActivePiece) : ActivePiece :=
  withGhostY piece (calculateGhostY b piece).

Definition resetLockDelay (piece : ActivePiece) (cfg : GameConfig) : ActivePiece :=
  if bool_decide (ld_moveResets (lockDelay piece) >= ld_maxResets (lockDelay piece))
  then piece
  else withLockDelay piece
         (mkLockDelay (ld_active (lockDelay piece)) (cfg_lockDelay cfg)
                      (ld_moveResets (lockDelay piece) + 1)
                      (ld_maxResets (lockDelay piece))).

Definition activateLockDelay (piece : ActivePiece) : ActivePiece :=
  if ld_active (lockDelay piece) then piece
  else withLockDelay piece
         (mkLockDelay true (ld_remaining (lockDelay piece))
                      (ld_moveResets (lockDelay piece)) (ld_maxResets (lockDelay piece))).

Definition deactivateLockDelay (piece : ActivePiece) : ActivePiece :=
  if negb (ld_active (lockDelay piece)) then piece
  else withLockDelay piece
         (mkLockDelay false (ld_remaining (lockDelay piece))
                      (ld_moveResets (lockDelay piece)) (ld_maxResets (lockDelay piece))).

Definition updateLockDelay (piece : ActivePiece) (deltaMs : Qc) : ActivePiece :=
  if negb (ld_active (lockDelay piece)) then piece
  else withLockDelay piece
         (mkLockDelay (ld_active (lockDelay piece))
                      (ld_remaining (lockDelay piece) - deltaMs)%Qc
                      (ld_moveResets (lockDelay piece)) (ld_maxResets (lockDelay piece))).

Definition isLockDelayExpired (piece : ActivePiece) : bool :=
  ld_active (lockDelay piece) && bool_decide (ld_remaining (lockDelay piece) ≤ 0)%Qc.

(** *** GameLoop.ts: the steps of one tick *)

Definition processHold (state : GameState) (cfg : GameConfig) : Eff UpdateResult :=
  match activePiece state with
  | None => mret (state, [])
  | Some active =>
      if negb (hold_available (hold state)) then mret (state, [])
      else
        let currentType := ptype active in
        match hold_piece (hold state) with
        | Some heldType =>
            '(newPiece, _) ← spawnNextPiece (board state)
                               (mkBag (heldType :: current (bag state))
                                      (next (bag state)) (preview (bag state))) cfg;
            match newPiece with
            | Some np =>
                let spawnedPiece :=
                  withGhostY (withType np heldType)
                             (calculateGhostY (board state) (withType np heldType)) in
                mret (withBag (withHold (withActivePiece state (Some spawnedPiece))
                                        (mkHold (Some currentType) false))
                              (bag state),
                      [PieceHoldEvent (Some heldType) currentType])
            | None => mret (state, [])
            end
        | None =>
            '(newPiece, newBag) ← spawnNextPiece (board state) (bag state) cfg;
            match newPiece with
            | Some np =>
                mret (withBag (withHold (withActivePiece state (Some np))
                                        (mkHold (Some currentType) false))
                              newBag,
                      [PieceHoldEvent None currentType; PieceSpawnEvent (ptype np)])
            | None => mret (state, [])
            end
        end
  end.

Definition processRotation (state : GameState) (direction : RotationDirection)
    : UpdateResult :=
  match activePiece state with
  | None => (state, [])
  | Some active =>
      match rotatePiece (board state) active direction with
      | Some (piece, wasKick, kick) =>
          let newPiece := updateGhostY (board state) piece in
          let finalPiece :=
            if isOnGround (board state) newPiece
            then resetLockDelay newPiece DEFAULT_GAME_CONFIG
            else newPiece in
          (withActivePiece state (Some finalPiece),
           [PieceRotateEvent (rotation finalPiece) wasKick kick])
      | None => (state, [])
      end
  end.

Definition processMove (state : GameState) (dx dy : Z) (cfg : GameConfig)
    : UpdateResult :=
  match activePiece state with
  | None => (state, [])
  | Some active =>
      match tryMove (board state) active dx dy with
      | Some moved =>
          let newPiece := updateGhostY (board state) moved in
          let newPiece :=
            if isOnGround (board state) newPiece
            then resetLockDelay newPiece cfg else newPiece in
          let direction :=
            if bool_decide (dx < 0) then move_left
            else if bool_decide (dx > 0) then move_right else move_down in
          (withActivePiece state (Some newPiece),
           [PieceMoveEvent direction (position newPiece)])
      | None => (state, [])
      end
  end.

(** The [while (accumulator >= 1)] loop of [processGravity].  Every pass that
    does not leave the loop takes 1 from the accumulator, so [fuel] equal to
    its integer part is never exhausted before the loop ends. *)
Fixpoint dropLoop (fuel : nat) (b : BoardState) (soft : bool) (piece : ActivePiece)
    (accumulator : Qc) (cellsDropped : Z) : ActivePiece * Qc * Z :=
  match fuel with
  | O => (piece, accumulator, cellsDropped)
  | S fuel' =>
      if bool_decide (1 ≤ accumulator)%Qc then
        match tryMove b piece 0 (-1) with
        | Some moved =>
            let newPiece :=
              if soft then withSoftDropCells moved (softDropCells moved + 1)
              else moved in
            dropLoop fuel' b soft newPiece (accumulator - 1)%Qc (cellsDropped + 1)
        | None => (piece, 0%Qc, cellsDropped)
        end
      else (piece, accumulator, cellsDropped)
  end.

Definition processGravity (state : GameState) (deltaMs : Qc) (soft : bool)
    (cfg : GameConfig) : UpdateResult :=
  match activePiece state with
  | None => (state, [])
  | Some active =>
      let baseSpeed := gravitySpeed (timing state) in
      let speed :=
        if soft then (baseSpeed * Qc_of_Z (softDropMultiplier cfg))%Qc
        else baseSpeed in
      let cellsPerMs := (speed / Qc_of_Z 1000)%Qc in
      let accumulator := (gravityAccumulator (timing state) + deltaMs * cellsPerMs)%Qc in
      let '(newPiece, accumulator, cellsDropped) :=
        dropLoop (Z.to_nat (Qcfloor accumulator)) (board state) soft active
                 accumulator 0 in
      let newPiece := updateGhostY (board state) newPiece in
      let events :=
        if soft && bool_decide (cellsDropped > 0)
        then [SoftDropEvent cellsDropped] else [] in
      (withTiming (withActivePiece state (Some newPiece))
                  (mkTiming (gameTime (timing state)) (lastUpdateTime (timing state))
                            accumulator (gravitySpeed (timing state))
                            (baseGravity (timing state))),
       events)
  end.

(** The level-up [while] loop of [processLock]; each pass raises the level,
    so [maxLevel - level] passes are the most it can make. *)
Fixpoint levelUpLoop (fuel : nat) (cfg : GameConfig) (remainingLines newLevel : Z)
    : Z * Z * list GameEvent :=
  match fuel with
  | O => (remainingLines, newLevel, [])
  | S fuel' =>
      if bool_decide (remainingLines >= linesPerLevel cfg)
         && bool_decide (newLevel < maxLevel cfg)
      then
        let '(r, l, evs) :=
          levelUpLoop fuel' cfg (remainingLines - linesPerLevel cfg) (newLevel + 1) in
        (r, l, LevelUpEvent (newLevel + 1) (newLevel + 1 - 1) :: evs)
      else (remainingLines, newLevel, [])
  end.

(** [arr.slice(-10)]: the last ten elements. *)
Definition lastTen {A} (l : list A) : list A := drop (length l - 10) l.

Definition processLock (state : GameState) (cfg : GameConfig) : UpdateResult :=
  match activePiece state with
  | None => (state, [])
  | Some piece =>
      let '(newBoard, lockedPositions) := lockActivePiece (board state) piece in
      let events := [PieceLockEvent lockedPositions (ptype piece)] in
      let '(clearedBoard, clearedRows) := processLineClears newBoard in
      let newState :=
        withHold (withActivePiece (withBoard state clearedBoard) None)
                 (mkHold (hold_piece (hold state)) true) in
      if bool_decide (0 < length clearedRows)%nat then
        let tSpinResult :=
          detectTSpin (board state) piece
                      (bool_decide (ld_moveResets (lockDelay piece) > 0)) 0 in
        let clearType :=
          getClearType (Z.of_nat (length clearedRows))
                       (isTSpin tSpinResult) (isMini tSpinResult) in
        let isDifficult := isDifficultClear clearType in
        let newComboCount := comboCount (combo state) + 1 in
        let isBackToBack := isDifficult && backToBackActive (combo state) in
        let newBackToBack :=
          if isDifficult
          then (if isBackToBack then backToBack (combo state) + 1 else 1)
          else 0 in
        let points :=
          calculateClearPoints clearType (level (gs_score state)) newComboCount
                               isBackToBack DEFAULT_SCORING_CONFIG in
        let perfectClear := isPerfectClear clearedBoard in
        let totalPoints :=
          if perfectClear then points + 3000 * level (gs_score state) else points in
        let heatContribution :=
          calculateHeatContribution clearType newComboCount isBackToBack
                                    DEFAULT_HEAT_CONFIG in
        let newHeat := Qcmin 1%Qc (heatLevel (streak state) + heatContribution)%Qc in
        let clearEvent :=
          mkClearEvent clearType clearedRows (gameTime (timing state)) isBackToBack
                       newComboCount totalPoints heatContribution in
        let events := events ++ [LinesClearEvent clearEvent] in
        let events :=
          if bool_decide (newComboCount > 1)
          then events ++ [ComboEvent newComboCount] else events in
        let events :=
          if isBackToBack && bool_decide (newBackToBack > 1)
          then events ++ [BackToBackEvent newBackToBack] else events in
        let events :=
          if perfectClear
          then events ++ [PerfectClearEvent (3000 * level (gs_score state))]
          else events in
        let newLinesCleared :=
          linesCleared (gs_score state) + Z.of_nat (length clearedRows) in
        let newLinesAtLevel :=
          linesAtLevel (gs_score state) + Z.of_nat (length clearedRows) in
        let '(remainingLines, newLevel, levelEvents) :=
          levelUpLoop (Z.to_nat (maxLevel cfg - level (gs_score state))) cfg
                      newLinesAtLevel (level (gs_score state)) in
        let events := events ++ levelEvents in
        let events :=
          if bool_decide (newHeat ≠ heatLevel (streak state))
          then events ++ [HeatChangeEvent newHeat heatContribution
                                          (heatLevel (streak state))]
          else events in
        (withTiming
           (withStreak
              (withCombo
                 (withScore newState
                    (mkScore (score (gs_score state) + totalPoints) newLevel
                             newLinesCleared remainingLines
                             (linesPerLevel cfg - remainingLines)))
                 (mkCombo newComboCount newBackToBack isDifficult
                          (if perfectClear then perfectClears (combo state) + 1
                           else perfectClears (combo state))))
              (mkStreak newHeat (Qcmax (peakHeat (streak state)) newHeat) 0%Qc
                        (lastTen (recentClears (streak state) ++ [clearEvent]))))
           (mkTiming (gameTime (timing state)) (lastUpdateTime (timing state))
                     (gravityAccumulator (timing state))
                     (calculateGravity newLevel) (calculateGravity newLevel)),
         events)
      else
        (withCombo newState
           (mkCombo 0 (backToBack (combo state)) (backToBackActive (combo state))
                    (perfectClears (combo state))),
         events)
  end.

Definition processHardDrop (state : GameState) (cfg : GameConfig) : UpdateResult :=
  match activePiece state with
  | None => (state, [])
  | Some active =>
      let '(_, dropDistance) := getDropPositions (board state) active in
      let startY := pos_y (position active) in
      let droppedPiece :=
        withLockDelay
          (withPosition active (mkPos (pos_x (position active)) (ghostY active)))
          (mkLockDelay true 0%Qc (ld_moveResets (lockDelay active))
                       (ld_maxResets (lockDelay active))) in
      let events := [HardDropEvent startY (pos_y (position droppedPiece)) dropDistance] in
      let '(lockState, lockEvents) :=
        processLock (withActivePiece state (Some droppedPiece)) cfg in
      let hardDropPts := dropDistance * softDropMultiplier cfg * 2 in
      let newScore :=
        mkScore (score (gs_score lockState) + hardDropPts) (level (gs_score lockState))
                (linesCleared (gs_score lockState)) (linesAtLevel (gs_score lockState))
                (linesToNextLevel (gs_score lockState)) in
      (withScore lockState newScore, events ++ lockEvents)
  end.

Definition processSpawn (state : GameState) (cfg : GameConfig) : Eff UpdateResult :=
  '(piece, newBag) ← spawnNextPiece (board state) (bag state) cfg;
  match piece with
  | None =>
      mret (withPhase state gameOver,
            [GameOverEvent (score (gs_score state)) (level (gs_score state))
                           (linesCleared (gs_score state))])
  | Some p =>
      mret (withBag (withActivePiece state (Some p)) newBag,
            [PieceSpawnEvent (ptype p)])
  end.

(** [newState = result.state; events.push(...result.events)]. *)
Definition andThen (r : UpdateResult) (step : GameState -> UpdateResult)
    : UpdateResult :=
  let '(s, evs) := step r.1 in (s, r.2 ++ evs).

(** The stages of [updateGame] that run, in the playing phase, before the
    spawn check, in source order; each takes the state and the events
    accumulated so far. *)

(** "Update timing" and "Update heat decay". *)
Definition tickClock (state : GameState) (deltaMs : Qc) : GameState :=
  let newState :=
    withTiming state
      (mkTiming (gameTime (timing state) + deltaMs)%Qc (lastUpdateTime (timing state))
                (gravityAccumulator (timing state)) (gravitySpeed (timing state))
                (baseGravity (timing state))) in
  let newHeat := decayHeat (heatLevel (streak newState)) deltaMs DEFAULT_HEAT_CONFIG in
  if bool_decide (newHeat ≠ heatLevel (streak newState))
  then withStreak newState
         (mkStreak newHeat (peakHeat (streak newState))
                   (timeSinceLastClear (streak newState) + deltaMs)%Qc
                   (recentClears (streak newState)))
  else newState.

(** "Process hold action". *)
Definition tickHold (newState : GameState) (actions : InputActions)
    (cfg : GameConfig) : Eff UpdateResult :=
  if act_hold actions && hold_available (hold newState)
     && bool_decide (is_Some (activePiece newState))
  then processHold newState cfg
  else mret (newState, []).

(** "Process rotation". *)
Definition tickRotation (actions : InputActions) (r : UpdateResult) : UpdateResult :=
  if bool_decide (is_Some (activePiece r.1)) then
    if rotateCW actions then andThen r (fun s => processRotation s cw)
    else if rotateCCW actions then andThen r (fun s => processRotation s ccw)
    else if rotate180 actions then andThen r (fun s => processRotation s r180)
    else r
  else r.

(** "Process horizontal movement". *)
Definition tickMove (actions : InputActions) (cfg : GameConfig) (r : UpdateResult)
    : UpdateResult :=
  if bool_decide (is_Some (activePiece r.1)) then
    if moveLeft actions then andThen r (fun s => processMove s (-1) 0 cfg)
    else if moveRight actions then andThen r (fun s => processMove s 1 0 cfg)
    else r
  else r.

(** "Process hard drop", else "Process soft drop and gravity". *)
Definition tickDrop (deltaMs : Qc) (actions : InputActions) (cfg : GameConfig)
    (r : UpdateResult) : UpdateResult :=
  if hardDrop actions && bool_decide (is_Some (activePiece r.1))
  then andThen r (fun s => processHardDrop s cfg)
  else if bool_decide (is_Some (activePiece r.1))
  then andThen r (fun s => processGravity s deltaMs (softDrop actions) cfg)
  else r.

(** "Process lock delay". *)
Definition tickLockDelay (deltaMs : Qc) (cfg : GameConfig) (r : UpdateResult)
    : UpdateResult :=
  match activePiece r.1 with
  | Some piece =>
      if isOnGround (board r.1) piece then
        let piece := updateLockDelay (activateLockDelay piece) deltaMs in
        let r := (withActivePiece r.1 (Some piece), r.2) in
        if isLockDelayExpired piece
        then andThen r (fun s => processLock s cfg)
        else r
      else (withActivePiece r.1 (Some (deactivateLockDelay piece)), r.2)
  | None => r
  end.

Definition updateUntilSpawn (state : GameState) (deltaMs : Qc)
    (actions : InputActions) (cfg : GameConfig) : Eff UpdateResult :=
  r ← tickHold (tickClock state deltaMs) actions cfg;
  mret (tickLockDelay deltaMs cfg
          (tickDrop deltaMs actions cfg
             (tickMove actions cfg (tickRotation actions r)))).

Definition dangerEvents (b : BoardState) : list GameEvent :=
  let dangerLevel := getDangerLevel b in
  if bool_decide (0 < dangerLevel)%Qc then [DangerZoneEvent true dangerLevel] else [].

Definition updateGame (state : GameState) (deltaMs : Qc) (actions : InputActions)
    (cfg : GameConfig) : Eff UpdateResult :=
  if bool_decide (phase state ≠ playing) then mret (state, [])
  else
    r ← updateUntilSpawn state deltaMs actions cfg;
    r ← (if negb (bool_decide (is_Some (activePiece r.1)))
            && bool_decide (phase r.1 = playing)
         then '(s, evs) ← processSpawn r.1 cfg; mret (s, r.2 ++ evs)
         else mret r);
    mret (r.1, r.2 ++ dangerEvents (board r.1)).

Definition startGame (state : GameState) (cfg : GameConfig) : Eff UpdateResult :=
  '(piece, newBag) ← spawnNextPiece (board state) (bag state) cfg;
  let events :=
    match piece with
    | Some p => [PieceSpawnEvent (ptype p)]
    | None => []
    end in
  mret (withBag (withActivePiece (withPhase state playing) piece) newBag, events).

End Engine.

(** ** board.ts: garbage rows *)

Global Instance Special_eq_dec : EqDecision Special.
Proof. solve_decision. Defined.

(** The first loop of [insertGarbageRows]: every cell moves up by [count]
    rows; the cells pushed to the total height or beyond are dropped. *)
Definition shiftCellsUp (board : BoardState) (count : Z)
    : gmap (Z * Z) CellState :=
  foldl (fun newCells entry =>
           let pos := parseKey entry.1 in
           let newY := pos_y pos + count in
           if bool_decide (newY < totalHeight board)
           then <[cellKey (pos_x pos) newY := entry.2]> newCells
           else newCells)
        ∅ (map_to_list (cells board)).

Definition garbageCell : CellState := mkCell TI None (Some garbage).

(** One garbage row: every column but [gapColumn]. *)
Definition garbageRow (board : BoardState) (gapColumn y : Z)
    (newCells : gmap (Z * Z) CellState) : gmap (Z * Z) CellState :=
  foldl (fun newCells x =>
           if bool_decide (x ≠ gapColumn)
           then <[cellKey x y := garbageCell]> newCells
           else newCells)
        newCells (seqZ 0 (width (config board))).

Definition insertGarbageRows (board : BoardState) (count gapColumn : Z) (now : Z)
    : BoardState :=
  let newCells :=
    foldl (fun newCells y => garbageRow board gapColumn y newCells)
          (shiftCellsUp board count) (seqZ 0 count) in
  mkBoard (config board) newCells (pendingClearRows board) now.

(** ** Collision.ts: lock out *)

Definition checkLockOut (board : BoardState) (piece : ActivePiece) : bool :=
  let visibleTop := height (config board) in
  forallb (fun block => bool_decide (pos_y block >= visibleTop)) (getPieceBlocks piece).

(** ** scoring.ts: heat levels *)

Inductive HeatLevel := cold | warm | hot | fire | inferno.

Definition HEAT_THRESHOLDS (l : HeatLevel) : Qc :=
  match l with
  | cold => 0%Qc
  | warm => qc 25 100
  | hot => qc 5 10
  | fire => qc 75 100
  | inferno => qc 9 10
  end.

Definition getHeatLevel (heat : Qc) : HeatLevel :=
  if bool_decide (HEAT_THRESHOLDS inferno ≤ heat)%Qc then inferno
  else if bool_decide (HEAT_THRESHOLDS fire ≤ heat)%Qc then fire
  else if bool_decide (HEAT_THRESHOLDS hot ≤ heat)%Qc then hot
  else if bool_decide (HEAT_THRESHOLDS warm ≤ heat)%Qc then warm
  else cold.

(** ** gameState.ts: the initial state *)

Inductive GameModeType := classic | marathon | chaos | zen.

Definition createInputState : InputState :=
  mkInput (mkDas None 0%Qc false) false false [] false.

Definition createTimingState (startLvl : Z) : TimingState :=
  let baseGrav := calculateGravity startLvl in
  mkTiming 0%Qc 0%Qc 0%Qc baseGrav baseGrav.

Definition createHoldState : HoldState := mkHold None true.

Definition createModeState (mode : GameModeType) : ModeSpecificState :=
  match mode with
  | classic => ClassicMode None
  | marathon => MarathonMode
  | chaos => ChaosMode [] (Qc_of_Z 15000) (qc 1 10)
  | zen => ZenMode true 0 0%Qc
  end.

(** [state.modeState.mode]. *)
Definition modeOf (m : ModeSpecificState) : GameModeType :=
  match m with
  | ClassicMode _ => classic
  | MarathonMode => marathon
  | ChaosMode _ _ _ => chaos
  | ZenMode _ _ _ => zen
  end.

(** The fields of the object literal are evaluated in order: the board reads
    the clock, the bag draws twelve random numbers, the seed one more. *)
Definition createGameState (rnd : nat -> Qc) (now : Z) (mode : GameModeType)
    (cfg : GameConfig) : Eff GameState :=
  bg ← createPieceBag rnd (previewCount cfg);
  r ← random rnd;
  mret (mkGameState menu
          (createBoard (mkBoardConfig (boardWidth cfg) (boardHeight cfg) 4) now)
          None createHoldState bg createScoreState createComboState
          createStreakState (createTimingState (startLevel cfg)) createInputState
          (createModeState mode) [] (Qcfloor (r * Qc_of_Z 2147483647))).

Definition resetGameState (rnd : nat -> Qc) (now : Z) (state : GameState)
    (cfg : GameConfig) : Eff GameState :=
  let mode := modeOf (modeState state) in
  s ← createGameState rnd now mode cfg;
  mret (withPhase s countdown).

(** ** Board.ts: garbage rows and the danger zone *)

(** [gapColumn ?? Math.floor(Math.random() * board.config.width)]. *)
Definition addGarbageRows (rnd : nat -> Qc) (now : Z) (b : BoardState) (count : Z)
    (gapColumn : option Z) : Eff BoardState :=
  gap ← match gapColumn with
        | Some g => mret g
        | None => r ← random rnd; mret (Qcfloor (r * Qc_of_Z (width (config b))))
        end;
  mret (insertGarbageRows b count gap now).

Definition isInDangerZone (b : BoardState) : bool :=
  bool_decide (0 < getDangerLevel b)%Qc.

(** ** ChaosManager.ts: the board events *)

(** The second loop of [applyGarbageRain]: each garbage row draws its own
    gap. *)
Fixpoint garbageRainRows (rnd : nat -> Qc) (board : BoardState) (ys : list Z)
    (newCells : gmap (Z * Z) CellState) : Eff (gmap (Z * Z) CellState) :=
  match ys with
  | [] => mret newCells
  | y :: rest =>
      r ← random rnd;
      let gapPosition := Qcfloor (r * Qc_of_Z (width (config board))) in
      garbageRainRows rnd board rest (garbageRow board gapPosition y newCells)
  end.

Definition applyGarbageRain (rnd : nat -> Qc) (now : Z) (board : BoardState)
    : Eff BoardState :=
  r ← random rnd;
  let garbageCount := 1 + Qcfloor (r * Qc_of_Z 2) in
  newCells ← garbageRainRows rnd board (seqZ 0 garbageCount)
                             (shiftCellsUp board garbageCount);
  mret (mkBoard (config board) newCells (pendingClearRows board) now).

Definition applyBonusClear (now : Z) (board : BoardState) : BoardState :=
  let newCells :=
    foldl (fun newCells entry =>
             if bool_decide (special entry.2 = Some garbage)
             then delete entry.1 newCells
             else newCells)
          (cells board) (map_to_list (cells board)) in
  mkBoard (config board) newCells (pendingClearRows board) now.

(** * Vocabulary of the statements and sample values

    The definitions below are not part of the engine: they name what the
    theorems talk about (the rows a lock clears, the cell count, the events
    of an update, ...) and fix the concrete boards, pieces and states at
    which the theorems are instantiated. *)

(** ** Locks *)

(** The rows a lock of [piece] clears, the T-spin verdict and the clear type
    it is given: the values [clearedRows], [tSpinResult] and [clearType] of
    [processLock]. *)
Definition lockClearedRows (now : Z) (state : GameState) (piece : ActivePiece) : list Z :=
  (processLineClears now (lockActivePiece now (board state) piece).1).2.

Definition lockTSpin (state : GameState) (piece : ActivePiece) : TSpinResult :=
  detectTSpin (board state) piece (bool_decide (ld_moveResets (lockDelay piece) > 0)) 0.

Definition lockClearType (now : Z) (state : GameState) (piece : ActivePiece) : ClearType :=
  getClearType (Z.of_nat (length (lockClearedRows now state piece)))
               (isTSpin (lockTSpin state piece)) (isMini (lockTSpin state piece)).

(** ** Events and results of an update *)

(** The clear types and the points carried by the lines-clear events. *)
Definition clearSummary (evs : list GameEvent) : list (ClearType * list Z * Z) :=
  omap (fun e => match e with
                 | LinesClearEvent ce => Some (ce_type ce, ce_lines ce, ce_points ce)
                 | _ => None
                 end) evs.

Definition rotationSummary (evs : list GameEvent) : list (RotationState * bool * Z) :=
  omap (fun e => match e with
                 | PieceRotateEvent r w k => Some (r, w, k)
                 | _ => None
                 end) evs.

Definition isGameOverEvent (e : GameEvent) : bool :=
  match e with
  | GameOverEvent _ _ _ => true
  | _ => false
  end.

(** No game-over event among [evs]. *)
Definition quiet (evs : list GameEvent) : Prop :=
  Forall (fun e => isGameOverEvent e = false) evs.

(** The events of an update that returned. *)
Definition eventsOf (r : option (UpdateResult * nat)) : list GameEvent :=
  match r with
  | Some ((_, evs), _) => evs
  | None => []
  end.

(** The heat of the state an update returned. *)
Definition heatOf (r : option (UpdateResult * nat)) : option Q :=
  match r with
  | Some ((s', _), _) => Some (this (heatLevel (streak s')))
  | None => None
  end.

(** A run of updates, one per entry of [acts], each on the state the
    previous one returned; the events are concatenated. *)
Fixpoint runUpdates (rnd : nat -> Qc) (now : Z) (cfg : GameConfig) (deltaMs : Qc)
    (acts : list InputActions) (s : GameState) : Eff UpdateResult :=
  match acts with
  | [] => mret (s, [])
  | a :: rest =>
      '(s1, evs1) ← updateGame rnd now s deltaMs a cfg;
      '(s2, evs2) ← runUpdates rnd now cfg deltaMs rest s1;
      mret (s2, evs1 ++ evs2)
  end.

(** The positions the piece-lock events carry. *)
Definition lockSummary (evs : list GameEvent) : list (list Position) :=
  omap (fun e => match e with
                 | PieceLockEvent positions _ => Some positions
                 | _ => None
                 end) evs.

(** ** The bag *)

(** [k] consecutive calls of [getNextPiece], each on the bag the previous
    one returned. *)
Fixpoint drawPieces (rnd : nat -> Qc) (k : nat) (bg : PieceBag)
    : Eff (list (option TetrominoType) * PieceBag) :=
  match k with
  | O => mret ([], bg)
  | S k' =>
      '(piece, bg1) ← getNextPiece rnd bg;
      '(pieces, bg2) ← drawPieces rnd k' bg1;
      mret (piece :: pieces, bg2)
  end.

(** Both queues of the bag hold a piece. *)
Definition bagReady (bg : PieceBag) : Prop := current bg ≠ [] ∧ next bg ≠ [].

Global Instance bagReady_dec bg : Decision (bagReady bg).
Proof. unfold bagReady. apply _. Defined.

(** ** The cells of a board *)

(** [board.cells.size]. *)
Definition cellCount (b : BoardState) : nat := size (cells b).

(** The invariant of the data model: every cell lies on the board. *)
Definition cellsInBounds (b : BoardState) : Prop :=
  map_Forall (fun key _ => isValidPosition b key.1 key.2 = true) (cells b).

Global Instance cellsInBounds_dec b : Decision (cellsInBounds b).
Proof. unfold cellsInBounds. apply _. Defined.

(** The rows [clearColumn] copies: those of [ys] not among [rows]. *)
Definition keptRows (rows ys : list Z) : list Z := filter (fun y => y ∉ rows) ys.

(** The cell a column loop started at [writeY] leaves at row [w]. *)
Definition copied (b : BoardState) (rows : list Z) (x : Z) (ys : list Z)
    (writeY w : Z) : option CellState :=
  keptRows rows ys !! Z.to_nat (w - writeY) ≫= (fun r => cells b !! (x, r)).

(** The loop over the columns [xs]. *)
Definition clearColumns (b : BoardState) (rows ys xs : list Z)
    (acc : gmap (Z * Z) CellState)
    : gmap (Z * Z) CellState :=
  foldl (fun acc x => clearColumn b rows x ys 0 acc) acc xs.

(** The occupied rows of column [x] among [ys]. *)
Definition occupiedRows (b : BoardState) (x : Z) (ys : list Z) : list Z :=
  filter (fun r => is_Some (cells b !! (x, r))) ys.

(** The occupied cells of the board, column by column. *)
Definition gridCells (b : BoardState) : list (Z * Z) :=
  seqZ 0 (width (config b)) ≫= fun x =>
    (fun r => (x, r)) <$> occupiedRows b x (seqZ 0 (totalHeight b)).

(** ** The stages of a tick *)

(** The phase, the combo state and the streak state of a game state. *)
Definition coreOf (s : GameState) : GamePhase * ComboState * StreakState :=
  (phase s, combo s, streak s).

(** A step that keeps the phase, the combo, the streak and the bag, and
    emits no game-over event. *)
Definition frameStep (step : GameState -> UpdateResult) : Prop :=
  ∀ s, coreOf (step s).1 = coreOf s ∧ bag (step s).1 = bag s ∧ quiet (step s).2.

(** The property [P] of the phase, combo and streak holds of the state and
    no game-over event has been emitted. *)
Definition carried (P : GamePhase * ComboState * StreakState -> Prop)
    (r : UpdateResult) : Prop :=
  P (coreOf r.1) ∧ quiet r.2.

(** The placement [spawnPiece] tries: centred, just above the visible rows. *)
Definition spawnPosition (b : BoardState) : Position :=
  mkPos (width (config b) / 2 - 1) (height (config b)).

(** The spawn of a replacement fails: the update runs (the phase is
    [playing]), the stages before the spawn check end with no active piece,
    and the piece at the head of the bag cannot be placed at the spawn
    position. *)
Definition spawnFails (rnd : nat -> Qc) (now : Z) (s : GameState) (deltaMs : Qc)
    (actions : InputActions) (cfg : GameConfig) (n : nat) : Prop :=
  phase s = playing
  ∧ ∃ mid evs n1 t,
      updateUntilSpawn rnd now s deltaMs actions cfg n = Some ((mid, evs), n1)
      ∧ activePiece mid = None
      ∧ head (current (bag mid)) = Some t
      ∧ canPlacePiece (board mid) t (spawnPosition (board mid)) R0 = false.

Definition heatInRange (st : StreakState) : Prop := (0 ≤ heatLevel st ≤ 1)%Qc.

Global Instance heatInRange_dec st : Decision (heatInRange st).
Proof. unfold heatInRange. apply _. Defined.

(** ** Sample values *)

Definition noActions : InputActions :=
  mkActions false false false false false false false false.

Definition hardDropOnly : InputActions :=
  mkActions false false false true false false false false.

Definition moveRightOnly : InputActions :=
  mkActions false true false false false false false false.

Definition rotateAndDrop : InputActions :=
  mkActions false false false true false true false false.

Definition sampleTiming : TimingState := mkTiming 0%Qc 0%Qc 0%Qc 1%Qc 1%Qc.

Definition sampleInput : InputState :=
  mkInput (mkDas None 0%Qc false) false false [] false.

Definition sampleCell : CellState := mkCell TI None None.

Definition sampleLockDelay : LockDelay := mkLockDelay true 0%Qc 0 15.

Definition constRnd : nat -> Qc := fun _ => qc 1 2.

Definition sampleBag : PieceBag := mkBag [TT; TO] [TI; TJ] [TT; TO; TI].

(** A board on the default configuration holding [sampleCell] at [keys]. *)
Definition boardOf (keys : list (Z * Z)) : BoardState :=
  mkBoard DEFAULT_BOARD_CONFIG (list_to_map (map (fun k => (k, sampleCell)) keys)) [] 0.

(** The cells of row [y] in the columns [xs]. *)
Definition rowCells (y : Z) (xs : list Z) : list (Z * Z) := map (fun x => (x, y)) xs.

Definition stateOf (ph : GamePhase) (b : BoardState) (p : option ActivePiece)
    (bg : PieceBag) : GameState :=
  mkGameState ph b p (mkHold None true) bg createScoreState createComboState
              createStreakState sampleTiming sampleInput MarathonMode [] 0.

(** A playing state at level 1 with [piece] active over [b]. *)
Definition lockState (b : BoardState) (piece : ActivePiece) (cmb : ComboState)
    : GameState :=
  mkGameState playing b (Some piece) (mkHold None true) sampleBag createScoreState
              cmb createStreakState sampleTiming sampleInput MarathonMode [] 0.

(** An O piece resting on the floor of an empty board, with a chain of two
    back-to-back clears behind it. *)
Definition restingO : ActivePiece := mkPiece TO (mkPos 4 0) R0 0 sampleLockDelay 0.

Definition uprightI : ActivePiece := mkPiece TI (mkPos 9 1) R3 1 sampleLockDelay 0.

Definition uprightT : ActivePiece :=
  mkPiece TT (mkPos 0 3) R1 3 (mkLockDelay false (Qc_of_Z 500) 0 15) 0.

Definition floorT : ActivePiece :=
  mkPiece TT (mkPos 4 1) R0 1 sampleLockDelay 0.

Definition chainCombo : ComboState := mkCombo 3 2 true 0.

(** Row 0 filled except for columns 4 and 5, where [restingO] lands; the
    cell at (0, 1) stays behind after the clear. *)
Definition singleGapBoard : BoardState :=
  boardOf ((0, 1) :: rowCells 0 [0; 1; 2; 3; 6; 7; 8; 9]).

(** Rows 0 to 3 filled except for column 9; the cell at (0, 4) stays behind
    after the clear, so the clear is not a perfect clear. *)
Definition tetrisBoard : BoardState :=
  boardOf ((0, 4) :: flat_map (fun y => rowCells y [0; 1; 2; 3; 4; 5; 6; 7; 8])
                              [0; 1; 2; 3]).

(** A notch at (1, 0)-(0..2, 1) under an overhang, with the T standing
    upright against the left wall above it. *)
Definition notchBoard : BoardState :=
  boardOf (rowCells 0 [0; 2; 3; 4; 5; 6; 7; 8; 9]
           ++ rowCells 1 [3; 4; 5; 6; 7; 8; 9]
           ++ [(1, 2); (2, 2); (2, 3); (2, 4)]).

(** A board with no column: the scan finds every row filled. *)
Definition zeroWidthBoard : BoardState := mkBoard (mkBoardConfig 0 1 0) ∅ [] 0.

(** Row 0 filled, and a stray cell at (10, 5), right of the last column. *)
Definition strayCellBoard : BoardState :=
  boardOf ((10, 5) :: rowCells 0 [0; 1; 2; 3; 4; 5; 6; 7; 8; 9]).

(** A fresh I piece over an empty board. *)
Definition freshI : GameState :=
  stateOf playing (boardOf []) (spawnPiece (boardOf []) TI DEFAULT_GAME_CONFIG) sampleBag.

(** Rows 0 to 2 filled except for the cells of an upright T at (4, 1); the
    cell at (0, 3) stays behind after the clear. *)
Definition tripleNotchBoard : BoardState :=
  boardOf ((0, 3) :: rowCells 0 [0; 1; 2; 3; 5; 6; 7; 8; 9]
           ++ rowCells 1 [0; 1; 2; 3; 6; 7; 8; 9]
           ++ rowCells 2 [0; 1; 2; 3; 5; 6; 7; 8; 9]).

Definition notchedT : ActivePiece := mkPiece TT (mkPos 4 1) R1 1 sampleLockDelay 0.

(** A playing state with no active piece whose spawn cell (4, 20) is taken. *)
Definition blockedSpawn : GameState :=
  stateOf playing (boardOf [(4, 20)]) None sampleBag.

(** The tetris position of [tetrisBoard] in the middle of a chain, with the
    heat already at 9/10. *)
Definition hotTetrisState : GameState :=
  withStreak (lockState tetrisBoard uprightI chainCombo)
             (mkStreak (qc 9 10) (qc 9 10) 0%Qc []).

(** A playing state with the heat at 1 and an empty board. *)
Definition fullHeatState : GameState :=
  withStreak (stateOf playing (boardOf []) None sampleBag) (mkStreak 1%Qc 1%Qc 0%Qc []).

(** The single-clear position of [singleGapBoard] with a combo count of -100. *)
Definition negativeComboState : GameState :=
  lockState singleGapBoard restingO (mkCombo (-100) 0 false 0).

(** ** Boards *)

(** Every cell of the board is at a row [>= 0]. *)
Definition rowsNonNegative (b : BoardState) : Prop :=
  map_Forall (fun key _ => 0 <= key.2) (cells b).

Global Instance rowsNonNegative_dec b : Decision (rowsNonNegative b).
Proof. unfold rowsNonNegative. apply _. Defined.

(** ** Garbage *)

(** [Math.random()] returns a value in [0, 1). *)
Definition unitRandom (rnd : nat -> Qc) : Prop :=
  ∀ n, (0 ≤ rnd n)%Qc ∧ (rnd n < 1)%Qc.

(** The cell an upward shift by [count] rows leaves at [(x, y)]. *)
Definition shiftedCell (b : BoardState) (count x y : Z) : option CellState :=
  if decide (y < totalHeight b) then cells b !! (x, y - count) else None.

(** The cell is a garbage cell. *)
Definition isGarbage (c : CellState) : Prop := special c = Some garbage.

Global Instance isGarbage_dec c : Decision (isGarbage c).
Proof. unfold isGarbage. apply _. Defined.

(** ** Rotations *)

(** What a result of the kick search says. *)
Definition soundResult (b : BoardState) (piece : ActivePiece) (rot : RotationState)
    (res : RotationResult) : Prop :=
  if success res
  then (∃ p, newPiece res = Some p
             ∧ isValidPiecePosition b p = true
             ∧ p = withRotation (withPosition piece (position p)) rot)
       ∧ 0 <= kickIndex res <= 4
       ∧ wasWallKick res = bool_decide (kickIndex res > 0)
  else res = rotationFailed.

(** ** Heat levels and the lock delay *)

(** The position of a heat level in the order cold, warm, hot, fire,
    inferno. *)
Definition heatRank (l : HeatLevel) : Z :=
  match l with cold => 0 | warm => 1 | hot => 2 | fire => 3 | inferno => 4 end.

(** [k] successful moves on the ground: [k] calls of [resetLockDelay]. *)
Definition resetTimes (k : nat) (piece : ActivePiece) (cfg : GameConfig) : ActivePiece :=
  Nat.iter k (fun p => resetLockDelay p cfg) piece.

(** ** States *)

(** The piece stands in a legal placement on the board and its cached ghost
    row is the one [calculateGhostY] computes. *)
Definition legalOn (b : BoardState) (p : ActivePiece) : Prop :=
  isValidPiecePosition b p = true ∧ ghostY p = calculateGhostY b p.

(** The active piece of the state, if there is one, is legal on its board. *)
Definition pieceLegal (s : GameState) : Prop :=
  match activePiece s with
  | Some p => legalOn (board s) p
  | None => True
  end.

Global Instance pieceLegal_dec s : Decision (pieceLegal s).
Proof. unfold pieceLegal, legalOn. destruct (activePiece s); apply _. Defined.

(** The piece a hard drop locks: the active piece at its cached ghost row,
    its lock delay run out. *)
Definition hardDropped (active : ActivePiece) : ActivePiece :=
  withLockDelay
    (withPosition active (mkPos (pos_x (position active)) (ghostY active)))
    (mkLockDelay true 0%Qc (ld_moveResets (lockDelay active))
                 (ld_maxResets (lockDelay active))).

(** The score state counts the lines of the current level consistently with
    the configuration: the lines to the next level are what is missing to
    [linesPerLevel], the level does not exceed the maximum, and below the
    maximum level fewer than [linesPerLevel] lines are pending. *)
Definition scoreConsistent (cfg : GameConfig) (sc : ScoreState) : Prop :=
  0 <= linesAtLevel sc
  ∧ linesToNextLevel sc = linesPerLevel cfg - linesAtLevel sc
  ∧ level sc <= maxLevel cfg
  ∧ (level sc < maxLevel cfg -> linesAtLevel sc < linesPerLevel cfg).

Global Instance scoreConsistent_dec cfg sc : Decision (scoreConsistent cfg sc).
Proof. unfold scoreConsistent. apply _. Defined.

(** The combo state is consistent: no counter is negative and back-to-back
    is active exactly when its counter is positive. *)
Definition comboConsistent (c : ComboState) : Prop :=
  0 <= comboCount c
  ∧ 0 <= perfectClears c
  ∧ backToBackActive c = bool_decide (0 < backToBack c).

Global Instance comboConsistent_dec c : Decision (comboConsistent c).
Proof. unfold comboConsistent. apply _. Defined.

(** The preview is accurate: it shows the pieces the next draws return, the
    current queue holds a piece and the next queue a whole bag. *)
Definition bagFair (bg : PieceBag) : Prop :=
  current bg ≠ [] ∧ length (next bg) = 7%nat ∧ (length (preview bg) <= 7)%nat
  ∧ preview bg = take (length (preview bg)) (current bg ++ next bg).

Global Instance bagFair_dec bg : Decision (bagFair bg).
Proof. unfold bagFair. apply _. Defined.

(** What every state of a game satisfies: the cells are on the board, no row
    is filled, the active piece is legal, the preview is accurate, the
    score is not negative, the level at least 1 and the combo consistent. *)
Definition gameSound (s : GameState) : Prop :=
  cellsInBounds (board s)
  ∧ getFilledRows (board s) = []
  ∧ pieceLegal s
  ∧ bagFair (bag s)
  ∧ 0 <= score (gs_score s)
  ∧ 1 <= level (gs_score s)
  ∧ 0 <= linesCleared (gs_score s)
  ∧ comboConsistent (combo s).

(** ** Gravity *)

(** The cells the gravity of one tick has accumulated: the value of
    [accumulator] before the loop of [processGravity]. *)
Definition gravityBudget (s : GameState) (deltaMs : Qc) (soft : bool) (cfg : GameConfig)
    : Qc :=
  let baseSpeed := gravitySpeed (timing s) in
  let speed :=
    if soft then (baseSpeed * Qc_of_Z (softDropMultiplier cfg))%Qc else baseSpeed in
  (gravityAccumulator (timing s) + deltaMs * (speed / Qc_of_Z 1000))%Qc.

(** The whole cells of an accumulator: the number of times 1 can be taken
    from it before it falls below 1. *)
Definition wholeCells (accumulator : Qc) : Z := Z.max 0 (Qcfloor accumulator).

(** ** More sample values *)

(** Rows 0 and 2 filled, row 1 holding three cells and row 3 one. *)
Definition twoFullRowsBoard : BoardState :=
  boardOf (rowCells 0 [0; 1; 2; 3; 4; 5; 6; 7; 8; 9] ++ rowCells 1 [0; 1; 2]
           ++ rowCells 2 [0; 1; 2; 3; 4; 5; 6; 7; 8; 9] ++ [(5, 3)]).

(** An I piece lying three rows above the stack of [tetrisBoard]. *)
Definition hoveringI : ActivePiece := mkPiece TI (mkPos 3 7) R0 7 sampleLockDelay 0.

(** A playing state at level 1 with [hoveringI] over [tetrisBoard]. *)
Definition hoveringState : GameState := lockState tetrisBoard hoveringI createComboState.

(** A bag two draws before the end of its current queue, with a preview
    reaching into the next queue. *)
Definition lateBag : PieceBag := mkBag [TZ; TL] allPieceTypes [TZ; TL; TI; TO; TT].

(** The state [hotTetrisState] with the bag [lateBag]. *)
Definition lateBagState : GameState := withBag hotTetrisState lateBag.

(** * Verified properties *)

(** ** The bounded loops run to completion

    Each [while] loop of the source is a structural recursion on a bound of
    its number of passes; with the bound the callers give, the recursion
    stops because the loop condition fails, never because the bound is
    used up. *)

Lemma shape_low_block t r : ∃ o, o ∈ TETROMINO_SHAPES t r ∧ pos_y o <= 1.
Proof.
  destruct t, r; simpl; eexists; (split; [apply list_elem_of_here|simpl; lia]).
Qed.

(** A legal placement has its pivot at row -1 or above. *)
Lemma canPlacePiece_row b t x y r :
  canPlacePiece b t (mkPos x y) r = true -> -1 <= y.
Proof.
  unfold canPlacePiece. rewrite forallb_forall. intros Hall.
  destruct (shape_low_block t r) as (o & Hin & Hlow).
  apply list_elem_of_In, Hall in Hin. simpl in Hin.
  apply andb_true_iff in Hin as [Hvalid _].
  unfold isValidPosition in Hvalid.
  rewrite !andb_true_iff, !bool_decide_eq_true in Hvalid. lia.
Qed.

(** [calculateGhostY] returns a row from which the piece cannot descend. *)
Lemma ghostLoop_completes fuel b t x r gy :
  gy + 1 <= Z.of_nat fuel ->
  canPlacePiece b t (mkPos x (ghostLoop fuel b t x r gy - 1)) r = false.
Proof.
  revert gy. induction fuel as [|fuel IH]; intros gy Hfuel; simpl.
  - destruct (canPlacePiece b t (mkPos x (gy - 1)) r) eqn:Hplace; [|done].
    apply canPlacePiece_row in Hplace. lia.
  - destruct (canPlacePiece b t (mkPos x (gy - 1)) r) eqn:Hplace; [|done].
    apply IH. lia.
Qed.

Lemma calculateGhostY_completes b piece :
  canPlacePiece b (ptype piece)
                (mkPos (pos_x (position piece)) (calculateGhostY b piece - 1))
                (rotation piece) = false.
Proof. unfold calculateGhostY. apply ghostLoop_completes. lia. Qed.

(** The gravity loop ends with an accumulator below 1. *)
Lemma dropLoop_completes fuel b soft piece accumulator cellsDropped :
  (accumulator < Qc_of_Z (Z.of_nat fuel + 1))%Qc ->
  ((dropLoop fuel b soft piece accumulator cellsDropped).1.2 < 1)%Qc.
Proof.
  revert piece accumulator cellsDropped.
  induction fuel as [|fuel IH]; intros piece accumulator cellsDropped Hfuel; simpl.
  - change (Z.of_nat 0 + 1) with 1 in Hfuel. by rewrite Z2Qc_inj_1 in Hfuel.
  - case_bool_decide as Hacc; [|by apply Qcnot_le_lt].
    destruct (tryMove b piece 0 (-1)) as [moved|]; [|done].
    apply IH. rewrite Nat2Z.inj_succ, <- Z.add_1_r, Z2Qc_inj_add, Z2Qc_inj_1 in Hfuel.
    unfold Qcminus. apply (Qcplus_lt_mono_r _ _ 1%Qc).
    by rewrite <- Qcplus_assoc, (Qcplus_comm (- 1)%Qc), Qcplus_opp_r, Qcplus_0_r.
Qed.

Lemma Qcfloor_fuel (accumulator : Qc) :
  (accumulator < Qc_of_Z (Z.of_nat (Z.to_nat (Qcfloor accumulator)) + 1))%Qc.
Proof.
  apply Qclt_le_trans with (Qc_of_Z (Qcfloor accumulator + 1)).
  - unfold Qclt, Qcfloor. simpl. apply Qlt_floor.
  - apply (proj1 (Z2Qc_inj_le _ _)). lia.
Qed.

(** The level-up loop ends with its condition false. *)
Lemma levelUpLoop_completes fuel cfg remainingLines newLevel :
  maxLevel cfg - newLevel <= Z.of_nat fuel ->
  ¬ ((levelUpLoop fuel cfg remainingLines newLevel).1.1 >= linesPerLevel cfg
     ∧ (levelUpLoop fuel cfg remainingLines newLevel).1.2 < maxLevel cfg).
Proof.
  revert remainingLines newLevel.
  induction fuel as [|fuel IH]; intros remainingLines newLevel Hfuel; simpl.
  - lia.
  - destruct (bool_decide (remainingLines >= linesPerLevel cfg)
              && bool_decide (newLevel < maxLevel cfg)) eqn:Hcond.
    + specialize (IH (remainingLines - linesPerLevel cfg) (newLevel + 1)).
      destruct (levelUpLoop fuel cfg _ _) as [[r l] evs]. simpl in *. apply IH. lia.
    + simpl. apply andb_false_iff in Hcond as [Hc|Hc];
        apply bool_decide_eq_false in Hc; lia.
Qed.

(** ** The scenarios of the specification, run on the embedding *)

(** An I piece spawned on the empty board, moved right four times (the
    fourth move is refused at the wall) and hard-dropped: the cells land in
    row 0 at columns 6 to 9, hold is available again, nothing is cleared. *)
Example scenario_move_right_hard_drop :
  match runUpdates constRnd 0 DEFAULT_GAME_CONFIG (qc 50 3)
                   [moveRightOnly; moveRightOnly; moveRightOnly; moveRightOnly;
                    hardDropOnly] freshI 0%nat with
  | Some ((s, evs), _) =>
      lockSummary evs = [[mkPos 6 0; mkPos 7 0; mkPos 8 0; mkPos 9 0]]
      ∧ hold_available (hold s) = true
      ∧ clearSummary evs = []
      ∧ cellCount (board s) = 4%nat
  | None => False
  end.
Proof. vm_compute. done. Qed.

(** A piece that completes the one gap of a row: one lines-clear event, of
    type single. *)
Example scenario_single_clear :
  clearSummary (processLock 0 (lockState singleGapBoard restingO createComboState)
                            DEFAULT_GAME_CONFIG).2
  = [(Single, [0], 150)].
Proof. vm_compute. reflexivity. Qed.

(** A T locked upright in a three-row notch with all four corners filled:
    a full T-spin triple. *)
Example scenario_tspin_triple :
  lockTSpin (lockState tripleNotchBoard notchedT createComboState) notchedT
  = mkTSpin true false
  ∧ clearSummary (processLock 0 (lockState tripleNotchBoard notchedT createComboState)
                              DEFAULT_GAME_CONFIG).2
    = [(TSpinTriple, [0; 1; 2], 1650)].
Proof. vm_compute. done. Qed.

(** ** The update outside the playing phase (C10) *)

(** C10. In any phase other than [playing], [updateGame] returns the state
    it was given, unchanged, with no events, whatever the elapsed time, the
    actions and the configuration (and it reads no random number). *)
Theorem updateGame_not_playing rnd now state deltaMs actions cfg n :
  phase state ≠ playing ->
  updateGame rnd now state deltaMs actions cfg n = Some ((state, []), n).
Proof.
  intros Hphase. unfold updateGame.
  rewrite bool_decide_eq_true_2 by exact Hphase. reflexivity.
Qed.

Lemma updateGame_not_playing_witness :
  phase (stateOf paused (boardOf []) None sampleBag) ≠ playing
  ∧ updateGame constRnd 0 (stateOf paused (boardOf []) None sampleBag)
               (qc 50 3) noActions DEFAULT_GAME_CONFIG 0%nat
    = Some ((stateOf paused (boardOf []) None sampleBag, []), 0%nat).
Proof.
  assert (H : phase (stateOf paused (boardOf []) None sampleBag) ≠ playing)
    by (simpl; discriminate).
  split; [exact H | exact (updateGame_not_playing _ _ _ _ _ _ _ H)].
Defined.

(** ** Locks and the combo state (C4, C3) *)

Lemma processLineClears_rows now b :
  (processLineClears now b).2 = getFilledRows b.
Proof.
  unfold processLineClears. case_bool_decide as Hlen; simpl; [|done].
  symmetry. by apply length_zero_iff_nil.
Qed.

(** C4. A lock that clears no rows leaves the combo count at 0 and the
    back-to-back flag as it was. *)
Theorem processLock_no_clear now state cfg piece :
  activePiece state = Some piece ->
  lockClearedRows now state piece = [] ->
  comboCount (combo (processLock now state cfg).1) = 0
  ∧ backToBackActive (combo (processLock now state cfg).1)
    = backToBackActive (combo state).
Proof.
  intros Hpiece Hrows. unfold processLock. rewrite Hpiece.
  unfold lockClearedRows in Hrows.
  destruct (lockActivePiece now (board state) piece) as [newBoard locked] eqn:Hlock.
  simpl in Hrows.
  destruct (processLineClears now newBoard) as [clearedBoard clearedRows] eqn:Hclear.
  simpl in Hrows. subst clearedRows. simpl. done.
Qed.

Lemma processLock_no_clear_witness :
  activePiece (lockState (boardOf []) restingO chainCombo) = Some restingO
  ∧ lockClearedRows 0 (lockState (boardOf []) restingO chainCombo) restingO = []
  ∧ comboCount (combo (processLock 0 (lockState (boardOf []) restingO chainCombo)
                                   DEFAULT_GAME_CONFIG).1) = 0
  ∧ backToBackActive (combo (processLock 0 (lockState (boardOf []) restingO chainCombo)
                                         DEFAULT_GAME_CONFIG).1) = true.
Proof.
  assert (H1 : activePiece (lockState (boardOf []) restingO chainCombo) = Some restingO)
    by reflexivity.
  assert (H2 : lockClearedRows 0 (lockState (boardOf []) restingO chainCombo) restingO = [])
    by (vm_compute; reflexivity).
  split; [exact H1|]. split; [exact H2|].
  exact (processLock_no_clear 0 _ DEFAULT_GAME_CONFIG _ H1 H2).
Defined.

(** After a lock that clears rows with a clear type that is not difficult,
    the combo count is one more than before, the back-to-back counter is 0
    and back-to-back is not active. *)
Lemma processLock_clear_combo now state cfg piece :
  activePiece state = Some piece ->
  (0 < length (lockClearedRows now state piece))%nat ->
  let after := combo (processLock now state cfg).1 in
  comboCount after = comboCount (combo state) + 1
  ∧ backToBackActive after = isDifficultClear (lockClearType now state piece)
  ∧ (isDifficultClear (lockClearType now state piece) = false -> backToBack after = 0).
Proof.
  intros Hpiece Hrows. unfold processLock. rewrite Hpiece.
  unfold lockClearType, lockTSpin. unfold lockClearedRows in *.
  destruct (lockActivePiece now (board state) piece) as [newBoard locked] eqn:Hlock.
  simpl in *.
  destruct (processLineClears now newBoard) as [clearedBoard clearedRows] eqn:Hclear.
  simpl in *. rewrite bool_decide_eq_true_2 by exact Hrows.
  destruct (levelUpLoop _ _ _ _) as [[remaining newLevel] levelEvents].
  simpl. split; [done|]. split; [done|]. by intros ->.
Qed.

(** C3 (as amended). A lock that clears at least one row with a clear type
    that is not difficult leaves the combo count one higher than before (not
    0), the back-to-back counter at 0 and back-to-back not active. *)
Theorem processLock_easy_clear now state cfg piece :
  activePiece state = Some piece ->
  (0 < length (lockClearedRows now state piece))%nat ->
  isDifficultClear (lockClearType now state piece) = false ->
  comboCount (combo (processLock now state cfg).1) = comboCount (combo state) + 1
  ∧ backToBack (combo (processLock now state cfg).1) = 0
  ∧ backToBackActive (combo (processLock now state cfg).1) = false.
Proof.
  intros Hpiece Hrows Heasy.
  destruct (processLock_clear_combo now state cfg piece Hpiece Hrows) as (Hc & Ha & Hb).
  split; [exact Hc|]. split; [by apply Hb|]. by rewrite Ha.
Qed.

Lemma processLock_easy_clear_witness :
  activePiece (lockState singleGapBoard restingO chainCombo) = Some restingO
  ∧ (0 < length (lockClearedRows 0 (lockState singleGapBoard restingO chainCombo)
                                 restingO))%nat
  ∧ isDifficultClear (lockClearType 0 (lockState singleGapBoard restingO chainCombo)
                                    restingO) = false
  ∧ comboCount (combo (processLock 0 (lockState singleGapBoard restingO chainCombo)
                                   DEFAULT_GAME_CONFIG).1) = 3 + 1
  ∧ backToBack (combo (processLock 0 (lockState singleGapBoard restingO chainCombo)
                                   DEFAULT_GAME_CONFIG).1) = 0
  ∧ backToBackActive (combo (processLock 0 (lockState singleGapBoard restingO chainCombo)
                                         DEFAULT_GAME_CONFIG).1) = false.
Proof.
  assert (H1 : activePiece (lockState singleGapBoard restingO chainCombo) = Some restingO)
    by reflexivity.
  assert (H2 : (0 < length (lockClearedRows 0 (lockState singleGapBoard restingO chainCombo)
                                            restingO))%nat)
    by (vm_compute; lia).
  assert (H3 : isDifficultClear (lockClearType 0 (lockState singleGapBoard restingO
                                                            chainCombo) restingO) = false)
    by (vm_compute; reflexivity).
  split; [exact H1|]. split; [exact H2|]. split; [exact H3|].
  exact (processLock_easy_clear 0 _ DEFAULT_GAME_CONFIG _ H1 H2 H3).
Defined.

(** C3 (as stated) fails: this lock clears row 0 with clear type [Single],
    which is not difficult, and the combo count afterwards is 4, not 0. *)
Lemma processLock_easy_clear_combo_not_reset :
  activePiece (lockState singleGapBoard restingO chainCombo) = Some restingO
  ∧ lockClearedRows 0 (lockState singleGapBoard restingO chainCombo) restingO = [0]
  ∧ lockClearType 0 (lockState singleGapBoard restingO chainCombo) restingO = Single
  ∧ isDifficultClear Single = false
  ∧ comboCount (combo (processLock 0 (lockState singleGapBoard restingO chainCombo)
                                   DEFAULT_GAME_CONFIG).1) = 4
  ∧ ¬ (comboCount (combo (processLock 0 (lockState singleGapBoard restingO chainCombo)
                                      DEFAULT_GAME_CONFIG).1) = 0
       ∧ backToBackActive (combo (processLock 0 (lockState singleGapBoard restingO
                                                           chainCombo)
                                              DEFAULT_GAME_CONFIG).1) = false).
Proof.
  repeat split; try (vm_compute; reflexivity).
  intros [H _]. vm_compute in H. discriminate.
Qed.

(** ** Points of a first tetris (C1) *)

(** C1 fails on the code.  At level 1, with combo count 0 and back-to-back
    not active, locking the I piece into column 9 clears rows 0 to 3 with no
    T-spin; the lines-clear event carries 850 points and the score rises by
    850, not by 800: [processLock] hands the incremented combo count 1 to
    [calculateClearPoints], which adds the combo bonus 50 x 1 x 1. *)
Theorem processLock_first_tetris_points :
  level (gs_score (lockState tetrisBoard uprightI createComboState)) = 1
  ∧ comboCount (combo (lockState tetrisBoard uprightI createComboState)) = 0
  ∧ backToBackActive (combo (lockState tetrisBoard uprightI createComboState)) = false
  ∧ isTSpin (lockTSpin (lockState tetrisBoard uprightI createComboState) uprightI) = false
  ∧ clearSummary (processLock 0 (lockState tetrisBoard uprightI createComboState)
                              DEFAULT_GAME_CONFIG).2
    = [(Tetris, [0; 1; 2; 3], 850)]
  ∧ score (gs_score (processLock 0 (lockState tetrisBoard uprightI createComboState)
                                 DEFAULT_GAME_CONFIG).1) = 0 + 850
  ∧ calculateClearPoints Tetris 1 0 false DEFAULT_SCORING_CONFIG = 800.
Proof. repeat split; vm_compute; reflexivity. Qed.

(** The same holds of every such lock: at level 1, from combo count 0 with
    back-to-back not active, a lock that clears four rows with no T-spin adds
    850 to the score (and 3000 more when the board is left empty). *)
Lemma processLock_first_tetris_score now s cfg piece :
  activePiece s = Some piece ->
  length (lockClearedRows now s piece) = 4%nat ->
  isTSpin (lockTSpin s piece) = false ->
  level (gs_score s) = 1 ->
  comboCount (combo s) = 0 ->
  backToBackActive (combo s) = false ->
  score (gs_score (processLock now s cfg).1)
  = score (gs_score s) + 850
    + (if isPerfectClear (processLineClears now (lockActivePiece now (board s) piece).1).1
       then 3000 else 0).
Proof.
  intros Hpiece Hrows Htspin Hlevel Hcombo Hb2b. unfold processLock. rewrite Hpiece.
  unfold lockTSpin in Htspin. unfold lockClearedRows in Hrows.
  destruct (lockActivePiece now (board s) piece) as [newBoard locked].
  simpl in *.
  destruct (processLineClears now newBoard) as [clearedBoard clearedRows].
  simpl in *. rewrite Hrows, Htspin, Hlevel, Hcombo, Hb2b. simpl.
  destruct (levelUpLoop _ _ _ _) as [[remaining newLevel] levelEvents]. simpl.
  destruct (isPerfectClear clearedBoard); lia.
Qed.

(** ** The last-resort kick and the T-spin verdict of a lock (C2) *)

(** C2 fails on the code.  One update with rotate-counter-clockwise and hard
    drop: the T is legally placed, the rotation succeeds through kick slot 4
    into the notch, three corners are filled but only one front corner, and
    the lock clears rows 0 and 1.  [detectTSpin] given kick index 4 answers
    full ([isMini = false]), but [processLock] always passes kick index 0,
    so the clear is classified [TSpinMini]. *)
Theorem updateGame_last_kick_tspin_mini :
  isValidPiecePosition notchBoard uprightT = true
  ∧ rotationSummary
      (eventsOf (updateGame constRnd 0 (lockState notchBoard uprightT createComboState)
                            (qc 50 3) rotateAndDrop DEFAULT_GAME_CONFIG 0%nat))
    = [(R0, true, 4)]
  ∧ clearSummary
      (eventsOf (updateGame constRnd 0 (lockState notchBoard uprightT createComboState)
                            (qc 50 3) rotateAndDrop DEFAULT_GAME_CONFIG 0%nat))
    = [(TSpinMini, [0; 1], 150)]
  ∧ countFilled notchBoard
      (tSpinCorners (mkPiece TT (mkPos 1 1) R0 1 sampleLockDelay 0)) = 3
  ∧ detectTSpin notchBoard (mkPiece TT (mkPos 1 1) R0 1 sampleLockDelay 0) true 4
    = mkTSpin true false
  ∧ detectTSpin notchBoard (mkPiece TT (mkPos 1 1) R0 1 sampleLockDelay 0) true 0
    = mkTSpin true true.
Proof. repeat split; vm_compute; reflexivity. Qed.

(** ** Rotating and rotating back through the zero-offset kick (C9) *)

Section RotationRoundTrip.

Variable b : BoardState.

Lemma getWallKickKey_quarter r d :
  d ≠ r180 -> is_Some (getWallKickKey r (getNewRotation r d)).
Proof. destruct r, d; intros Hd; try done; by eexists. Qed.

(** Every kick list starts with the zero offset. *)
Lemma first_kick_zero t k : ∃ rest, getWallKicks t k = mkPos 0 0 :: rest.
Proof. destruct t, k; eexists; reflexivity. Qed.

(** A successful search started at index [i] reports an index [>= i]. *)
Lemma kickSearch_index piece rot kicks i :
  success (kickSearch b piece rot kicks i) = true ->
  i <= kickIndex (kickSearch b piece rot kicks i).
Proof.
  revert i. induction kicks as [|kick rest IH]; intros i; simpl; [done|].
  destruct (canPlacePiece _ _ _ _); simpl; [lia|].
  intros Hs. specialize (IH (i + 1) Hs). lia.
Qed.

(** A quarter turn that succeeds with kick index 0 keeps the position and
    only changes the rotation state. *)
Lemma tryRotateQuarter_zero_kick piece d :
  d ≠ r180 ->
  success (tryRotateQuarter b piece d) = true ->
  kickIndex (tryRotateQuarter b piece d) = 0 ->
  newPiece (tryRotateQuarter b piece d)
  = Some (withRotation piece (getNewRotation (rotation piece) d))
  ∧ canPlacePiece b (ptype piece) (position piece)
                  (getNewRotation (rotation piece) d) = true.
Proof.
  intros Hd. unfold tryRotateQuarter.
  destruct (getWallKickKey_quarter (rotation piece) d Hd) as [key ->].
  destruct (first_kick_zero (ptype piece) key) as [rest ->]. simpl.
  rewrite !Z.add_0_r.
  assert (Hpos : mkPos (pos_x (position piece)) (pos_y (position piece)) = position piece)
    by (by destruct (position piece)).
  rewrite Hpos.
  destruct (canPlacePiece b (ptype piece) (position piece) _) eqn:Hplace; simpl.
  - intros _ _. split; [|done]. by destruct piece.
  - intros Hs Hk. apply kickSearch_index in Hs. lia.
Qed.

Lemma getNewRotation_cw_ccw r : getNewRotation (getNewRotation r cw) ccw = r.
Proof. by destruct r. Qed.

(** C9. From a legal placement, if the clockwise rotation succeeds with the
    zero-offset kick and the counter-clockwise rotation of the result also
    succeeds with the zero-offset kick, the final piece is the original one:
    same position and same rotation state (and the same other fields). *)
Theorem rotate_cw_ccw_zero_kick piece p1 p2 :
  canPlacePiece b (ptype piece) (position piece) (rotation piece) = true ->
  success (tryRotate b piece cw) = true ->
  kickIndex (tryRotate b piece cw) = 0 ->
  newPiece (tryRotate b piece cw) = Some p1 ->
  success (tryRotate b p1 ccw) = true ->
  kickIndex (tryRotate b p1 ccw) = 0 ->
  newPiece (tryRotate b p1 ccw) = Some p2 ->
  position p2 = position piece ∧ rotation p2 = rotation piece ∧ p2 = piece.
Proof.
  intros _ Hs1 Hk1 Hp1 Hs2 Hk2 Hp2. unfold tryRotate in *.
  destruct (tryRotateQuarter_zero_kick piece cw) as [E1 _]; [done..|].
  rewrite E1 in Hp1. injection Hp1 as <-.
  destruct (tryRotateQuarter_zero_kick _ ccw ltac:(done) Hs2 Hk2) as [E2 _].
  rewrite E2 in Hp2. injection Hp2 as <-.
  destruct piece as [t pos r gy ld sd]. unfold withRotation.
  cbn [ptype position rotation ghostY lockDelay softDropCells].
  by destruct r.
Qed.

(** A quarter turn whose target placement is free succeeds at once, through
    the zero-offset kick. *)
Lemma tryRotateQuarter_free piece d :
  d ≠ r180 ->
  canPlacePiece b (ptype piece) (position piece)
                (getNewRotation (rotation piece) d) = true ->
  success (tryRotateQuarter b piece d) = true
  ∧ kickIndex (tryRotateQuarter b piece d) = 0.
Proof.
  intros Hd Hfree. unfold tryRotateQuarter.
  destruct (getWallKickKey_quarter (rotation piece) d Hd) as [key ->].
  destruct (first_kick_zero (ptype piece) key) as [rest ->]. simpl.
  rewrite !Z.add_0_r.
  assert (Hpos : mkPos (pos_x (position piece)) (pos_y (position piece)) = position piece)
    by (by destruct (position piece)).
  by rewrite Hpos, Hfree.
Qed.

(** The way back is always open: from a legal placement, after a clockwise
    rotation through the zero-offset kick, the counter-clockwise rotation
    succeeds, through the zero-offset kick again. *)
Lemma rotate_back_succeeds piece p1 :
  canPlacePiece b (ptype piece) (position piece) (rotation piece) = true ->
  success (tryRotate b piece cw) = true ->
  kickIndex (tryRotate b piece cw) = 0 ->
  newPiece (tryRotate b piece cw) = Some p1 ->
  success (tryRotate b p1 ccw) = true ∧ kickIndex (tryRotate b p1 ccw) = 0.
Proof.
  intros Hlegal Hs1 Hk1 Hp1. unfold tryRotate in *.
  destruct (tryRotateQuarter_zero_kick piece cw) as [E1 _]; [done..|].
  rewrite E1 in Hp1. injection Hp1 as <-.
  apply tryRotateQuarter_free; [done|].
  change (canPlacePiece b (ptype piece) (position piece)
            (getNewRotation (getNewRotation (rotation piece) cw) ccw) = true).
  by rewrite getNewRotation_cw_ccw.
Qed.

End RotationRoundTrip.

Lemma rotate_cw_ccw_zero_kick_witness :
  canPlacePiece (boardOf []) TT (mkPos 4 1) R0 = true
  ∧ success (tryRotate (boardOf []) floorT cw) = true
  ∧ kickIndex (tryRotate (boardOf []) floorT cw) = 0
  ∧ newPiece (tryRotate (boardOf []) floorT cw) = Some (withRotation floorT R1)
  ∧ success (tryRotate (boardOf []) (withRotation floorT R1) ccw) = true
  ∧ kickIndex (tryRotate (boardOf []) (withRotation floorT R1) ccw) = 0
  ∧ newPiece (tryRotate (boardOf []) (withRotation floorT R1) ccw) = Some floorT
  ∧ position floorT = position floorT ∧ rotation floorT = rotation floorT
  ∧ floorT = floorT.
Proof.
  assert (H0 : canPlacePiece (boardOf []) (ptype floorT) (position floorT)
                             (rotation floorT) = true) by (vm_compute; reflexivity).
  assert (H1 : success (tryRotate (boardOf []) floorT cw) = true)
    by (vm_compute; reflexivity).
  assert (H2 : kickIndex (tryRotate (boardOf []) floorT cw) = 0)
    by (vm_compute; reflexivity).
  assert (H3 : newPiece (tryRotate (boardOf []) floorT cw) = Some (withRotation floorT R1))
    by (vm_compute; reflexivity).
  assert (H4 : success (tryRotate (boardOf []) (withRotation floorT R1) ccw) = true)
    by (vm_compute; reflexivity).
  assert (H5 : kickIndex (tryRotate (boardOf []) (withRotation floorT R1) ccw) = 0)
    by (vm_compute; reflexivity).
  assert (H6 : newPiece (tryRotate (boardOf []) (withRotation floorT R1) ccw) = Some floorT)
    by (vm_compute; reflexivity).
  repeat (split; [assumption|]).
  exact (rotate_cw_ccw_zero_kick (boardOf []) floorT _ _ H0 H1 H2 H3 H4 H5 H6).
Defined.

(** ** Seven draws from a full bag (C6) *)

Section Bag.

Variable rnd : nat -> Qc.

Lemma swapPieces_length pieces i j :
  length (swapPieces pieces i j) = length pieces.
Proof.
  unfold swapPieces. destruct (pieces !! i), (pieces !! j); try done.
  by rewrite !length_insert.
Qed.

(** The shuffle never throws; it reads one random number per pass and keeps
    the length of the array. *)
Lemma shuffleFrom_returns i pieces n :
  ∃ l, shuffleFrom rnd i pieces n = Some (l, (n + i)%nat) ∧ length l = length pieces.
Proof.
  revert pieces n. induction i as [|i IH]; intros pieces n.
  - exists pieces. split; [|done]. simpl. unfold mret, eff_ret. do 2 f_equal. lia.
  - simpl. unfold mbind, eff_bind, random.
    destruct (IH (swapPieces pieces (S i)
                    (Z.to_nat (Qcfloor (rnd n * Qc_of_Z (Z.of_nat (S i) + 1)))))
                 (S n)) as (l & Hl & Hlen).
    exists l. rewrite Hl. split; [do 2 f_equal; lia|].
    by rewrite Hlen, swapPieces_length.
Qed.

Lemma createBag_returns n :
  ∃ l, createBag rnd n = Some (l, (n + 6)%nat) ∧ length l = 7%nat.
Proof. apply (shuffleFrom_returns 6 allPieceTypes n). Qed.

(** A draw from a queue holding at least two pieces pops its head and
    leaves the next queue alone. *)
Lemma getNextPiece_pop p q rest nxt pre n :
  ∃ pre', getNextPiece rnd (mkBag (p :: q :: rest) nxt pre) n
          = Some ((Some p, mkBag (q :: rest) nxt pre'), n).
Proof. unfold getNextPiece. simpl. eexists. reflexivity. Qed.

(** The draw of the last piece of the queue promotes the next queue and
    shuffles a fresh one. *)
Lemma getNextPiece_last p nxt pre n :
  ∃ fresh pre', getNextPiece rnd (mkBag [p] nxt pre) n
                = Some ((Some p, mkBag nxt fresh pre'), (n + 6)%nat).
Proof.
  unfold getNextPiece. simpl. unfold mbind, eff_bind.
  destruct (createBag_returns n) as (fresh & -> & _).
  eexists _, _. reflexivity.
Qed.

Lemma drawPieces_step k bg n :
  drawPieces rnd (S k) bg n
  = match getNextPiece rnd bg n with
    | Some ((piece, bg1), n1) =>
        match drawPieces rnd k bg1 n1 with
        | Some ((pieces, bg2), n2) => Some ((piece :: pieces, bg2), n2)
        | None => None
        end
    | None => None
    end.
Proof.
  simpl. unfold mbind, eff_bind. destruct (getNextPiece rnd bg n) as [[[piece bg1] n1]|];
    [|done].
  by destruct (drawPieces rnd k bg1 n1) as [[[pieces bg2] n2]|].
Qed.

(** Drawing as many pieces as the current queue holds returns that queue,
    in order. *)
Lemma drawPieces_whole_queue cur nxt pre n :
  cur ≠ [] ->
  ∃ bg' n', drawPieces rnd (length cur) (mkBag cur nxt pre) n
            = Some ((Some <$> cur, bg'), n').
Proof.
  revert pre n. induction cur as [|p [|q rest] IH]; intros pre n Hne; [done| |].
  - simpl length. rewrite drawPieces_step.
    destruct (getNextPiece_last p nxt pre n) as (fresh & pre' & ->).
    simpl. by eexists _, _.
  - change (length (p :: q :: rest)) with (S (length (q :: rest))).
    rewrite drawPieces_step.
    destruct (getNextPiece_pop p q rest nxt pre n) as [pre' ->].
    destruct (IH pre' n) as (bg' & n' & ->); [done|].
    by eexists _, _.
Qed.

End Bag.

(** C6. From a bag aligned to a bag boundary (the current queue is a
    permutation of the seven piece types), seven consecutive draws return
    each of the seven piece types exactly once: the pieces drawn are the
    current queue itself, every one of them defined. *)
Theorem seven_draws_each_type_once rnd bg n :
  current bg ≡ₚ allPieceTypes ->
  ∃ pieces bg' n',
    drawPieces rnd 7 bg n = Some ((Some <$> pieces, bg'), n')
    ∧ pieces ≡ₚ allPieceTypes
    ∧ ∀ t, count_occ TetrominoType_eq_dec pieces t = 1%nat.
Proof.
  intros Hperm. destruct bg as [cur nxt pre]. simpl in Hperm.
  assert (Hlen : length cur = 7%nat) by (by rewrite Hperm).
  destruct (drawPieces_whole_queue rnd cur nxt pre n) as (bg' & n' & Hdraw).
  { intros ->. done. }
  rewrite Hlen in Hdraw. exists cur, bg', n'. split; [done|]. split; [done|].
  intros t. rewrite (Permutation_count_occ TetrominoType_eq_dec cur allPieceTypes) in Hperm.
  rewrite Hperm. by destruct t.
Qed.

Lemma seven_draws_each_type_once_witness :
  current (mkBag [TL; TJ; TZ; TS; TT; TO; TI] [TI; TO; TT; TS; TZ; TJ; TL] [TL; TJ; TZ])
    ≡ₚ allPieceTypes
  ∧ ∃ pieces bg' n',
      drawPieces constRnd 7
        (mkBag [TL; TJ; TZ; TS; TT; TO; TI] [TI; TO; TT; TS; TZ; TJ; TL] [TL; TJ; TZ])
        0%nat
      = Some ((Some <$> pieces, bg'), n')
      ∧ pieces ≡ₚ allPieceTypes
      ∧ ∀ t, count_occ TetrominoType_eq_dec pieces t = 1%nat.
Proof.
  assert (H : current (mkBag [TL; TJ; TZ; TS; TT; TO; TI] [TI; TO; TT; TS; TZ; TJ; TL]
                             [TL; TJ; TZ]) ≡ₚ allPieceTypes).
  { change ([TL; TJ; TZ; TS; TT; TO; TI] ≡ₚ reverse [TL; TJ; TZ; TS; TT; TO; TI]).
    by rewrite reverse_Permutation. }
  split; [exact H|].
  exact (seven_draws_each_type_once constRnd _ 0%nat H).
Defined.

(** ** Clearing the filled rows (C5) *)

Section ClearRows.

Variable b : BoardState.
Variable rows : list Z.

Lemma clearColumn_other x ys writeY acc x' w :
  x' ≠ x -> clearColumn b rows x ys writeY acc !! (x', w) = acc !! (x', w).
Proof.
  intros Hx. revert writeY acc. induction ys as [|y ys IH]; intros writeY acc; [done|].
  simpl. case_bool_decide; [apply IH|].
  rewrite IH. unfold getCell, cellKey. destruct (cells b !! (x, y)); [|done].
  apply lookup_insert_ne. congruence.
Qed.

Lemma clearColumn_below x ys writeY acc w :
  w < writeY -> clearColumn b rows x ys writeY acc !! (x, w) = acc !! (x, w).
Proof.
  revert writeY acc. induction ys as [|y ys IH]; intros writeY acc Hw; [done|].
  simpl. case_bool_decide; [by apply IH|].
  rewrite IH by lia. unfold getCell, cellKey. destruct (cells b !! (x, y)); [|done].
  apply lookup_insert_ne. intros [=]. lia.
Qed.

Lemma clearColumn_lookup x ys writeY acc w :
  (∀ w', writeY <= w' -> acc !! (x, w') = None) ->
  writeY <= w ->
  clearColumn b rows x ys writeY acc !! (x, w) = copied b rows x ys writeY w.
Proof.
  revert writeY acc. induction ys as [|y ys IH]; intros writeY acc Hfree Hw.
  - simpl. unfold copied, keptRows. rewrite filter_nil, lookup_nil. simpl. by apply Hfree.
  - simpl. unfold copied, keptRows. rewrite filter_cons.
    case_bool_decide as Hy.
    + rewrite decide_False by (intros Hn; contradiction). by apply IH.
    + rewrite decide_True by done.
      destruct (decide (w = writeY)) as [->|Hne].
      * rewrite Z.sub_diag. simpl. rewrite clearColumn_below by lia.
        unfold getCell, cellKey. destruct (cells b !! (x, y)) eqn:Hc.
        -- apply lookup_insert_eq.
        -- apply Hfree. lia.
      * replace (Z.to_nat (w - writeY)) with (S (Z.to_nat (w - (writeY + 1)))) by lia.
        simpl. rewrite IH; [done| |lia].
        intros w' Hw'. unfold getCell, cellKey.
        destruct (cells b !! (x, y)); [|apply Hfree; lia].
        rewrite lookup_insert_ne by (intros [=]; lia). apply Hfree. lia.
Qed.

Lemma clearColumn_size x ys writeY acc :
  (∀ w', writeY <= w' -> acc !! (x, w') = None) ->
  size (clearColumn b rows x ys writeY acc)
  = (size acc + length (filter (fun r => is_Some (cells b !! (x, r))) (keptRows rows ys)))%nat.
Proof.
  revert writeY acc. induction ys as [|y ys IH]; intros writeY acc Hfree.
  - simpl. lia.
  - simpl. unfold keptRows. rewrite filter_cons.
    case_bool_decide as Hy.
    + rewrite decide_False by (intros Hn; contradiction). by apply IH.
    + rewrite decide_True by done. rewrite filter_cons.
      unfold getCell, cellKey. destruct (cells b !! (x, y)) eqn:Hc.
      * rewrite decide_True by (by eexists). rewrite IH.
        -- rewrite map_size_insert_None by (apply Hfree; lia). simpl. unfold keptRows. lia.
        -- intros w' Hw'. rewrite lookup_insert_ne by (intros [=]; lia). apply Hfree. lia.
      * rewrite decide_False by (by intros [? ?]). rewrite IH; [done|].
        intros w' Hw'. apply Hfree. lia.
Qed.

Lemma clearColumns_lookup ys xs acc x w :
  NoDup xs ->
  (∀ x' w', x' ∈ xs -> 0 <= w' -> acc !! (x', w') = None) ->
  clearColumns b rows ys xs acc !! (x, w)
  = if decide (x ∈ xs ∧ 0 <= w) then copied b rows x ys 0 w else acc !! (x, w).
Proof.
  revert acc. induction xs as [|x0 xs IH]; intros acc Hnd Hfree.
  - case_decide as Hin; [|done]. destruct Hin as [Hin _]. by apply elem_of_nil in Hin.
  - apply NoDup_cons in Hnd as [Hx0 Hnd].
    change (clearColumns b rows ys (x0 :: xs) acc)
      with (clearColumns b rows ys xs (clearColumn b rows x0 ys 0 acc)).
    rewrite IH; [|done|].
    + destruct (decide (x ∈ xs ∧ 0 <= w)) as [[Hin Hw]|Hn].
      * rewrite decide_True; [done|]. split; [by right|done].
      * destruct (decide (x = x0)) as [->|Hne].
        -- destruct (decide (0 <= w)) as [Hw|Hw].
           ++ rewrite decide_True by (split; [by left|done]).
              apply clearColumn_lookup; [|done].
              intros w' Hw'. apply Hfree; [by left|done].
           ++ rewrite decide_False by (intros [_ ?]; done).
              apply clearColumn_below. lia.
        -- rewrite decide_False.
           ++ by apply clearColumn_other.
           ++ intros [Hin Hw]. apply Hn. split; [|done].
              apply elem_of_cons in Hin as [?|?]; [done|done].
    + intros x' w' Hin Hw'. rewrite clearColumn_other.
      * apply Hfree; [by right|done].
      * intros ->. done.
Qed.

Lemma clearColumns_size ys xs acc :
  NoDup xs ->
  (∀ x' w', x' ∈ xs -> 0 <= w' -> acc !! (x', w') = None) ->
  size (clearColumns b rows ys xs acc)
  = (size acc
     + length (xs ≫= fun x =>
                 filter (fun r => is_Some (cells b !! (x, r))) (keptRows rows ys)))%nat.
Proof.
  revert acc. induction xs as [|x0 xs IH]; intros acc Hnd Hfree.
  - simpl. lia.
  - apply NoDup_cons in Hnd as [Hx0 Hnd].
    change (clearColumns b rows ys (x0 :: xs) acc)
      with (clearColumns b rows ys xs (clearColumn b rows x0 ys 0 acc)).
    rewrite IH; [|done|].
    + rewrite clearColumn_size by (intros; apply Hfree; [by left|done]).
      rewrite bind_cons, length_app. lia.
    + intros x' w' Hin Hw'. rewrite clearColumn_other.
      * apply Hfree; [by right|done].
      * intros ->. done.
Qed.

End ClearRows.

Lemma isValidPosition_true b x y :
  isValidPosition b x y = true
  <-> (0 <= x < width (config b) ∧ 0 <= y < totalHeight b).
Proof.
  unfold isValidPosition. rewrite !andb_true_iff, !bool_decide_eq_true. tauto.
Qed.

Lemma filter_ext_elem {A} (P Q : A -> Prop) `{!∀ a, Decision (P a)} `{!∀ a, Decision (Q a)}
    (l : list A) :
  (∀ a, a ∈ l -> P a <-> Q a) -> filter P l = filter Q l.
Proof.
  induction l as [|a l IH]; intros Heq; [done|].
  rewrite !filter_cons. rewrite IH by (intros; apply Heq; by right).
  destruct (decide (P a)) as [Hp|Hp], (decide (Q a)) as [Hq|Hq]; try done.
  - apply (Heq a) in Hp; [done|by left].
  - apply (Heq a) in Hq; [done|by left].
Qed.

Lemma filter_none {A} (P : A -> Prop) `{!∀ a, Decision (P a)} (l : list A) :
  (∀ a, a ∈ l -> ¬ P a) -> filter P l = [].
Proof.
  induction l as [|a l IH]; intros Hno; [done|].
  rewrite filter_cons_False by (apply Hno; by left).
  apply IH. intros; apply Hno; by right.
Qed.

Lemma filter_all {A} (P : A -> Prop) `{!∀ a, Decision (P a)} (l : list A) :
  (∀ a, a ∈ l -> P a) -> filter P l = l.
Proof.
  induction l as [|a l IH]; intros Hall; [done|].
  rewrite filter_cons_True by (apply Hall; by left).
  f_equal. apply IH. intros; apply Hall; by right.
Qed.

Lemma length_bind_const {A B} (f : A -> list B) (l : list A) (n : nat) :
  (∀ a, a ∈ l -> length (f a) = n) -> length (l ≫= f) = (length l * n)%nat.
Proof.
  induction l as [|a l IH]; intros Hlen; [done|].
  rewrite bind_cons, length_app, Hlen by (by left).
  rewrite IH by (intros; apply Hlen; by right). simpl. lia.
Qed.

Lemma length_bind_add {A B} (f g : A -> list B) (l : list A) (n : nat) :
  (∀ a, a ∈ l -> length (f a) = (length (g a) + n)%nat) ->
  length (l ≫= f) = (length (l ≫= g) + length l * n)%nat.
Proof.
  induction l as [|a l IH]; intros Hlen; [done|].
  rewrite !bind_cons, !length_app, Hlen by (by left).
  rewrite IH by (intros; apply Hlen; by right). simpl. lia.
Qed.

Section CellCount.

Variable b : BoardState.

Lemma NoDup_gridCells : NoDup (gridCells b).
Proof.
  unfold gridCells. apply NoDup_bind.
  - intros x1 x2 [x r] _ _ H1 H2.
    apply list_elem_of_fmap in H1 as (r1 & [= -> ->] & _).
    by apply list_elem_of_fmap in H2 as (r2 & [= -> ->] & _).
  - intros x _. apply NoDup_fmap.
    + intros r1 r2 [=]. done.
    + apply NoDup_filter, NoDup_seqZ.
  - apply NoDup_seqZ.
Qed.

Lemma elem_of_gridCells x r :
  (x, r) ∈ gridCells b
  <-> is_Some (cells b !! (x, r)) ∧ isValidPosition b x r = true.
Proof.
  unfold gridCells. rewrite list_elem_of_bind, isValidPosition_true. split.
  - intros (x' & Hin & Hx). apply list_elem_of_fmap in Hin as (r' & [= -> ->] & Hr).
    apply list_elem_of_filter in Hr as [Hocc Hr].
    apply elem_of_seqZ in Hx. apply elem_of_seqZ in Hr. split; [done|lia].
  - intros (Hocc & Hx & Hr). exists x. split.
    + apply list_elem_of_fmap. exists r. split; [done|].
      apply list_elem_of_filter. split; [done|]. apply elem_of_seqZ. lia.
    + apply elem_of_seqZ. lia.
Qed.

(** On a board whose cells are all in bounds, the size of the cell map is
    the number of occupied positions of the grid. *)
Lemma cellCount_grid :
  cellsInBounds b ->
  cellCount b
  = length (seqZ 0 (width (config b)) ≫= fun x =>
              occupiedRows b x (seqZ 0 (totalHeight b))).
Proof.
  intros Hin. unfold cellCount.
  rewrite <- length_map_to_list, <- (length_fmap fst).
  transitivity (length (gridCells b)).
  - apply Permutation_length, NoDup_Permutation.
    + apply NoDup_fst_map_to_list.
    + apply NoDup_gridCells.
    + intros [x r]. rewrite elem_of_gridCells. split.
      * intros Hk. apply list_elem_of_fmap in Hk as ([k c] & Hk & Hc). simpl in Hk. subst k.
        apply elem_of_map_to_list in Hc. split; [by eexists|].
        apply (Hin (x, r) c Hc).
      * intros [[c Hc] _]. apply list_elem_of_fmap. exists ((x, r), c).
        split; [done|]. by apply elem_of_map_to_list.
  - unfold gridCells. induction (seqZ 0 (width (config b))) as [|x xs IH]; [done|].
    rewrite !bind_cons, !length_app, length_fmap. by rewrite IH.
Qed.

End CellCount.

Lemma rowFilled_true b y :
  rowFilled b y = true
  <-> ∀ x, x ∈ seqZ 0 (width (config b)) -> is_Some (cells b !! (x, y)).
Proof.
  unfold rowFilled. rewrite forallb_forall. unfold isCellOccupied, cellKey. split.
  - intros Hall x Hx. apply list_elem_of_In in Hx. apply Hall in Hx.
    by apply bool_decide_eq_true in Hx.
  - intros Hall x Hx. apply list_elem_of_In in Hx. apply bool_decide_eq_true. by apply Hall.
Qed.

Lemma elem_of_getFilledRows b y :
  y ∈ getFilledRows b <-> rowFilled b y = true ∧ y ∈ seqZ 0 (totalHeight b).
Proof. unfold getFilledRows. by rewrite list_elem_of_filter. Qed.

Section ClearFilledRows.

Variable b : BoardState.
Variable now : Z.

Let sortedRows : list Z := merge_sort descending (getFilledRows b).
Let ys : list Z := seqZ 0 (totalHeight b).
Let xs : list Z := seqZ 0 (width (config b)).

Lemma elem_of_sortedRows y : y ∈ sortedRows <-> y ∈ getFilledRows b.
Proof. unfold sortedRows. by rewrite merge_sort_Permutation. Qed.

Lemma clearRows_cells :
  getFilledRows b ≠ [] ->
  cells (clearRows b (getFilledRows b) now) = clearColumns b sortedRows ys xs ∅
  ∧ config (clearRows b (getFilledRows b) now) = config b.
Proof.
  intros Hne. unfold clearRows.
  rewrite bool_decide_eq_false_2; [done|].
  intros Hlen. by apply length_zero_iff_nil in Hlen.
Qed.

Lemma clearRows_lookup x w :
  getFilledRows b ≠ [] ->
  x ∈ xs -> 0 <= w ->
  cells (clearRows b (getFilledRows b) now) !! (x, w)
  = keptRows sortedRows ys !! Z.to_nat w ≫= (fun r => cells b !! (x, r)).
Proof.
  intros Hne Hx Hw. destruct (clearRows_cells Hne) as [-> _].
  rewrite clearColumns_lookup; [|apply NoDup_seqZ|done].
  rewrite decide_True by done. unfold copied. by rewrite Z.sub_0_r.
Qed.

(** No row of the cleared board is filled: a row that received a copy has
    the content of a row that was not filled, the rows above them are empty. *)
Lemma clearRows_no_filled_row w :
  0 < width (config b) ->
  getFilledRows b ≠ [] ->
  w ∈ ys ->
  rowFilled (clearRows b (getFilledRows b) now) w ≠ true.
Proof.
  intros Hwidth Hne Hw Hfilled. apply elem_of_seqZ in Hw.
  rewrite rowFilled_true in Hfilled.
  destruct (clearRows_cells Hne) as [_ Hcfg]. rewrite Hcfg in Hfilled. fold xs in Hfilled.
  assert (H0 : 0 ∈ xs) by (apply elem_of_seqZ; lia).
  pose proof (Hfilled 0 H0) as Hsome.
  rewrite clearRows_lookup in Hsome by (done || lia).
  destruct (keptRows sortedRows ys !! Z.to_nat w) as [r|] eqn:Hr;
    [|by destruct Hsome].
  apply list_elem_of_lookup_2 in Hr as Hkept.
  apply list_elem_of_filter in Hkept as [Hnot Hin].
  apply Hnot, elem_of_sortedRows, elem_of_getFilledRows. split; [|done].
  apply rowFilled_true. intros x Hx. specialize (Hfilled x Hx).
  rewrite clearRows_lookup in Hfilled by (done || lia).
  by rewrite Hr in Hfilled.
Qed.

(** In every column the cleared rows are all occupied, so the column loses
    exactly one cell per cleared row. *)
Lemma occupiedRows_split x :
  x ∈ xs ->
  length (occupiedRows b x ys)
  = (length (filter (fun r => is_Some (cells b !! (x, r))) (keptRows sortedRows ys))
     + length (getFilledRows b))%nat.
Proof.
  intros Hx. unfold occupiedRows, keptRows.
  rewrite <- (filter_app_complement (fun y => y ∈ sortedRows) ys) at 1.
  rewrite filter_app, length_app, Nat.add_comm. f_equal. f_equal.
  rewrite filter_all.
  - apply filter_ext_elem. intros y Hy.
    rewrite elem_of_sortedRows, elem_of_getFilledRows. tauto.
  - intros r Hr. apply list_elem_of_filter in Hr as [Hr _].
    apply elem_of_sortedRows, elem_of_getFilledRows in Hr as [Hr _].
    rewrite rowFilled_true in Hr. by apply Hr.
Qed.

Lemma clearRows_cellCount :
  cellsInBounds b ->
  getFilledRows b ≠ [] ->
  cellCount b
  = (cellCount (clearRows b (getFilledRows b) now)
     + length (getFilledRows b) * Z.to_nat (width (config b)))%nat.
Proof.
  intros Hin Hne. rewrite (cellCount_grid b Hin).
  unfold cellCount at 1. destruct (clearRows_cells Hne) as [-> _].
  rewrite clearColumns_size; [|apply NoDup_seqZ|done].
  rewrite map_size_empty. simpl.
  rewrite (length_bind_add _
             (fun x => filter (fun r => is_Some (cells b !! (x, r)))
                              (keptRows sortedRows ys))
             _ (length (getFilledRows b))).
  - fold xs. unfold xs at 2. rewrite length_seqZ. lia.
  - apply occupiedRows_split.
Qed.

End ClearFilledRows.

(** C5. On a board of the engine (a positive width, every cell within the
    bounds), clearing the rows returned by the filled-row scan yields a
    board on which the scan finds no filled row, and whose cell count is
    the original cell count minus (number of cleared rows x board width). *)
Theorem clearRows_filled_rows b now :
  0 < width (config b) ->
  cellsInBounds b ->
  getFilledRows (clearRows b (getFilledRows b) now) = []
  ∧ Z.of_nat (cellCount (clearRows b (getFilledRows b) now))
    = Z.of_nat (cellCount b) - Z.of_nat (length (getFilledRows b)) * width (config b).
Proof.
  intros Hwidth Hin.
  destruct (getFilledRows b) as [|y0 rest] eqn:Hrows.
  - unfold clearRows. simpl. split; [done|lia].
  - rewrite <- Hrows.
    assert (Hne : getFilledRows b ≠ []) by (by rewrite Hrows).
    split.
    + unfold getFilledRows at 1. apply filter_none. intros w Hw.
      unfold totalHeight in Hw.
      destruct (clearRows_cells b now Hne) as [_ Hcfg]. rewrite Hcfg in Hw.
      by apply clearRows_no_filled_row.
    + rewrite (clearRows_cellCount b now Hin Hne). lia.
Qed.

Lemma clearRows_filled_rows_witness :
  0 < width (config twoFullRowsBoard)
  ∧ cellsInBounds twoFullRowsBoard
  ∧ getFilledRows (clearRows twoFullRowsBoard (getFilledRows twoFullRowsBoard) 0) = []
  ∧ Z.of_nat (cellCount (clearRows twoFullRowsBoard (getFilledRows twoFullRowsBoard) 0))
    = Z.of_nat (cellCount twoFullRowsBoard)
      - Z.of_nat (length (getFilledRows twoFullRowsBoard))
        * width (config twoFullRowsBoard).
Proof.
  assert (H1 : 0 < width (config twoFullRowsBoard)) by (simpl; lia).
  assert (H2 : cellsInBounds twoFullRowsBoard)
    by (apply (bool_decide_unpack _); vm_compute; exact I).
  split; [exact H1|]. split; [exact H2|].
  exact (clearRows_filled_rows twoFullRowsBoard 0 H1 H2).
Defined.

(** On [twoFullRowsBoard] the scan returns rows 0 and 2; the clear takes the
    24 cells to 4 and leaves no filled row. *)
Example clearRows_two_full_rows :
  getFilledRows twoFullRowsBoard = [0; 2]
  ∧ cellCount twoFullRowsBoard = 24%nat
  ∧ cellCount (clearRows twoFullRowsBoard (getFilledRows twoFullRowsBoard) 0) = 4%nat
  ∧ getFilledRows (clearRows twoFullRowsBoard (getFilledRows twoFullRowsBoard) 0) = [].
Proof. repeat split; vm_compute; reflexivity. Qed.

(** Both hypotheses are used.  Values of [BoardState] that are no boards of
    the engine behave differently: on [zeroWidthBoard] the scan still
    returns row 0 after the clear; on [strayCellBoard] the clear of row 0
    also drops the cell stored right of the last column, so 11 cells become
    0 and not 11 - 10. *)
Lemma clearRows_filled_rows_degenerate :
  getFilledRows (clearRows zeroWidthBoard (getFilledRows zeroWidthBoard) 0) = [0]
  ∧ getFilledRows (clearRows zeroWidthBoard (getFilledRows zeroWidthBoard) 0) ≠ []
  ∧ cellCount strayCellBoard = 11%nat
  ∧ getFilledRows strayCellBoard = [0]
  ∧ cellCount (clearRows strayCellBoard (getFilledRows strayCellBoard) 0) = 0%nat
  ∧ Z.of_nat (cellCount (clearRows strayCellBoard (getFilledRows strayCellBoard) 0))
    ≠ Z.of_nat (cellCount strayCellBoard)
      - Z.of_nat (length (getFilledRows strayCellBoard)) * width (config strayCellBoard).
Proof. repeat split; try (vm_compute; reflexivity); vm_compute; discriminate. Qed.

(** ** What the steps of a tick leave alone *)

Lemma quiet_app evs1 evs2 : quiet evs1 -> quiet evs2 -> quiet (evs1 ++ evs2).
Proof. intros H1 H2. apply Forall_app. by split. Qed.

Lemma quiet_nil : quiet [].
Proof. constructor. Qed.

Lemma quiet_one e : isGameOverEvent e = false -> quiet [e].
Proof. intros He. by repeat constructor. Qed.

Lemma processRotation_frame d : frameStep (fun s => processRotation s d).
Proof.
  intros s. unfold processRotation.
  destruct (activePiece s) as [active|]; [|by repeat split; try apply quiet_nil].
  destruct (rotatePiece (board s) active d) as [[[piece wasKick] kick]|];
    [|by repeat split; try apply quiet_nil].
  repeat split. by apply quiet_one.
Qed.

Lemma processMove_frame dx dy cfg : frameStep (fun s => processMove s dx dy cfg).
Proof.
  intros s. unfold processMove.
  destruct (activePiece s) as [active|]; [|by repeat split; try apply quiet_nil].
  destruct (tryMove (board s) active dx dy) as [moved|];
    [|by repeat split; try apply quiet_nil].
  repeat split. by apply quiet_one.
Qed.

Lemma processGravity_frame deltaMs soft cfg :
  frameStep (fun s => processGravity s deltaMs soft cfg).
Proof.
  intros s. unfold processGravity.
  destruct (activePiece s) as [active|]; [|by repeat split; try apply quiet_nil].
  destruct (dropLoop _ _ _ _ _ _) as [[newPiece accumulator] cellsDropped].
  repeat split. destruct (soft && _); [by apply quiet_one|apply quiet_nil].
Qed.

Lemma levelUpLoop_quiet fuel cfg remaining lvl :
  quiet (levelUpLoop fuel cfg remaining lvl).2.
Proof.
  revert remaining lvl. induction fuel as [|fuel IH]; intros remaining lvl; simpl.
  - apply quiet_nil.
  - destruct (_ && _); [|apply quiet_nil].
    specialize (IH (remaining - linesPerLevel cfg) (lvl + 1)).
    destruct (levelUpLoop fuel cfg _ _) as [[r l] evs]. simpl in *.
    by constructor.
Qed.

(** A lock keeps the phase and the bag and emits no game-over event. *)
Lemma processLock_phase now s cfg :
  phase (processLock now s cfg).1 = phase s
  ∧ bag (processLock now s cfg).1 = bag s
  ∧ quiet (processLock now s cfg).2.
Proof.
  unfold processLock.
  destruct (activePiece s) as [piece|]; [|by repeat split; try apply quiet_nil].
  destruct (lockActivePiece now (board s) piece) as [newBoard locked].
  destruct (processLineClears now newBoard) as [clearedBoard clearedRows].
  case_bool_decide; [|by repeat split; try apply quiet_one].
  pose proof (levelUpLoop_quiet
                (Z.to_nat (maxLevel cfg - level (gs_score s))) cfg
                (linesAtLevel (gs_score s) + Z.of_nat (length clearedRows))
                (level (gs_score s))) as Hlevel.
  destruct (levelUpLoop _ _ _ _) as [[remaining newLevel] levelEvents].
  simpl in Hlevel. repeat split.
  repeat case_match; repeat (apply quiet_app); try done; by apply quiet_one.
Qed.

Lemma processHardDrop_phase now s cfg :
  phase (processHardDrop now s cfg).1 = phase s
  ∧ bag (processHardDrop now s cfg).1 = bag s
  ∧ quiet (processHardDrop now s cfg).2.
Proof.
  unfold processHardDrop.
  destruct (activePiece s) as [active|]; [|by repeat split; try apply quiet_nil].
  destruct (getDropPositions (board s) active) as [positions dropDistance].
  match goal with
  | |- context [processLock now ?s' cfg] =>
      pose proof (processLock_phase now s' cfg) as (Hph & Hbag & Hq);
      destruct (processLock now s' cfg) as [locked lockEvents]
  end.
  simpl in *. repeat split; try done.
  by constructor.
Qed.

(** ** Draws that return *)

Section Draws.

Variable rnd : nat -> Qc.

(** [getNextPiece] never throws: it returns the head of the current queue
    (or [undefined] when that queue is empty), and a ready bag stays ready. *)
Lemma getNextPiece_returns bg n :
  ∃ bg' n', getNextPiece rnd bg n = Some ((head (current bg), bg'), n')
            ∧ (next bg ≠ [] -> bagReady bg').
Proof.
  unfold getNextPiece, mbind, eff_bind.
  case_bool_decide as Hlen.
  - destruct (createBag_returns rnd n) as (fresh & -> & Hfresh).
    eexists _, _. split; [reflexivity|]. intros Hnext. split; simpl; [done|].
    intros ->. done.
  - eexists _, _. split; [reflexivity|]. intros Hnext. split; simpl; [|done].
    intros Hnil. by rewrite Hnil in Hlen.
Qed.

(** [spawnNextPiece] returns as soon as the current queue holds a piece. *)
Lemma spawnNextPiece_returns b bg cfg n t rest :
  current bg = t :: rest ->
  ∃ bg' n', spawnNextPiece rnd b bg cfg n = Some ((spawnPiece b t cfg, bg'), n')
            ∧ (next bg ≠ [] -> bagReady bg').
Proof.
  intros Hcur. unfold spawnNextPiece, mbind, eff_bind.
  destruct (getNextPiece_returns bg n) as (bg' & n' & -> & Hready).
  rewrite Hcur. simpl. by eexists _, _.
Qed.

(** What [spawnNextPiece] returns: the piece drawn is the head of the queue
    and the piece spawned is [spawnPiece] of it. *)
Lemma spawnNextPiece_inv b bg cfg n piece bg' n' :
  spawnNextPiece rnd b bg cfg n = Some ((piece, bg'), n') ->
  ∃ t, head (current bg) = Some t ∧ piece = spawnPiece b t cfg.
Proof.
  unfold spawnNextPiece, mbind, eff_bind.
  destruct (getNextPiece_returns bg n) as (bg1 & n1 & -> & _).
  destruct (head (current bg)) as [t|]; [|done].
  intros [= <- <- <-]. by exists t.
Qed.

(** A hold keeps the phase, the combo and the streak and emits no game-over
    event, whether its spawn succeeds or not. *)
Lemma processHold_frame s cfg n r n' :
  processHold rnd s cfg n = Some (r, n') ->
  coreOf r.1 = coreOf s ∧ quiet r.2.
Proof.
  unfold processHold.
  destruct (activePiece s) as [active|]; [|by intros [= <- <-]; split; [|apply quiet_nil]].
  destruct (negb _); [by intros [= <- <-]; split; [|apply quiet_nil]|].
  unfold mbind, eff_bind.
  destruct (hold_piece (hold s)) as [held|].
  - destruct (spawnNextPiece _ _ _ _ _) as [[[[np|] bg1] n1]|]; [| |done];
      intros [= <- <-]; (split; [done|]); [by apply quiet_one|apply quiet_nil].
  - destruct (spawnNextPiece _ _ _ _ _) as [[[[np|] bg1] n1]|]; [| |done];
      intros [= <- <-]; (split; [done|]); [|apply quiet_nil].
    by repeat constructor.
Qed.

(** On a ready bag a hold returns, with a ready bag. *)
Lemma processHold_returns s cfg n :
  bagReady (bag s) ->
  ∃ r n', processHold rnd s cfg n = Some (r, n') ∧ bagReady (bag r.1).
Proof.
  intros [Hcur Hnext]. unfold processHold.
  destruct (activePiece s) as [active|]; [|by eexists _, _].
  destruct (negb _); [by eexists _, _|].
  unfold mbind, eff_bind.
  destruct (hold_piece (hold s)) as [held|].
  - destruct (spawnNextPiece_returns (board s)
                (mkBag (held :: current (bag s)) (next (bag s)) (preview (bag s)))
                cfg n held (current (bag s)) eq_refl) as (bg' & n' & -> & _).
    destruct (spawnPiece _ _ _); by eexists _, _.
  - destruct (current (bag s)) as [|t rest] eqn:Hc; [done|].
    destruct (spawnNextPiece_returns (board s) (bag s) cfg n t rest Hc)
      as (bg' & n' & -> & Hready).
    destruct (spawnPiece _ _ _); eexists _, _; (split; [reflexivity|]); simpl.
    + by apply Hready.
    + split; [by rewrite Hc|done].
Qed.

End Draws.

(** ** Properties carried through the stages of a tick *)

Section Stages.

Variable now : Z.
Variable cfg : GameConfig.

(** A property of the phase, combo and streak that every lock preserves. *)
Variable P : GamePhase * ComboState * StreakState -> Prop.
Hypothesis lock_keeps : ∀ s, P (coreOf s) -> P (coreOf (processLock now s cfg).1).

Lemma andThen_frameStep r step :
  frameStep step -> carried P r -> carried P (andThen r step).
Proof.
  intros Hstep [HP Hq]. unfold andThen, carried.
  destruct (Hstep r.1) as (Hcore & _ & Hquiet).
  destruct (step r.1) as [s evs]. simpl in *. rewrite Hcore.
  split; [done|by apply quiet_app].
Qed.

Lemma andThen_processLock r :
  carried P r -> carried P (andThen r (fun s => processLock now s cfg)).
Proof.
  intros [HP Hq]. unfold andThen, carried.
  pose proof (lock_keeps r.1 HP) as Hlock.
  destruct (processLock_phase now r.1 cfg) as (_ & _ & Hquiet).
  destruct (processLock now r.1 cfg) as [s evs]. simpl in *.
  split; [done|by apply quiet_app].
Qed.

Lemma processHardDrop_core s :
  P (coreOf s) -> P (coreOf (processHardDrop now s cfg).1).
Proof.
  intros HP. unfold processHardDrop.
  destruct (activePiece s) as [active|]; [|done].
  destruct (getDropPositions (board s) active) as [positions dropDistance].
  match goal with
  | |- context [processLock now ?s' cfg] =>
      pose proof (lock_keeps s' HP) as Hlock;
      destruct (processLock now s' cfg) as [locked lockEvents]
  end.
  done.
Qed.

Lemma andThen_processHardDrop r :
  carried P r -> carried P (andThen r (fun s => processHardDrop now s cfg)).
Proof.
  intros [HP Hq]. unfold andThen, carried.
  pose proof (processHardDrop_core r.1 HP) as Hdrop.
  destruct (processHardDrop_phase now r.1 cfg) as (_ & _ & Hquiet).
  destruct (processHardDrop now r.1 cfg) as [s evs]. simpl in *.
  split; [done|by apply quiet_app].
Qed.

Lemma tickRotation_carried actions r :
  carried P r -> carried P (tickRotation actions r).
Proof.
  intros Hr. unfold tickRotation.
  repeat case_match; try done;
    (apply andThen_frameStep; [apply processRotation_frame|done]).
Qed.

Lemma tickMove_carried actions r : carried P r -> carried P (tickMove actions cfg r).
Proof.
  intros Hr. unfold tickMove.
  repeat case_match; try done;
    (apply andThen_frameStep; [apply processMove_frame|done]).
Qed.

Lemma tickDrop_carried deltaMs actions r :
  carried P r -> carried P (tickDrop now deltaMs actions cfg r).
Proof.
  intros Hr. unfold tickDrop. repeat case_match; try done.
  - by apply andThen_processHardDrop.
  - apply andThen_frameStep; [apply processGravity_frame|done].
Qed.

Lemma tickLockDelay_carried deltaMs r :
  carried P r -> carried P (tickLockDelay now deltaMs cfg r).
Proof.
  intros Hr. unfold tickLockDelay.
  destruct (activePiece r.1) as [piece|]; [|done].
  destruct (isOnGround _ _); [|done].
  destruct (isLockDelayExpired _); [|done].
  by apply andThen_processLock.
Qed.

(** The stages before the spawn check carry [P] from the state the clock
    stage leaves to the state the spawn check sees, and emit no game-over
    event. *)
Lemma updateUntilSpawn_carried rnd s deltaMs actions n r n' :
  P (coreOf (tickClock s deltaMs)) ->
  updateUntilSpawn rnd now s deltaMs actions cfg n = Some (r, n') ->
  carried P r.
Proof.
  intros HP. unfold updateUntilSpawn, mbind, eff_bind.
  destruct (tickHold rnd (tickClock s deltaMs) actions cfg n) as [[r0 n0]|] eqn:Hhold;
    [|done].
  intros [= <- <-].
  apply tickLockDelay_carried, tickDrop_carried, tickMove_carried, tickRotation_carried.
  unfold tickHold in Hhold. destruct (_ && _).
  - apply processHold_frame in Hhold as [Hcore Hq]. split; [by rewrite Hcore|done].
  - injection Hhold as <- <-. split; [done|apply quiet_nil].
Qed.

End Stages.

(** ** Rational arithmetic used by the heat bounds *)

Local Open Scope Qc_scope.

Lemma Qcmult_nonneg (a c : Qc) : 0 ≤ a -> 0 ≤ c -> 0 ≤ a * c.
Proof.
  intros Ha Hc. rewrite <- (Qcmult_0_l c). by apply Qcmult_le_compat_r.
Qed.

Lemma Qc_of_Z_nonneg (n : Z) : (0 <= n)%Z -> 0 ≤ Qc_of_Z n.
Proof. intros Hn. apply Z2Qc_inj_le in Hn. by rewrite Z2Qc_inj_0 in Hn. Qed.

Lemma Qcminus_le (h d : Qc) : 0 ≤ d -> h - d ≤ h.
Proof.
  intros Hd. unfold Qcminus. rewrite <- (Qcplus_0_r h) at 2.
  apply Qcplus_le_mono_l. by apply Qcopp_le_compat in Hd.
Qed.

Lemma Qcmax_lower (a c : Qc) : a ≤ Qcmax a c.
Proof. unfold Qcmax. case_decide; [done|apply Qcle_refl]. Qed.

Lemma Qcmax_upper (a c u : Qc) : a ≤ u -> c ≤ u -> Qcmax a c ≤ u.
Proof. intros Ha Hc. unfold Qcmax. by case_decide. Qed.

Lemma Qcmin_upper (a c : Qc) : Qcmin a c ≤ a.
Proof.
  unfold Qcmin. case_decide as H; [apply Qcle_refl|].
  apply Qclt_le_weak. by apply Qcnot_le_lt.
Qed.

Lemma Qcmin_lower (a c l : Qc) : l ≤ a -> l ≤ c -> l ≤ Qcmin a c.
Proof. intros Ha Hc. unfold Qcmin. by case_decide. Qed.

Local Close Scope Qc_scope.

(** ** The update returns on a ready bag *)

Section Returns.

Variable rnd : nat -> Qc.
Variable now : Z.
Variable cfg : GameConfig.

Lemma andThen_bag r step :
  (∀ s, bag (step s).1 = bag s) -> bag (andThen r step).1 = bag r.1.
Proof.
  intros Hstep. unfold andThen. specialize (Hstep r.1).
  by destruct (step r.1) as [s evs].
Qed.

Lemma tickClock_bag s deltaMs : bag (tickClock s deltaMs) = bag s.
Proof. unfold tickClock. by case_bool_decide. Qed.

Lemma tickRotation_bag actions r : bag (tickRotation actions r).1 = bag r.1.
Proof.
  unfold tickRotation. repeat case_match; try done;
    apply andThen_bag; intros s; apply processRotation_frame.
Qed.

Lemma tickMove_bag actions r : bag (tickMove actions cfg r).1 = bag r.1.
Proof.
  unfold tickMove. repeat case_match; try done;
    apply andThen_bag; intros s; apply processMove_frame.
Qed.

Lemma tickDrop_bag deltaMs actions r :
  bag (tickDrop now deltaMs actions cfg r).1 = bag r.1.
Proof.
  unfold tickDrop. repeat case_match; try done; apply andThen_bag; intros s.
  - apply processHardDrop_phase.
  - apply processGravity_frame.
Qed.

Lemma tickLockDelay_bag deltaMs r :
  bag (tickLockDelay now deltaMs cfg r).1 = bag r.1.
Proof.
  unfold tickLockDelay. repeat case_match; try done.
  rewrite andThen_bag; [done|]. intros s. apply processLock_phase.
Qed.

Lemma updateUntilSpawn_returns s deltaMs actions n :
  bagReady (bag s) ->
  ∃ r n', updateUntilSpawn rnd now s deltaMs actions cfg n = Some (r, n')
          ∧ bagReady (bag r.1).
Proof.
  intros Hready. unfold updateUntilSpawn, mbind, eff_bind.
  assert (∃ r0 n0, tickHold rnd (tickClock s deltaMs) actions cfg n = Some (r0, n0)
                   ∧ bagReady (bag r0.1)) as (r0 & n0 & -> & Hr0).
  { unfold tickHold. destruct (_ && _).
    - apply processHold_returns. by rewrite tickClock_bag.
    - eexists _, _. split; [reflexivity|]. simpl. by rewrite tickClock_bag. }
  eexists _, _. split; [reflexivity|]. simpl.
  by rewrite tickLockDelay_bag, tickDrop_bag, tickMove_bag, tickRotation_bag.
Qed.

(** On a state whose bag is ready, [updateGame] returns. *)
Lemma updateGame_returns s deltaMs actions n :
  bagReady (bag s) -> is_Some (updateGame rnd now s deltaMs actions cfg n).
Proof.
  intros Hready. unfold updateGame. case_bool_decide; [by eexists|].
  unfold mbind, eff_bind.
  destruct (updateUntilSpawn_returns s deltaMs actions n Hready)
    as (r & n1 & -> & [Hcur Hnext]).
  destruct (_ && _); [|by eexists].
  unfold processSpawn, mbind, eff_bind.
  destruct (current (bag r.1)) as [|t rest] eqn:Hc; [done|].
  destruct (spawnNextPiece_returns rnd (board r.1) (bag r.1) cfg n1 t rest Hc)
    as (bg' & n2 & -> & _).
  destruct (spawnPiece _ _ _); by eexists.
Qed.

End Returns.

(** ** The only way to game over (C7) *)

Lemma isValidPiecePosition_canPlace b piece :
  isValidPiecePosition b piece
  = canPlacePiece b (ptype piece) (position piece) (rotation piece).
Proof.
  unfold isValidPiecePosition, canPlacePiece, getPieceBlocks.
  induction (TETROMINO_SHAPES (ptype piece) (rotation piece)) as [|o os IH]; [done|].
  simpl. by rewrite IH.
Qed.

(** [spawnPiece] returns [null] exactly when the spawn placement is invalid. *)
Lemma spawnPiece_None b t cfg :
  spawnPiece b t cfg = None <-> canPlacePiece b t (spawnPosition b) R0 = false.
Proof.
  unfold spawnPiece. rewrite isValidPiecePosition_canPlace. simpl.
  fold (spawnPosition b). by destruct (canPlacePiece b t (spawnPosition b) R0).
Qed.

Lemma dangerEvents_quiet b : quiet (dangerEvents b).
Proof. unfold dangerEvents. case_bool_decide; [by apply quiet_one|apply quiet_nil]. Qed.

Lemma quiet_not_Exists evs :
  quiet evs -> ¬ Exists (fun e => isGameOverEvent e = true) evs.
Proof.
  intros Hq Hex. apply Exists_exists in Hex as (e & Hin & He).
  unfold quiet in Hq. rewrite Forall_forall in Hq. apply Hq in Hin. congruence.
Qed.

(** In the playing phase, the update ends in phase [gameOver], and emits a
    game-over event, exactly when the spawn of a replacement fails. *)
Lemma updateGame_playing_game_over rnd now s deltaMs actions cfg n s' evs n' :
  phase s = playing ->
  updateGame rnd now s deltaMs actions cfg n = Some ((s', evs), n') ->
  (phase s' = gameOver <-> spawnFails rnd now s deltaMs actions cfg n)
  ∧ (Exists (fun e => isGameOverEvent e = true) evs
     <-> spawnFails rnd now s deltaMs actions cfg n).
Proof.
  intros Hplaying. unfold updateGame, spawnFails.
  rewrite bool_decide_eq_false_2 by (by intros ?).
  unfold mbind, eff_bind.
  destruct (updateUntilSpawn rnd now s deltaMs actions cfg n) as [[[mid evs0] n1]|] eqn:Hmid;
    [|done].
  destruct (updateUntilSpawn_carried now cfg (fun c => c.1.1 = playing)
              ltac:(intros s1; simpl; by rewrite (proj1 (processLock_phase now s1 cfg)))
              rnd s deltaMs actions n (mid, evs0) n1) as [Hphase Hquiet]; [|done|].
  { simpl. unfold tickClock. by case_bool_decide. }
  simpl in Hphase, Hquiet. simpl.
  destruct (activePiece mid) as [active|] eqn:Hactive.
  - (* a piece is active: no spawn is attempted *)
    rewrite bool_decide_eq_true_2 by (by eexists). simpl.
    intros [= <- <- <-]. simpl. split; split.
    + rewrite Hphase. done.
    + intros (_ & mid' & evs' & n1' & t & [= <- <- <-] & Hnone & _). congruence.
    + intros Hex. exfalso. revert Hex. apply quiet_not_Exists.
      apply quiet_app; [done|apply dangerEvents_quiet].
    + intros (_ & mid' & evs' & n1' & t & [= <- <- <-] & Hnone & _). congruence.
  - rewrite bool_decide_eq_false_2 by (by intros [? ?]).
    rewrite bool_decide_eq_true_2 by done. simpl.
    unfold processSpawn, mbind, eff_bind.
    destruct (spawnNextPiece rnd (board mid) (bag mid) cfg n1)
      as [[[piece bg] n2]|] eqn:Hspawn; [|done].
    apply spawnNextPiece_inv in Hspawn as (t & Hhead & Hpiece).
    destruct piece as [p|].
    + (* the spawn succeeds *)
      intros [= <- <- <-]. simpl.
      assert (Hno : ¬ (phase s = playing ∧ ∃ mid' evs' n1' t',
                 Some (mid, evs0, n1) = Some (mid', evs', n1')
                 ∧ activePiece mid' = None
                 ∧ head (current (bag mid')) = Some t'
                 ∧ canPlacePiece (board mid') t' (spawnPosition (board mid')) R0 = false)).
      { intros (_ & mid' & evs' & n1' & t' & [= <- <- <-] & _ & Hhead' & Hplace).
        rewrite Hhead in Hhead'. injection Hhead' as <-.
        apply (spawnPiece_None _ _ cfg) in Hplace. congruence. }
      split; split; try (intros; by destruct Hno).
      * rewrite Hphase. done.
      * intros Hex. exfalso. revert Hex. apply quiet_not_Exists.
        repeat apply quiet_app; try done; [by apply quiet_one|apply dangerEvents_quiet].
    + (* the spawn fails *)
      intros [= <- <- <-]. simpl.
      assert (Hyes : phase s = playing ∧ ∃ mid' evs' n1' t',
                 Some (mid, evs0, n1) = Some (mid', evs', n1')
                 ∧ activePiece mid' = None
                 ∧ head (current (bag mid')) = Some t'
                 ∧ canPlacePiece (board mid') t' (spawnPosition (board mid')) R0 = false).
      { split; [done|]. exists mid, evs0, n1, t. repeat split; try done.
        by apply (spawnPiece_None _ _ cfg). }
      split; split; try done. intros _.
      apply Exists_app. left. apply Exists_app. right. by constructor.
Qed.

(** C7. One [updateGame] takes the phase to [gameOver], and emits a
    game-over event, if and only if the spawn of a replacement piece fails
    (the update runs, no piece is active when the spawn check is reached, and
    the spawn position is invalid for the next piece of the bag); nothing
    else in the tick does either.  The update returns whenever both queues
    of the bag hold a piece. *)
Theorem updateGame_game_over_iff rnd now s deltaMs actions cfg n :
  (bagReady (bag s) -> is_Some (updateGame rnd now s deltaMs actions cfg n))
  ∧ ∀ s' evs n',
      updateGame rnd now s deltaMs actions cfg n = Some ((s', evs), n') ->
      (phase s ≠ gameOver ∧ phase s' = gameOver
       <-> spawnFails rnd now s deltaMs actions cfg n)
      ∧ (Exists (fun e => isGameOverEvent e = true) evs
         <-> spawnFails rnd now s deltaMs actions cfg n).
Proof.
  split; [apply updateGame_returns|]. intros s' evs n' Hupdate.
  destruct (decide (phase s = playing)) as [Hplaying|Hother].
  - destruct (updateGame_playing_game_over _ _ _ _ _ _ _ _ _ _ Hplaying Hupdate)
      as [Hphase Hevent].
    split; [|done]. rewrite <- Hphase. rewrite Hplaying. split; [by intros [_ ?]|done].
  - unfold updateGame in Hupdate. rewrite bool_decide_eq_true_2 in Hupdate by done.
    injection Hupdate as <- <- <-.
    split; split.
    + intros [? ?]. done.
    + intros [? _]. done.
    + intros Hex. by apply Exists_nil in Hex.
    + intros [? _]. done.
Qed.

Lemma updateGame_game_over_iff_witness :
  bagReady (bag blockedSpawn)
  ∧ is_Some (updateGame constRnd 0 blockedSpawn (qc 50 3) noActions
                        DEFAULT_GAME_CONFIG 0%nat)
  ∧ ∀ s' evs n',
      updateGame constRnd 0 blockedSpawn (qc 50 3) noActions DEFAULT_GAME_CONFIG 0%nat
      = Some ((s', evs), n') ->
      (phase blockedSpawn ≠ gameOver ∧ phase s' = gameOver
       <-> spawnFails constRnd 0 blockedSpawn (qc 50 3) noActions DEFAULT_GAME_CONFIG 0%nat)
      ∧ (Exists (fun e => isGameOverEvent e = true) evs
         <-> spawnFails constRnd 0 blockedSpawn (qc 50 3) noActions DEFAULT_GAME_CONFIG
                        0%nat).
Proof.
  assert (H : bagReady (bag blockedSpawn)) by (split; discriminate).
  split; [exact H|].
  split.
  - exact (proj1 (updateGame_game_over_iff constRnd 0 blockedSpawn (qc 50 3) noActions
                                           DEFAULT_GAME_CONFIG 0%nat) H).
  - exact (proj2 (updateGame_game_over_iff constRnd 0 blockedSpawn (qc 50 3) noActions
                                           DEFAULT_GAME_CONFIG 0%nat)).
Defined.

(** On [blockedSpawn] the update does end the game: it emits the game-over
    event, followed by the danger-zone event of the tick. *)
Example updateGame_block_out :
  match updateGame constRnd 0 blockedSpawn (qc 50 3) noActions DEFAULT_GAME_CONFIG 0%nat with
  | Some ((s', evs), _) =>
      phase s' = gameOver ∧ map isGameOverEvent evs = [true; false]
  | None => False
  end.
Proof. vm_compute. done. Qed.

(** ** Heat stays in [0, 1] (C8) *)

Local Open Scope Qc_scope.

Lemma decayHeat_range (h deltaMs : Qc) :
  0 ≤ h ≤ 1 -> 0 ≤ deltaMs -> 0 ≤ decayHeat h deltaMs DEFAULT_HEAT_CONFIG ≤ 1.
Proof.
  intros [Hlo Hhi] Hdt. unfold decayHeat. split.
  - apply Qcmax_lower.
  - apply Qcmax_upper; [done|].
    apply Qcle_trans with h; [|done]. apply Qcminus_le.
    apply Qcmult_nonneg; [done|]. unfold Qcdiv. by apply Qcmult_nonneg.
Qed.

Lemma calculateHeatContribution_nonneg clearType cmb isBackToBack :
  (0 <= cmb)%Z ->
  0 ≤ calculateHeatContribution clearType cmb isBackToBack DEFAULT_HEAT_CONFIG.
Proof.
  intros Hcmb. unfold calculateHeatContribution.
  assert (Hbase : 0 ≤ clearHeat DEFAULT_HEAT_CONFIG clearType) by (by destruct clearType).
  assert (Hheat : 0 ≤ clearHeat DEFAULT_HEAT_CONFIG clearType
                      + clearHeat DEFAULT_HEAT_CONFIG clearType
                        * comboMultiplier DEFAULT_HEAT_CONFIG * Qc_of_Z cmb).
  { apply Qcplus_nonneg_nonneg; [done|].
    repeat apply Qcmult_nonneg; try done. by apply Qc_of_Z_nonneg. }
  apply Qcmin_lower; [|done].
  destruct isBackToBack; [|done]. by apply Qcmult_nonneg.
Qed.

(** A lock keeps the heat in range and the combo count non-negative. *)
Lemma processLock_heat now s cfg :
  heatInRange (streak s) ∧ (0 <= comboCount (combo s))%Z ->
  heatInRange (streak (processLock now s cfg).1)
  ∧ (0 <= comboCount (combo (processLock now s cfg).1))%Z.
Proof.
  intros [[Hlo Hhi] Hcombo]. unfold processLock.
  destruct (activePiece s) as [piece|]; [|done].
  destruct (lockActivePiece now (board s) piece) as [newBoard locked].
  destruct (processLineClears now newBoard) as [clearedBoard clearedRows].
  case_bool_decide; [|simpl; split; [done|lia]].
  destruct (levelUpLoop _ _ _ _) as [[remaining newLevel] levelEvents].
  simpl. split; [|lia]. split.
  - apply Qcmin_lower; [done|]. apply Qcplus_nonneg_nonneg; [done|].
    apply calculateHeatContribution_nonneg. lia.
  - apply Qcmin_upper.
Qed.

Lemma tickClock_heat s deltaMs :
  0 ≤ deltaMs -> heatInRange (streak s) -> heatInRange (streak (tickClock s deltaMs)).
Proof.
  intros Hdt Hheat. unfold tickClock. case_bool_decide; [|done].
  by apply decayHeat_range.
Qed.

Lemma tickClock_combo s deltaMs : combo (tickClock s deltaMs) = combo s.
Proof. unfold tickClock. by case_bool_decide. Qed.

(** C8. From a state of the engine (a heat in [0, 1], a combo count that is
    not negative), one [updateGame] with an elapsed time [>= 0] and any
    actions returns a state whose heat lies in [0, 1]; the update returns
    whenever both queues of the bag hold a piece. *)
Theorem updateGame_heat_in_range rnd now s deltaMs actions cfg n :
  0 ≤ heatLevel (streak s) ≤ 1 ->
  0 ≤ deltaMs ->
  (0 <= comboCount (combo s))%Z ->
  (bagReady (bag s) -> is_Some (updateGame rnd now s deltaMs actions cfg n))
  ∧ ∀ s' evs n',
      updateGame rnd now s deltaMs actions cfg n = Some ((s', evs), n') ->
      0 ≤ heatLevel (streak s') ≤ 1.
Proof.
  intros Hheat Hdt Hcombo. split; [apply updateGame_returns|].
  intros s' evs n'. unfold updateGame.
  case_bool_decide; [by intros [= <- <- <-]|].
  unfold mbind, eff_bind.
  destruct (updateUntilSpawn rnd now s deltaMs actions cfg n) as [[[mid evs0] n1]|] eqn:Hmid;
    [|done].
  destruct (updateUntilSpawn_carried now cfg
              (fun c => heatInRange c.2 ∧ (0 <= comboCount c.1.2)%Z)
              (fun s1 => processLock_heat now s1 cfg)
              rnd s deltaMs actions n (mid, evs0) n1) as [[Hmidheat _] _]; [|done|].
  { simpl. split; [by apply tickClock_heat|by rewrite tickClock_combo]. }
  simpl in Hmidheat. simpl.
  destruct (_ && _); [|by intros [= <- <- <-]].
  unfold processSpawn, mbind, eff_bind.
  destruct (spawnNextPiece rnd (board mid) (bag mid) cfg n1) as [[[[p|] bg] n2]|];
    [| |done]; by intros [= <- <- <-].
Qed.

Local Close Scope Qc_scope.

Lemma updateGame_heat_in_range_witness :
  (0 ≤ heatLevel (streak hotTetrisState) ≤ 1)%Qc
  ∧ (0 ≤ qc 50 3)%Qc
  ∧ 0 <= comboCount (combo hotTetrisState)
  ∧ (bagReady (bag hotTetrisState)
     -> is_Some (updateGame constRnd 0 hotTetrisState (qc 50 3) hardDropOnly
                            DEFAULT_GAME_CONFIG 0%nat))
  ∧ ∀ s' evs n',
      updateGame constRnd 0 hotTetrisState (qc 50 3) hardDropOnly DEFAULT_GAME_CONFIG
                 0%nat = Some ((s', evs), n') ->
      (0 ≤ heatLevel (streak s') ≤ 1)%Qc.
Proof.
  assert (H1 : (0 ≤ heatLevel (streak hotTetrisState) ≤ 1)%Qc) by (split; done).
  assert (H2 : (0 ≤ qc 50 3)%Qc) by done.
  assert (H3 : 0 <= comboCount (combo hotTetrisState)) by (simpl; lia).
  split; [exact H1|]. split; [exact H2|]. split; [exact H3|].
  exact (updateGame_heat_in_range constRnd 0 hotTetrisState (qc 50 3) hardDropOnly
                                  DEFAULT_GAME_CONFIG 0%nat H1 H2 H3).
Defined.

(** On [hotTetrisState] the hard drop locks the I piece, the back-to-back
    tetris would add 0.72 to the decayed heat, and the heat is clamped to 1. *)
Example updateGame_heat_clamped :
  match updateGame constRnd 0 hotTetrisState (qc 50 3) hardDropOnly DEFAULT_GAME_CONFIG
                   0%nat with
  | Some ((s', evs), _) =>
      this (heatLevel (streak s')) = 1%Q
      ∧ clearSummary evs = [(Tetris, [0; 1; 2; 3], 1500)]
  | None => False
  end.
Proof. vm_compute. done. Qed.

(** The hypotheses on the elapsed time and on the combo count are used.
    The host never passes these values, but on them the model shows what
    the two one-sided clamps do: with an elapsed time of -1000 ms the decay
    raises the heat from 1 to 27/25; and from a combo count of -100 the heat
    contribution of a single clear is negative and takes the heat from 0 to
    -79/250. *)
Lemma updateGame_heat_out_of_range :
  (0 ≤ heatLevel (streak fullHeatState) ≤ 1)%Qc
  ∧ heatOf (updateGame constRnd 0 fullHeatState (Qc_of_Z (-1000)) noActions
                       DEFAULT_GAME_CONFIG 0%nat) = Some (27 # 25)%Q
  ∧ ¬ (27 # 25 <= 1)%Q
  ∧ (0 ≤ heatLevel (streak negativeComboState) ≤ 1)%Qc
  ∧ heatOf (updateGame constRnd 0 negativeComboState (qc 50 3) hardDropOnly
                       DEFAULT_GAME_CONFIG 0%nat) = Some (-79 # 250)%Q
  ∧ ¬ (0 <= -79 # 250)%Q.
Proof.
  repeat split; try done; try (vm_compute; reflexivity);
    intros H; vm_compute in H; by apply H.
Qed.

(** ** Locking a piece *)

Lemma lockPiece_config b positions t now :
  config (lockPiece b positions t now) = config b.
Proof.
  unfold lockPiece. revert b. induction positions as [|p ps IH]; intros b; [done|].
  simpl. by rewrite IH.
Qed.

Lemma lockPiece_lookup b positions t now x y :
  cells (lockPiece b positions t now) !! (x, y)
  = if decide (mkPos x y ∈ positions) then Some (mkCell t (Some now) None)
    else cells b !! (x, y).
Proof.
  unfold lockPiece. revert b. induction positions as [|p ps IH]; intros b.
  - case_decide as Hin; [by apply elem_of_nil in Hin|done].
  - change (foldl ?f b (p :: ps)) with (foldl f (f b p) ps).
    rewrite IH. destruct (decide (mkPos x y ∈ ps)) as [Hin|Hnin].
    + rewrite decide_True; [done|]. by right.
    + unfold setCell, cellKey. simpl.
      destruct (decide (p = mkPos x y)) as [->|Hne].
      * rewrite decide_True by (by left). simpl. apply lookup_insert_eq.
      * rewrite decide_False.
        -- apply lookup_insert_ne. intros [= <- <-]. apply Hne. by destruct p.
        -- intros Hin. apply elem_of_cons in Hin as [?|?]; [by apply Hne|done].
Qed.

Lemma shape_NoDup t r : NoDup (TETROMINO_SHAPES t r).
Proof. destruct t, r; apply (bool_decide_unpack _); vm_compute; exact I. Qed.

Lemma shape_length t r : length (TETROMINO_SHAPES t r) = 4%nat.
Proof. by destruct t, r. Qed.

Lemma getPieceBlocks_NoDup piece : NoDup (getPieceBlocks piece).
Proof.
  unfold getPieceBlocks. apply NoDup_fmap_2; [|apply shape_NoDup].
  intros [x1 y1] [x2 y2] [=]. f_equal; lia.
Qed.

Lemma isValidPiecePosition_blocks b piece :
  isValidPiecePosition b piece = true
  <-> ∀ block, block ∈ getPieceBlocks piece ->
        isValidPosition b (pos_x block) (pos_y block) = true
        ∧ cells b !! (pos_x block, pos_y block) = None.
Proof.
  unfold isValidPiecePosition. rewrite forallb_forall. split.
  - intros Hall block Hin. apply list_elem_of_In, Hall in Hin.
    apply andb_true_iff in Hin as [Hv Hocc]. split; [done|].
    unfold isCellOccupied, cellKey in Hocc. apply negb_true_iff, bool_decide_eq_false in Hocc.
    by apply eq_None_not_Some.
  - intros Hall block Hin. apply list_elem_of_In, Hall in Hin as [Hv Hnone].
    apply andb_true_iff. split; [done|].
    unfold isCellOccupied, cellKey. apply negb_true_iff, bool_decide_eq_false.
    by apply eq_None_not_Some.
Qed.

Lemma lockPiece_size b positions t now :
  NoDup positions ->
  (∀ p, p ∈ positions -> cells b !! (pos_x p, pos_y p) = None) ->
  cellCount (lockPiece b positions t now) = (cellCount b + length positions)%nat.
Proof.
  unfold lockPiece, cellCount. revert b.
  induction positions as [|p ps IH]; intros b Hnd Hfree; [simpl; lia|].
  apply NoDup_cons in Hnd as [Hp Hnd]. simpl. rewrite IH; [|done|].
  - unfold setCell, cellKey. simpl. rewrite map_size_insert_None; [lia|].
    apply Hfree. by left.
  - intros q Hq. unfold setCell, cellKey. simpl. rewrite lookup_insert_ne.
    + apply Hfree. by right.
    + intros [=]. apply Hp. replace p with q; [done|]. destruct p, q; simpl in *; congruence.
Qed.

(** X1. Locking a legally placed piece adds exactly four cells to the board:
    the four blocks of the piece, each a cell of the piece type. *)
Theorem lockActivePiece_four_cells now b piece :
  isValidPiecePosition b piece = true ->
  cellCount (lockActivePiece now b piece).1 = (cellCount b + 4)%nat
  ∧ (lockActivePiece now b piece).2 = getPieceBlocks piece
  ∧ ∀ block, block ∈ getPieceBlocks piece ->
      getCell (lockActivePiece now b piece).1 (pos_x block) (pos_y block)
      = Some (mkCell (ptype piece) (Some now) None).
Proof.
  intros Hvalid. rewrite isValidPiecePosition_blocks in Hvalid.
  unfold lockActivePiece. simpl. split; [|split; [done|]].
  - rewrite lockPiece_size.
    + unfold getPieceBlocks. by rewrite length_fmap, shape_length.
    + apply getPieceBlocks_NoDup.
    + intros p Hp. by apply Hvalid.
  - intros block Hin. unfold getCell, cellKey. rewrite lockPiece_lookup.
    rewrite decide_True; [done|]. by destruct block.
Qed.

Lemma lockActivePiece_four_cells_witness :
  isValidPiecePosition (boardOf []) restingO = true
  ∧ cellCount (lockActivePiece 0 (boardOf []) restingO).1
    = (cellCount (boardOf []) + 4)%nat
  ∧ (lockActivePiece 0 (boardOf []) restingO).2 = getPieceBlocks restingO
  ∧ ∀ block, block ∈ getPieceBlocks restingO ->
      getCell (lockActivePiece 0 (boardOf []) restingO).1 (pos_x block) (pos_y block)
      = Some (mkCell (ptype restingO) (Some 0) None).
Proof.
  assert (H : isValidPiecePosition (boardOf []) restingO = true)
    by (vm_compute; reflexivity).
  split; [exact H|]. exact (lockActivePiece_four_cells 0 (boardOf []) restingO H).
Defined.

(** ** The filled-row scan *)

Lemma StronglySorted_filter {A} (R : A -> A -> Prop) (P : A -> Prop)
    `{!∀ a, Decision (P a)} (l : list A) :
  StronglySorted R l -> StronglySorted R (filter P l).
Proof.
  induction 1 as [|a l Hs IH Hall]; [constructor|].
  rewrite filter_cons. destruct (decide (P a)); [|done].
  constructor; [done|]. apply Forall_forall. intros y Hy.
  apply list_elem_of_filter in Hy as [_ Hy]. rewrite Forall_forall in Hall. by apply Hall.
Qed.

Lemma filter_seqZ_sorted (P : Z -> Prop) `{!∀ y, Decision (P y)} m n :
  StronglySorted Z.lt (filter P (seqZ m n)).
Proof.
  apply StronglySorted_filter.
  destruct (decide (0 <= n)) as [Hn|Hn].
  - rewrite <- (Z2Nat.id n Hn). generalize (Z.to_nat n) as k. clear. intros k. revert m.
    induction k as [|k IH]; intros m.
    + rewrite seqZ_nil by lia. constructor.
    + rewrite seqZ_cons by lia. constructor.
      * replace (Z.pred (Z.of_nat (S k))) with (Z.of_nat k) by lia. apply IH.
      * apply Forall_forall. intros y Hy. apply elem_of_seqZ in Hy. lia.
  - rewrite seqZ_nil by lia. constructor.
Qed.

(** X2. The filled-row scan returns the filled rows in increasing order: a
    row is listed exactly when it lies on the board and every column of it
    is occupied. *)
Theorem getFilledRows_spec b :
  StronglySorted Z.lt (getFilledRows b)
  ∧ ∀ y, y ∈ getFilledRows b
         <-> 0 <= y < totalHeight b
             ∧ ∀ x, 0 <= x < width (config b) -> isCellOccupied b x y = true.
Proof.
  split; [apply filter_seqZ_sorted|].
  intros y. rewrite elem_of_getFilledRows, elem_of_seqZ.
  unfold rowFilled. rewrite forallb_forall. split.
  - intros [Hall Hy]. split; [lia|]. intros x Hx. apply Hall, list_elem_of_In, elem_of_seqZ. lia.
  - intros [Hy Hall]. split; [|lia]. intros x Hx. apply Hall.
    apply list_elem_of_In, elem_of_seqZ in Hx. lia.
Qed.

(** ** Clearing any rows *)

Section ClearAnyRows.

Variable b : BoardState.
Variable rows : list Z.
Variable now : Z.
Hypothesis rows_given : rows ≠ [].

Lemma clearRows_any_cells :
  cells (clearRows b rows now)
  = clearColumns b (merge_sort descending rows) (seqZ 0 (totalHeight b))
                 (seqZ 0 (width (config b))) ∅
  ∧ config (clearRows b rows now) = config b.
Proof.
  unfold clearRows. rewrite bool_decide_eq_false_2; [done|].
  intros Hlen. by apply length_zero_iff_nil in Hlen.
Qed.

Lemma clearRows_any_lookup x w :
  cells (clearRows b rows now) !! (x, w)
  = if decide (x ∈ seqZ 0 (width (config b)) ∧ 0 <= w)
    then keptRows (merge_sort descending rows) (seqZ 0 (totalHeight b)) !! Z.to_nat w
         ≫= (fun r => cells b !! (x, r))
    else None.
Proof.
  destruct clearRows_any_cells as [-> _].
  rewrite clearColumns_lookup; [|apply NoDup_seqZ|done].
  case_decide; [|done]. unfold copied. by rewrite Z.sub_0_r.
Qed.

Lemma keptRows_sorted_rows ys :
  keptRows (merge_sort descending rows) ys = keptRows rows ys.
Proof.
  unfold keptRows. apply filter_ext_elem. intros y _.
  by rewrite merge_sort_Permutation.
Qed.

End ClearAnyRows.

Lemma length_keptRows rows ys : (length (keptRows rows ys) <= length ys)%nat.
Proof. unfold keptRows. apply length_filter. Qed.

Lemma clearRows_in_bounds_any b rows now :
  rows ≠ [] ->
  cellsInBounds (clearRows b rows now)
  ∧ config (clearRows b rows now) = config b
  ∧ pendingClearRows (clearRows b rows now) = [].
Proof.
  intros Hne. destruct (clearRows_any_cells b rows now Hne) as [Hcells Hcfg].
  split; [|split; [done|]].
  - intros [x w] c Hc. rewrite (clearRows_any_lookup b rows now Hne) in Hc.
    case_decide as Hin; [|done]. destruct Hin as [Hx Hw].
    apply elem_of_seqZ in Hx. simpl.
    apply isValidPosition_true. rewrite Hcfg. split; [lia|]. split; [done|].
    destruct (keptRows _ _ !! Z.to_nat w) as [r|] eqn:Hr; [|done].
    apply lookup_lt_Some in Hr.
    pose proof (length_keptRows (merge_sort descending rows) (seqZ 0 (totalHeight b))) as Hlen.
    rewrite length_seqZ in Hlen. unfold totalHeight in *. rewrite Hcfg. lia.
  - unfold clearRows. rewrite bool_decide_eq_false_2; [done|].
    intros Hlen. by apply length_zero_iff_nil in Hlen.
Qed.

(** X3. Whatever the board held, the board [clearRows] returns for a
    non-empty list of rows has every cell within the bounds: the columns
    outside the width and the rows outside the height are not copied.  The
    configuration is kept and no row is left pending. *)
Theorem clearRows_in_bounds b rows now :
  rows ≠ [] ->
  cellsInBounds (clearRows b rows now)
  ∧ config (clearRows b rows now) = config b
  ∧ pendingClearRows (clearRows b rows now) = [].
Proof. apply clearRows_in_bounds_any. Qed.

Lemma clearRows_in_bounds_witness :
  [0] ≠ []
  ∧ cellsInBounds (clearRows strayCellBoard [0] 0)
  ∧ config (clearRows strayCellBoard [0] 0) = config strayCellBoard
  ∧ pendingClearRows (clearRows strayCellBoard [0] 0) = [].
Proof.
  assert (H : [0] ≠ @nil Z) by discriminate.
  split; [exact H|]. exact (clearRows_in_bounds strayCellBoard [0] 0 H).
Defined.

Lemma seqZ_split (m n k : Z) :
  0 <= k <= n -> seqZ m n = seqZ m k ++ seqZ (m + k) (n - k).
Proof.
  intros Hk. replace n with (k + (n - k)) at 1 by lia. apply seqZ_app; lia.
Qed.

Lemma length_filter_complement {A} (P : A -> Prop) `{!∀ a, Decision (P a)} (l : list A) :
  (length (filter P l) + length (filter (fun a => ¬ P a) l) = length l)%nat.
Proof.
  rewrite <- length_app. apply Permutation_length, filter_app_complement.
Qed.

(** X4. A row that is not cleared moves down by the number of cleared rows
    below it, in every column of the board, and keeps its cells. *)
Theorem clearRows_row_moves_down b rows now x r :
  rows ≠ [] ->
  0 <= x < width (config b) ->
  0 <= r < totalHeight b ->
  r ∉ rows ->
  getCell (clearRows b rows now) x
          (r - Z.of_nat (length (filter (fun y => y ∈ rows) (seqZ 0 r))))
  = getCell b x r.
Proof.
  intros Hne Hx Hr Hnot. unfold getCell, cellKey.
  pose proof (length_filter_complement (fun y => y ∈ rows) (seqZ 0 r)) as Hlen.
  rewrite length_seqZ in Hlen.
  set (k := length (filter (fun y => y ∈ rows) (seqZ 0 r))) in *.
  rewrite (clearRows_any_lookup b rows now Hne).
  rewrite decide_True by (split; [apply elem_of_seqZ|]; lia).
  rewrite keptRows_sorted_rows. unfold keptRows.
  rewrite (seqZ_split 0 (totalHeight b) r) by lia.
  rewrite filter_app.
  assert (Hidx : Z.to_nat (r - Z.of_nat k)
                 = length (filter (fun y => y ∉ rows) (seqZ 0 r))).
  { lia. }
  rewrite Hidx, lookup_app_r by lia. rewrite Nat.sub_diag.
  rewrite seqZ_cons by lia. rewrite filter_cons_True by (by rewrite Z.add_0_l).
  simpl. by rewrite Z.add_0_l.
Qed.

Lemma clearRows_row_moves_down_witness :
  [0] ≠ []
  ∧ 0 <= 0 < width (config singleGapBoard)
  ∧ 0 <= 1 < totalHeight singleGapBoard
  ∧ (1 ∉ [0])
  ∧ getCell (clearRows singleGapBoard [0] 0) 0
            (1 - Z.of_nat (length (filter (fun y => y ∈ [0]) (seqZ 0 1))))
    = getCell singleGapBoard 0 1.
Proof.
  assert (H1 : [0] ≠ @nil Z) by discriminate.
  assert (H2 : 0 <= 0 < width (config singleGapBoard)) by (simpl; lia).
  assert (H3 : 0 <= 1 < totalHeight singleGapBoard) by (vm_compute; split; [discriminate|reflexivity]).
  assert (H4 : 1 ∉ [0]) by (apply (bool_decide_unpack _); vm_compute; exact I).
  split; [exact H1|]. split; [exact H2|]. split; [exact H3|]. split; [exact H4|].
  exact (clearRows_row_moves_down singleGapBoard [0] 0 0 1 H1 H2 H3 H4).
Defined.

(** ** The highest occupied row *)

(** The step of the loop of [getHighestOccupiedRow]. *)
Lemma highest_step_max (highest y : Z) :
  -1 <= highest -> 0 <= y ->
  (if bool_decide (highest = -1) || bool_decide (y > highest) then y else highest)
  = Z.max highest y.
Proof.
  intros Hh Hy. destruct (bool_decide (highest = -1)) eqn:H1; simpl.
  - apply bool_decide_eq_true in H1. lia.
  - apply bool_decide_eq_false in H1. case_bool_decide; lia.
Qed.

Lemma highest_fold (keys : list (Z * Z)) (highest : Z) :
  -1 <= highest ->
  Forall (fun key => 0 <= key.2) keys ->
  let step (highest : Z) (key : Z * Z) :=
    if bool_decide (highest = -1) || bool_decide (key.2 > highest)
    then key.2 else highest in
  highest <= foldl step highest keys
  ∧ (∀ key, key ∈ keys -> key.2 <= foldl step highest keys)
  ∧ (foldl step highest keys = highest
     ∨ ∃ key, key ∈ keys ∧ key.2 = foldl step highest keys).
Proof.
  intros Hh Hall step. revert highest Hh.
  induction keys as [|key keys IH]; intros highest Hh.
  - split; [simpl; lia|]. split; [|by left]. intros key Hin. by apply elem_of_nil in Hin.
  - apply Forall_cons in Hall as [Hkey Hall].
    change (foldl step highest (key :: keys)) with (foldl step (step highest key) keys).
    assert (Hstep : step highest key = Z.max highest key.2)
      by (by apply highest_step_max).
    rewrite Hstep.
    destruct (IH Hall (Z.max highest key.2) ltac:(lia)) as (Hle & Hmax & Hwit).
    split; [lia|]. split.
    + intros key' Hin. apply elem_of_cons in Hin as [->|Hin]; [lia|by apply Hmax].
    + destruct Hwit as [Heq|(key' & Hin & Heq)].
      * destruct (Z.max_spec highest key.2) as [[_ Hm]|[_ Hm]].
        -- right. exists key. split; [by left|]. lia.
        -- left. lia.
      * right. exists key'. split; [by right|done].
Qed.

(** X5. On a board whose cells are all at rows [>= 0],
    [getHighestOccupiedRow] is -1 exactly when the board is empty, and
    otherwise the largest row that holds a cell, whatever the order in which
    the keys of the map are visited. *)
Theorem getHighestOccupiedRow_max b :
  rowsNonNegative b ->
  (getHighestOccupiedRow b = -1 <-> cells b = ∅)
  ∧ (∀ x y, is_Some (cells b !! (x, y)) -> y <= getHighestOccupiedRow b)
  ∧ (cells b ≠ ∅ -> ∃ x, is_Some (cells b !! (x, getHighestOccupiedRow b))).
Proof.
  intros Hrows.
  assert (Hall : Forall (fun key : Z * Z => 0 <= key.2) (map fst (map_to_list (cells b)))).
  { apply Forall_forall. intros key Hin. apply list_elem_of_fmap in Hin as ([k c] & -> & Hin).
    apply elem_of_map_to_list in Hin. exact (Hrows k c Hin). }
  pose proof (highest_fold (map fst (map_to_list (cells b))) (-1) ltac:(lia) Hall)
    as Hfold.
  change (foldl _ (-1) (map fst (map_to_list (cells b))))
    with (getHighestOccupiedRow b) in Hfold.
  destruct Hfold as (Hle & Hmax & Hwit).
  assert (Hkeys : ∀ key, key ∈ map fst (map_to_list (cells b)) <-> is_Some (cells b !! key)).
  { intros key. split.
    - intros Hin. apply list_elem_of_fmap in Hin as ([k c] & -> & Hin).
      apply elem_of_map_to_list in Hin. by eexists.
    - intros [c Hc]. apply list_elem_of_fmap. exists (key, c). split; [done|].
      by apply elem_of_map_to_list. }
  split; [|split].
  - split.
    + intros Heq. apply map_empty. intros key. apply eq_None_not_Some. intros Hsome.
      apply Hkeys in Hsome. pose proof (Hmax key Hsome) as Hk.
      rewrite Forall_forall in Hall. apply Hall in Hsome. lia.
    + intros Hempty. unfold getHighestOccupiedRow. by rewrite Hempty, map_to_list_empty.
  - intros x y Hsome. apply Hkeys in Hsome. exact (Hmax (x, y) Hsome).
  - intros Hne. destruct Hwit as [Heq|([x y] & Hin & Heq)].
    + destruct (map_choose (cells b) Hne) as (key & c & Hc).
      assert (Hin : key ∈ map fst (map_to_list (cells b))) by (apply Hkeys; by eexists).
      pose proof (Hmax key Hin) as Hk. rewrite Forall_forall in Hall. apply Hall in Hin. lia.
    + exists x. apply Hkeys in Hin. simpl in Heq. by rewrite <- Heq.
Qed.

Lemma getHighestOccupiedRow_max_witness :
  rowsNonNegative tetrisBoard
  ∧ (getHighestOccupiedRow tetrisBoard = -1 <-> cells tetrisBoard = ∅)
  ∧ (∀ x y, is_Some (cells tetrisBoard !! (x, y)) -> y <= getHighestOccupiedRow tetrisBoard)
  ∧ (cells tetrisBoard ≠ ∅
     -> ∃ x, is_Some (cells tetrisBoard !! (x, getHighestOccupiedRow tetrisBoard))).
Proof.
  assert (H : rowsNonNegative tetrisBoard)
    by (apply (bool_decide_unpack _); vm_compute; exact I).
  split; [exact H|]. exact (getHighestOccupiedRow_max tetrisBoard H).
Defined.

(** ** The danger level *)

Local Open Scope Qc_scope.

Lemma Qc_of_Z_pos (n : Z) : (0 < n)%Z -> 0 < Qc_of_Z n.
Proof. intros Hn. apply Z2Qc_inj_lt in Hn. by rewrite Z2Qc_inj_0 in Hn. Qed.

Lemma Qc_lt_irrefl (x : Qc) : ¬ x < x.
Proof. apply Qcle_not_lt, Qcle_refl. Qed.

Lemma Qcinv_pos (c : Qc) : 0 < c -> 0 < / c.
Proof.
  intros Hc. change (0 < Qred (/ c))%Q. rewrite Qred_correct.
  apply Qinv_lt_0_compat. exact Hc.
Qed.

Lemma Qcdiv_nonneg (a c : Qc) : 0 ≤ a -> 0 < c -> 0 ≤ a / c.
Proof.
  intros Ha Hc. unfold Qcdiv. apply Qcmult_nonneg; [done|].
  by apply Qclt_le_weak, Qcinv_pos.
Qed.

Lemma Qcdiv_pos (a c : Qc) : 0 < a -> 0 < c -> 0 < a / c.
Proof.
  intros Ha Hc. unfold Qcdiv. rewrite <- (Qcmult_0_l (/ c)).
  apply Qcmult_lt_compat_r; [by apply Qcinv_pos|done].
Qed.

(** X6. The danger level always lies in [0, 1]; it is positive exactly when
    the highest occupied row is above the danger threshold, eight rows
    below the top of the visible area, and it is 1 from the top of the
    visible area on. *)
Theorem getDangerLevel_range b :
  0 ≤ getDangerLevel b ≤ 1
  ∧ (isInDangerZone b = true
     <-> (height (config b) - 8 < getHighestOccupiedRow b)%Z
         ∧ getHighestOccupiedRow b ≠ (-1)%Z)
  ∧ ((height (config b) <= getHighestOccupiedRow b)%Z
     -> getHighestOccupiedRow b ≠ (-1)%Z -> getDangerLevel b = 1).
Proof.
  unfold isInDangerZone, getDangerLevel.
  set (h := getHighestOccupiedRow b).
  replace (height (config b) - (height (config b) - 8))%Z with 8%Z by lia.
  rewrite bool_decide_eq_true.
  case_bool_decide as Hempty.
  { split; [done|]. split; [|done]. split; [by intros ?%Qc_lt_irrefl|by intros [_ ?]]. }
  case_bool_decide as Hlow.
  { split; [done|]. split; [|intros; lia]. split; [by intros ?%Qc_lt_irrefl|intros [? _]; lia]. }
  assert (Hq : 0 ≤ Qc_of_Z (h - (height (config b) - 8)) / Qc_of_Z 8).
  { apply Qcdiv_nonneg; [apply Qc_of_Z_nonneg; lia|by apply Qc_of_Z_pos]. }
  split; [split; [by apply Qcmin_lower|apply Qcmin_upper]|]. split.
  - split.
    + intros Hpos. split; [|done].
      destruct (decide (h = height (config b) - 8)%Z) as [Heq|Hne]; [|lia].
      rewrite Heq, Z.sub_diag in Hpos.
      assert (Hzero : Qc_of_Z 0 / Qc_of_Z 8 = 0) by (by apply Qc_is_canon).
      rewrite Hzero in Hpos. unfold Qcmin in Hpos.
      case_decide as Hle; [by apply Qcle_not_lt in Hle|by apply Qc_lt_irrefl in Hpos].
    + intros [Hhigh _]. unfold Qcmin. case_decide; [done|].
      apply Qcdiv_pos; [apply Qc_of_Z_pos; lia|by apply Qc_of_Z_pos].
  - intros Htop _. unfold Qcmin. case_decide as Hle; [done|]. exfalso. apply Hle.
    apply Qcle_trans with (Qc_of_Z 8 / Qc_of_Z 8).
    + unfold Qcdiv. rewrite Qcmult_inv_r; [done|]. by intros ?.
    + unfold Qcdiv. apply Qcmult_le_compat_r.
      * apply (proj1 (Z2Qc_inj_le _ _)). lia.
      * by apply Qclt_le_weak, Qcinv_pos.
Qed.

Local Close Scope Qc_scope.

(** ** Garbage rows, cell by cell *)

Section GarbageRows.

Variable b : BoardState.

Lemma shift_fold_lookup (count : Z) (l : list (Z * Z * CellState))
    (acc : gmap (Z * Z) CellState) (x y : Z) :
  NoDup l.*1 ->
  foldl (fun newCells entry =>
           let pos := parseKey entry.1 in
           let newY := pos_y pos + count in
           if bool_decide (newY < totalHeight b)
           then <[cellKey (pos_x pos) newY := entry.2]> newCells
           else newCells) acc l !! (x, y)
  = if decide (y < totalHeight b)
    then match (list_to_map l : gmap (Z * Z) CellState) !! (x, y - count) with
         | Some c => Some c
         | None => acc !! (x, y)
         end
    else acc !! (x, y).
Proof.
  revert acc. induction l as [|[[kx ky] c] l IH]; intros acc Hnd.
  - simpl. rewrite lookup_empty. by case_decide.
  - apply NoDup_cons in Hnd as [Hk Hnd].
    change (foldl ?f acc (?e :: l)) with (foldl f (f acc e) l).
    rewrite IH by done. cbn [fst snd parseKey pos_x pos_y cellKey].
    change (list_to_map ((kx, ky, c) :: l)) with (<[(kx, ky) := c]> (list_to_map l : gmap (Z * Z) CellState)).
    destruct (decide (y < totalHeight b)) as [Hy|Hy].
    + destruct (decide ((kx, ky) = (x, y - count))) as [[= -> ->]|Hne].
      * rewrite lookup_insert_eq.
        rewrite (not_elem_of_list_to_map_1 _ _ Hk).
        rewrite bool_decide_eq_true_2 by lia.
        replace (y - count + count) with y by lia. apply lookup_insert_eq.
      * rewrite lookup_insert_ne by done.
        destruct (list_to_map l !! (x, y - count)); [done|].
        case_bool_decide; [|done]. apply lookup_insert_ne.
        intros [= -> <-]. apply Hne. f_equal. lia.
    + case_bool_decide; [|done]. apply lookup_insert_ne. intros [= -> <-]. lia.
Qed.

Lemma shiftCellsUp_lookup (count : Z) x y :
  shiftCellsUp b count !! (x, y) = shiftedCell b count x y.
Proof.
  unfold shiftCellsUp, shiftedCell. rewrite shift_fold_lookup by apply NoDup_fst_map_to_list.
  rewrite list_to_map_to_list, lookup_empty. case_decide; [|done].
  by destruct (cells b !! (x, y - count)).
Qed.

Lemma garbageRow_fold_lookup (gap y0 : Z) (xs : list Z)
    (acc : gmap (Z * Z) CellState) (x y : Z) :
  foldl (fun newCells x =>
           if bool_decide (x ≠ gap)
           then <[cellKey x y0 := garbageCell]> newCells
           else newCells) acc xs !! (x, y)
  = if decide (y = y0 ∧ x ∈ xs ∧ x ≠ gap) then Some garbageCell else acc !! (x, y).
Proof.
  revert acc. induction xs as [|x0 xs IH]; intros acc.
  - simpl. case_decide as H; [|done]. destruct H as (_ & H & _). by apply elem_of_nil in H.
  - change (foldl ?f acc (x0 :: xs)) with (foldl f (f acc x0) xs). rewrite IH.
    destruct (decide (y = y0 ∧ x ∈ xs ∧ x ≠ gap)) as [(Hy & Hin & Hgap)|Hn].
    + rewrite decide_True; [done|]. split; [done|]. split; [by right|done].
    + destruct (decide (y = y0 ∧ x = x0 ∧ x ≠ gap)) as [(-> & -> & Hgap)|Hn'].
      * rewrite decide_True by (split; [done|]; split; [by left|done]).
        rewrite bool_decide_eq_true_2 by done. apply lookup_insert_eq.
      * rewrite decide_False.
        -- case_bool_decide as Hg; [|done]. apply lookup_insert_ne.
           unfold cellKey. intros [= -> ->]. by apply Hn'.
        -- intros (Hy & Hin & Hgap). apply elem_of_cons in Hin as [->|Hin].
           ++ by apply Hn'.
           ++ by apply Hn.
Qed.

Lemma garbageRow_lookup (gap y0 : Z) (acc : gmap (Z * Z) CellState) (x y : Z) :
  garbageRow b gap y0 acc !! (x, y)
  = if decide (y = y0 ∧ 0 <= x < width (config b) ∧ x ≠ gap)
    then Some garbageCell else acc !! (x, y).
Proof.
  unfold garbageRow. rewrite garbageRow_fold_lookup.
  destruct (decide (y = y0 ∧ x ∈ seqZ 0 (width (config b)) ∧ x ≠ gap)) as [H|H].
  - rewrite decide_True; [done|]. destruct H as (? & ?%elem_of_seqZ & ?).
    repeat split; (done || lia).
  - rewrite decide_False; [done|]. intros (? & ? & ?). apply H.
    repeat split; try done. apply elem_of_seqZ. lia.
Qed.

Lemma garbageRows_lookup (gap : Z) (ys : list Z) (acc : gmap (Z * Z) CellState)
    (x y : Z) :
  foldl (fun newCells y => garbageRow b gap y newCells) acc ys !! (x, y)
  = if decide (y ∈ ys ∧ 0 <= x < width (config b) ∧ x ≠ gap)
    then Some garbageCell else acc !! (x, y).
Proof.
  revert acc. induction ys as [|y0 ys IH]; intros acc.
  - case_decide as H; [|done]. destruct H as (H & _). by apply elem_of_nil in H.
  - change (foldl ?f acc (y0 :: ys)) with (foldl f (f acc y0) ys). rewrite IH.
    rewrite garbageRow_lookup.
    destruct (decide (y ∈ ys ∧ 0 <= x < width (config b) ∧ x ≠ gap)) as [(Hin & Hx & Hgap)|Hn].
    + rewrite decide_True; [done|]. split; [by right|done].
    + destruct (decide (y = y0 ∧ 0 <= x < width (config b) ∧ x ≠ gap)) as [(-> & Hx & Hg)|Hn'].
      * rewrite decide_True; [done|]. split; [by left|done].
      * rewrite decide_False; [done|]. intros (Hin & Hx & Hg).
        apply elem_of_cons in Hin as [->|Hin]; [by apply Hn'|by apply Hn].
Qed.

End GarbageRows.

Lemma insertGarbageRows_lookup b (count : Z) gapColumn now x y :
  cells (insertGarbageRows b count gapColumn now) !! (x, y)
  = if decide (0 <= y < count ∧ 0 <= x < width (config b) ∧ x ≠ gapColumn)
    then Some garbageCell
    else if decide (y < totalHeight b) then cells b !! (x, y - count) else None.
Proof.
  unfold insertGarbageRows. simpl.
  rewrite garbageRows_lookup, shiftCellsUp_lookup. unfold shiftedCell.
  destruct (decide (0 <= y < count ∧ 0 <= x < width (config b) ∧ x ≠ gapColumn))
    as [(Hy & Hx & Hg)|Hn].
  - rewrite decide_True; [done|]. split; [apply elem_of_seqZ; lia|done].
  - rewrite decide_False; [done|]. intros (Hy%elem_of_seqZ & Hx & Hg). apply Hn.
    split; [lia|done].
Qed.

(** X7. The board [insertGarbageRows] returns, cell by cell: the rows below
    [count] hold a garbage cell in every column of the board but the gap
    column; every other position holds the cell that was [count] rows lower,
    or nothing from the total height on: the cells pushed over the top are
    dropped. *)
Theorem insertGarbageRows_cells b (count : Z) gapColumn now x y :
  getCell (insertGarbageRows b count gapColumn now) x y
  = (if decide (0 <= y < count ∧ 0 <= x < width (config b) ∧ x ≠ gapColumn)
     then Some garbageCell
     else if decide (y < totalHeight b) then getCell b x (y - count) else None)
  ∧ config (insertGarbageRows b count gapColumn now) = config b.
Proof. split; [apply insertGarbageRows_lookup|done]. Qed.

(** ** The floor of a random number *)

Lemma Qcfloor_nonneg (q : Qc) : (0 ≤ q)%Qc -> 0 <= Qcfloor q.
Proof.
  intros Hq. unfold Qcfloor. change 0 with (Qfloor 0). by apply Qfloor_resp_le.
Qed.

Lemma Qcfloor_lt (q : Qc) (w : Z) : (q < Qc_of_Z w)%Qc -> Qcfloor q < w.
Proof.
  intros Hq. unfold Qcfloor. rewrite Zlt_Qlt.
  apply Qle_lt_trans with (this q); [apply Qfloor_le|].
  exact Hq.
Qed.

(** [Math.floor(Math.random() * w)] is an index below [w]. *)
Lemma random_index (r : Qc) (w : Z) :
  (0 ≤ r)%Qc -> (r < 1)%Qc -> 0 < w -> 0 <= Qcfloor (r * Qc_of_Z w) < w.
Proof.
  intros Hlo Hhi Hw. split.
  - apply Qcfloor_nonneg, Qcmult_nonneg; [done|]. apply Qc_of_Z_nonneg. lia.
  - apply Qcfloor_lt. rewrite <- (Qcmult_1_l (Qc_of_Z w)) at 2.
    apply Qcmult_lt_compat_r; [by apply Qc_of_Z_pos|done].
Qed.

(** ** Garbage rows keep the board well formed *)

Lemma cellsInBounds_lookup b x y :
  cellsInBounds b -> is_Some (cells b !! (x, y)) ->
  0 <= x < width (config b) ∧ 0 <= y < totalHeight b.
Proof.
  intros Hin [c Hc]. apply isValidPosition_true. exact (Hin (x, y) c Hc).
Qed.

Lemma insertGarbageRows_bounds b (count : Z) gap now :
  cellsInBounds b -> 0 <= count <= totalHeight b ->
  cellsInBounds (insertGarbageRows b count gap now).
Proof.
  intros Hin Hcount [x y] c Hc. simpl.
  rewrite insertGarbageRows_lookup in Hc. apply isValidPosition_true.
  change (totalHeight (insertGarbageRows b count gap now)) with (totalHeight b).
  change (config (insertGarbageRows b count gap now)) with (config b).
  case_decide as Hg; [lia|]. case_decide as Hy; [|done].
  destruct (cellsInBounds_lookup b x (y - count) Hin) as [Hx Hy']; [by eexists|]. lia.
Qed.

Lemma insertGarbageRows_gap_open b (count : Z) gap now y :
  cellsInBounds b -> 0 <= gap < width (config b) -> 0 <= y < count ->
  y ∉ getFilledRows (insertGarbageRows b count gap now).
Proof.
  intros Hin Hgap Hy Hfilled. apply elem_of_getFilledRows in Hfilled as [Hrow _].
  rewrite rowFilled_true in Hrow.
  assert (Hg : gap ∈ seqZ 0 (width (config (insertGarbageRows b count gap now))))
    by (apply elem_of_seqZ; simpl; lia).
  apply Hrow in Hg. rewrite insertGarbageRows_lookup in Hg.
  rewrite decide_False in Hg by (intros (_ & _ & ?); done).
  case_decide; [|by destruct Hg].
  destruct (cellsInBounds_lookup b gap (y - count) Hin Hg). lia.
Qed.

(** X8. [addGarbageRows] with no gap column given draws the gap from the
    columns of the board; the board it returns has every cell in bounds and
    none of the [count] garbage rows at its bottom is a filled row. *)
Theorem addGarbageRows_open_rows rnd now b (count : Z) n :
  unitRandom rnd ->
  cellsInBounds b ->
  0 < width (config b) ->
  0 <= count <= totalHeight b ->
  ∃ b', addGarbageRows rnd now b count None n = Some (b', S n)
        ∧ cellsInBounds b'
        ∧ ∀ y, 0 <= y < count -> y ∉ getFilledRows b'.
Proof.
  intros Hrnd Hin Hwidth Hcount. eexists. split; [reflexivity|].
  destruct (Hrnd n) as [Hlo Hhi].
  pose proof (random_index (rnd n) (width (config b)) Hlo Hhi Hwidth) as Hgap.
  split; [by apply insertGarbageRows_bounds|].
  intros y Hy. by apply insertGarbageRows_gap_open.
Qed.

Lemma constRnd_unit : unitRandom constRnd.
Proof. intros n. split; done. Qed.

Lemma addGarbageRows_open_rows_witness :
  unitRandom constRnd
  ∧ cellsInBounds tetrisBoard
  ∧ 0 < width (config tetrisBoard)
  ∧ 0 <= 2 <= totalHeight tetrisBoard
  ∧ ∃ b', addGarbageRows constRnd 0 tetrisBoard 2 None 0%nat = Some (b', 1%nat)
          ∧ cellsInBounds b'
          ∧ ∀ y, 0 <= y < 2 -> y ∉ getFilledRows b'.
Proof.
  assert (H1 : unitRandom constRnd) by (intros n; split; done).
  assert (H2 : cellsInBounds tetrisBoard)
    by (apply (bool_decide_unpack _); vm_compute; exact I).
  assert (H3 : 0 < width (config tetrisBoard)) by (simpl; lia).
  assert (H4 : 0 <= 2 <= totalHeight tetrisBoard) by (vm_compute; split; discriminate).
  split; [exact H1|]. split; [exact H2|]. split; [exact H3|]. split; [exact H4|].
  exact (addGarbageRows_open_rows constRnd 0 tetrisBoard 2 0%nat H1 H2 H3 H4).
Defined.

(** ** The bonus clear *)

Lemma bonus_fold_lookup (l : list (Z * Z * CellState)) (acc : gmap (Z * Z) CellState)
    (key : Z * Z) :
  foldl (fun newCells entry =>
           if bool_decide (special entry.2 = Some garbage)
           then delete entry.1 newCells
           else newCells) acc l !! key
  = if decide (Exists (fun entry => entry.1 = key ∧ isGarbage entry.2) l)
    then None else acc !! key.
Proof.
  revert acc. induction l as [|e l IH]; intros acc.
  - case_decide as H; [by apply Exists_nil in H|done].
  - change (foldl ?f acc (e :: l)) with (foldl f (f acc e) l). rewrite IH.
    destruct (decide (Exists (fun entry => entry.1 = key ∧ isGarbage entry.2) l)) as [H|H].
    + rewrite decide_True; [done|]. by right.
    + destruct (decide (e.1 = key ∧ isGarbage e.2)) as [[<- Hg]|Hn].
      * rewrite decide_True by (by left).
        rewrite bool_decide_eq_true_2 by done. apply lookup_delete_eq.
      * rewrite decide_False by (intros [?|?]%Exists_cons; done).
        case_bool_decide as Hg; [|done]. apply lookup_delete_ne.
        intros Heq. apply Hn. done.
Qed.

Lemma applyBonusClear_lookup now b key :
  cells (applyBonusClear now b) !! key
  = match cells b !! key with
    | Some c => if decide (isGarbage c) then None else Some c
    | None => None
    end.
Proof.
  unfold applyBonusClear. simpl. rewrite bonus_fold_lookup.
  destruct (cells b !! key) as [c|] eqn:Hc.
  - destruct (decide (isGarbage c)) as [Hg|Hg].
    + rewrite decide_True; [done|]. apply Exists_exists. exists (key, c).
      split; [by apply elem_of_map_to_list|done].
    + rewrite decide_False; [done|]. intros H. apply Exists_exists in H as ([k c'] & Hin & <- & Hg').
      apply elem_of_map_to_list in Hin. simpl in *. congruence.
  - rewrite decide_False; [done|]. intros H. apply Exists_exists in H as ([k c'] & Hin & <- & Hg').
    apply elem_of_map_to_list in Hin. simpl in *. congruence.
Qed.

(** The bonus clear removes exactly the garbage cells: a position holds
    after it what it held before, unless that was a garbage cell, and then
    it is empty.  Clearing twice changes nothing more. *)
Lemma applyBonusClear_cells now b x y :
  getCell (applyBonusClear now b) x y
  = match getCell b x y with
    | Some c => if decide (isGarbage c) then None else Some c
    | None => None
    end
  ∧ cells (applyBonusClear now (applyBonusClear now b)) = cells (applyBonusClear now b)
  ∧ config (applyBonusClear now b) = config b.
Proof.
  split; [apply applyBonusClear_lookup|]. split; [|done].
  apply map_eq. intros key. rewrite !applyBonusClear_lookup.
  destruct (cells b !! key) as [c|]; [|done].
  destruct (decide (isGarbage c)) as [Hg|Hg]; [done|]. by rewrite decide_False.
Qed.

(** X9. On a board with every cell in bounds and no garbage cell, a bonus
    clear after the insertion of [count] garbage rows leaves exactly the old
    cells, each [count] rows higher; those pushed over the top are gone. *)
Theorem applyBonusClear_after_garbage now b (count : Z) gap x y :
  cellsInBounds b ->
  (∀ key c, cells b !! key = Some c -> ¬ isGarbage c) ->
  0 <= count ->
  getCell (applyBonusClear now (insertGarbageRows b count gap now)) x y
  = if decide (y < totalHeight b) then getCell b x (y - count) else None.
Proof.
  intros Hin Hclean Hcount. unfold getCell, cellKey.
  rewrite applyBonusClear_lookup, insertGarbageRows_lookup.
  case_decide as Hg.
  - rewrite decide_True by done.
    case_decide as Hy; [|done].
    destruct (cells b !! (x, y - count)) as [c|] eqn:Hc; [|done].
    destruct (cellsInBounds_lookup b x (y - count) Hin) as [_ ?]; [by eexists|lia].
  - case_decide as Hy; [|done].
    destruct (cells b !! (x, y - count)) as [c|] eqn:Hc; [|done].
    rewrite decide_False; [done|]. by apply (Hclean _ _ Hc).
Qed.

Lemma applyBonusClear_after_garbage_witness :
  cellsInBounds tetrisBoard
  ∧ (∀ key c, cells tetrisBoard !! key = Some c -> ¬ isGarbage c)
  ∧ 0 <= 1
  ∧ getCell (applyBonusClear 0 (insertGarbageRows tetrisBoard 1 3 0)) 0 5
    = if decide (5 < totalHeight tetrisBoard) then getCell tetrisBoard 0 (5 - 1) else None.
Proof.
  assert (H1 : cellsInBounds tetrisBoard)
    by (apply (bool_decide_unpack _); vm_compute; exact I).
  assert (H2 : ∀ key c, cells tetrisBoard !! key = Some c -> ¬ isGarbage c).
  { assert (Hall : map_Forall (fun _ c => ¬ isGarbage c) (cells tetrisBoard))
      by (apply (bool_decide_unpack _); vm_compute; exact I).
    exact Hall. }
  assert (H3 : 0 <= 1) by lia.
  split; [exact H1|]. split; [exact H2|]. split; [exact H3|].
  exact (applyBonusClear_after_garbage 0 tetrisBoard 1 3 0 5 H1 H2 H3).
Defined.

(** ** The garbage rain *)

Lemma garbageRainRows_returns (rnd : nat -> Qc) (b : BoardState) (ys : list Z)
    (acc : gmap (Z * Z) CellState) (n : nat) :
  unitRandom rnd ->
  0 < width (config b) ->
  NoDup ys ->
  ∃ newCells,
    garbageRainRows rnd b ys acc n = Some (newCells, (n + length ys)%nat)
    ∧ ∀ y : Z,
        (y ∉ ys -> ∀ x : Z, newCells !! (x, y) = acc !! (x, y))
        ∧ (y ∈ ys ->
           ∃ gap, 0 <= gap < width (config b)
                  ∧ ∀ x : Z, newCells !! (x, y)
                         = if decide (0 <= x < width (config b) ∧ x ≠ gap)
                           then Some garbageCell else acc !! (x, y)).
Proof.
  intros Hrnd Hwidth. revert acc n.
  induction ys as [|y0 ys IH]; intros acc n Hnd.
  - exists acc. split; [simpl; unfold mret, eff_ret; do 2 f_equal; lia|].
    intros y. split; [done|]. intros Hin. by apply elem_of_nil in Hin.
  - apply NoDup_cons in Hnd as [Hy0 Hnd].
    destruct (Hrnd n) as [Hlo Hhi].
    pose proof (random_index (rnd n) (width (config b)) Hlo Hhi Hwidth) as Hgap.
    set (gap0 := Qcfloor (rnd n * Qc_of_Z (width (config b)))) in *.
    destruct (IH (garbageRow b gap0 y0 acc) (S n) Hnd) as (newCells & Hrun & Hcells).
    exists newCells. split.
    + simpl. unfold mbind, eff_bind, random. fold gap0. rewrite Hrun.
      do 2 f_equal. lia.
    + intros y. split.
      * intros Hnot x. apply not_elem_of_cons in Hnot as [Hne Hnot].
        rewrite (proj1 (Hcells y) Hnot), garbageRow_lookup.
        rewrite decide_False; [done|]. by intros [? _].
      * intros Hin. apply elem_of_cons in Hin as [->|Hin].
        -- exists gap0. split; [done|]. intros x.
           rewrite (proj1 (Hcells y0) Hy0), garbageRow_lookup.
           destruct (decide (0 <= x < width (config b) ∧ x ≠ gap0)) as [H|H].
           ++ by rewrite decide_True.
           ++ rewrite decide_False; [done|]. by intros [_ ?].
        -- destruct (proj2 (Hcells y) Hin) as (gap & Hg & Hlook).
           exists gap. split; [done|]. intros x. rewrite Hlook, garbageRow_lookup.
           rewrite (decide_False (P := y = y0 ∧ _)); [done|].
           intros [-> _]. done.
Qed.

(** X10. The garbage rain adds one or two garbage rows at the bottom of the
    board: each of them holds a garbage cell in every column of the board
    but one, its gap, and nothing else, so none is a filled row; the old
    cells move up by the number of rows added and those pushed over the top
    are dropped; every cell stays in bounds. *)
Theorem applyGarbageRain_rows rnd now b n :
  unitRandom rnd ->
  cellsInBounds b ->
  0 < width (config b) ->
  2 <= totalHeight b ->
  ∃ b' (count : Z),
    applyGarbageRain rnd now b n = Some (b', (n + 1 + Z.to_nat count)%nat)
    ∧ (count = 1 ∨ count = 2)
    ∧ config b' = config b
    ∧ cellsInBounds b'
    ∧ (∀ y, 0 <= y < count ->
         ∃ gap, 0 <= gap < width (config b)
           ∧ ∀ x, getCell b' x y
                  = if decide (0 <= x < width (config b) ∧ x ≠ gap)
                    then Some garbageCell else None)
    ∧ (∀ y, 0 <= y < count -> y ∉ getFilledRows b')
    ∧ ∀ x y, count <= y ->
        getCell b' x y
        = if decide (y < totalHeight b) then getCell b x (y - count) else None.
Proof.
  intros Hrnd Hin Hwidth Hheight.
  destruct (Hrnd n) as [Hlo Hhi].
  pose proof (random_index (rnd n) 2 Hlo Hhi ltac:(lia)) as Hcount.
  set (count := 1 + Qcfloor (rnd n * Qc_of_Z 2)).
  destruct (garbageRainRows_returns rnd b (seqZ 0 count) (shiftCellsUp b count) (S n)
              Hrnd Hwidth (NoDup_seqZ _ _)) as (newCells & Hrun & Hcells).
  exists (mkBoard (config b) newCells (pendingClearRows b) now), count.
  split; [|split; [unfold count; lia|split; [done|]]].
  { unfold applyGarbageRain, mbind, eff_bind, random. fold count. rewrite Hrun.
    rewrite length_seqZ.
    by replace (S n + Z.to_nat count)%nat with (n + 1 + Z.to_nat count)%nat by lia. }
  assert (Hlook : ∀ x y,
            newCells !! (x, y)
            = if decide (0 <= y < count)
              then match newCells !! (x, y) with
                   | Some c => Some c | None => None end
              else shiftedCell b count x y).
  { intros x y. case_decide as Hy; [by destruct (newCells !! (x, y))|].
    rewrite (proj1 (Hcells y)); [apply shiftCellsUp_lookup|].
    intros Hy'%elem_of_seqZ. lia. }
  assert (Hrows : ∀ y, 0 <= y < count ->
            ∃ gap, 0 <= gap < width (config b)
              ∧ ∀ x, newCells !! (x, y)
                     = if decide (0 <= x < width (config b) ∧ x ≠ gap)
                       then Some garbageCell else None).
  { intros y Hy.
    destruct (proj2 (Hcells y)) as (gap & Hgap & Hrow); [apply elem_of_seqZ; lia|].
    exists gap. split; [done|]. intros x. rewrite Hrow. case_decide; [done|].
    rewrite shiftCellsUp_lookup. unfold shiftedCell. case_decide; [|done].
    destruct (cells b !! (x, y - count)) as [c|] eqn:Hc; [|done].
    destruct (cellsInBounds_lookup b x (y - count) Hin) as [? ?]; [by eexists|]. lia. }
  split; [|split; [|split]].
  - intros [x y] c Hc. simpl. apply isValidPosition_true. simpl.
    change (totalHeight _) with (totalHeight b).
    destruct (decide (0 <= y < count)) as [Hy|Hy].
    + destruct (Hrows y Hy) as (gap & Hgap & Hrow).
      rewrite Hrow in Hc. case_decide as Hx; [unfold count in *; lia|done].
    + rewrite Hlook, decide_False in Hc by done. unfold shiftedCell in Hc.
      case_decide; [|done].
      destruct (cellsInBounds_lookup b x (y - count) Hin) as [? ?]; [by eexists|].
      unfold count in *. lia.
  - intros y Hy. destruct (Hrows y Hy) as (gap & Hgap & Hrow).
    exists gap. split; [done|]. intros x. unfold getCell, cellKey. simpl. apply Hrow.
  - intros y Hy Hfilled. apply elem_of_getFilledRows in Hfilled as [Hrow _].
    rewrite rowFilled_true in Hrow. simpl in Hrow.
    destruct (Hrows y Hy) as (gap & Hgap & Hcellsrow).
    assert (Hg : gap ∈ seqZ 0 (width (config b))) by (apply elem_of_seqZ; lia).
    apply Hrow in Hg. rewrite Hcellsrow in Hg.
    rewrite decide_False in Hg by (by intros [_ ?]). by destruct Hg.
  - intros x y Hy. unfold getCell, cellKey. simpl.
    rewrite Hlook, decide_False by lia. reflexivity.
Qed.

Lemma applyGarbageRain_rows_witness :
  unitRandom constRnd
  ∧ cellsInBounds tetrisBoard
  ∧ 0 < width (config tetrisBoard)
  ∧ 2 <= totalHeight tetrisBoard
  ∧ ∃ b' (count : Z),
      applyGarbageRain constRnd 0 tetrisBoard 0%nat
      = Some (b', (0 + 1 + Z.to_nat count)%nat)
      ∧ (count = 1 ∨ count = 2)
      ∧ config b' = config tetrisBoard
      ∧ cellsInBounds b'
      ∧ (∀ y, 0 <= y < count ->
           ∃ gap, 0 <= gap < width (config tetrisBoard)
             ∧ ∀ x, getCell b' x y
                    = if decide (0 <= x < width (config tetrisBoard) ∧ x ≠ gap)
                      then Some garbageCell else None)
      ∧ (∀ y, 0 <= y < count -> y ∉ getFilledRows b')
      ∧ ∀ x y, count <= y ->
          getCell b' x y
          = if decide (y < totalHeight tetrisBoard)
            then getCell tetrisBoard x (y - count) else None.
Proof.
  assert (H1 : unitRandom constRnd) by (intros n; split; done).
  assert (H2 : cellsInBounds tetrisBoard)
    by (apply (bool_decide_unpack _); vm_compute; exact I).
  assert (H3 : 0 < width (config tetrisBoard)) by (simpl; lia).
  assert (H4 : 2 <= totalHeight tetrisBoard) by (vm_compute; discriminate).
  split; [exact H1|]. split; [exact H2|]. split; [exact H3|]. split; [exact H4|].
  exact (applyGarbageRain_rows constRnd 0 tetrisBoard 0%nat H1 H2 H3 H4).
Defined.

(** With every random number 1/2 the rain on [tetrisBoard] adds two rows,
    each with its gap at column 5, under the 37 old cells. *)
Example applyGarbageRain_two_rows :
  match applyGarbageRain constRnd 0 tetrisBoard 0%nat with
  | Some (b', n') =>
      n' = 3%nat
      ∧ cellCount b' = (37 + 9 + 9)%nat
      ∧ map (fun x => isCellOccupied b' x 0) (seqZ 0 10)
        = [true; true; true; true; true; false; true; true; true; true]
      ∧ map (fun x => isCellOccupied b' x 1) (seqZ 0 10)
        = [true; true; true; true; true; false; true; true; true; true]
      ∧ getCell b' 0 0 = Some garbageCell
      ∧ getCell b' 0 6 = getCell tetrisBoard 0 4
  | None => False
  end.
Proof. vm_compute. repeat split. Qed.

(** ** The ghost row *)

Lemma ghostLoop_descends fuel b t x r gy :
  canPlacePiece b t (mkPos x gy) r = true ->
  ghostLoop fuel b t x r gy <= gy
  ∧ ∀ y, ghostLoop fuel b t x r gy <= y <= gy ->
         canPlacePiece b t (mkPos x y) r = true.
Proof.
  revert gy. induction fuel as [|fuel IH]; intros gy Hplace; simpl.
  - split; [lia|]. intros y Hy. by replace y with gy by lia.
  - destruct (canPlacePiece b t (mkPos x (gy - 1)) r) eqn:Hnext.
    + destruct (IH (gy - 1) Hnext) as [Hle Hall]. split; [lia|].
      intros y Hy. destruct (decide (y = gy)) as [->|Hne]; [done|]. apply Hall. lia.
    + split; [lia|]. intros y Hy. by replace y with gy by lia.
Qed.

Lemma position_eta piece :
  mkPos (pos_x (position piece)) (pos_y (position piece)) = position piece.
Proof. by destruct (position piece). Qed.

(** X11. From a legal placement the ghost row is where the piece comes to
    rest: it is at or below the piece, every row from it up to the piece is
    a legal placement in the same column, and the piece placed at the ghost
    row is on the ground.  [getDropPositions] returns the blocks of the
    piece at that row and a drop distance that is not negative. *)
Theorem calculateGhostY_resting b piece :
  isValidPiecePosition b piece = true ->
  calculateGhostY b piece <= pos_y (position piece)
  ∧ (∀ y, calculateGhostY b piece <= y <= pos_y (position piece) ->
          isValidPiecePosition b
            (withPosition piece (mkPos (pos_x (position piece)) y)) = true)
  ∧ isOnGround b (withPosition piece
                    (mkPos (pos_x (position piece)) (calculateGhostY b piece))) = true
  ∧ (getDropPositions b piece).1
    = getPieceBlocks (withPosition piece
                        (mkPos (pos_x (position piece)) (calculateGhostY b piece)))
  ∧ 0 <= (getDropPositions b piece).2.
Proof.
  intros Hvalid. rewrite isValidPiecePosition_canPlace, <- position_eta in Hvalid.
  destruct (ghostLoop_descends (Z.to_nat (pos_y (position piece) + 1)) b (ptype piece)
              (pos_x (position piece)) (rotation piece) (pos_y (position piece)) Hvalid)
    as [Hle Hall].
  fold (calculateGhostY b piece) in Hle, Hall.
  split; [done|]. split; [|split; [|split; [done|simpl; lia]]].
  - intros y Hy. rewrite isValidPiecePosition_canPlace. by apply Hall.
  - unfold isOnGround, canMove. apply negb_true_iff. simpl.
    rewrite Z.add_0_r. replace (calculateGhostY b piece + -1) with (calculateGhostY b piece - 1) by lia.
    apply calculateGhostY_completes.
Qed.

Lemma calculateGhostY_resting_witness :
  isValidPiecePosition notchBoard uprightT = true
  ∧ calculateGhostY notchBoard uprightT <= pos_y (position uprightT)
  ∧ (∀ y, calculateGhostY notchBoard uprightT <= y <= pos_y (position uprightT) ->
          isValidPiecePosition notchBoard
            (withPosition uprightT (mkPos (pos_x (position uprightT)) y)) = true)
  ∧ isOnGround notchBoard
      (withPosition uprightT
         (mkPos (pos_x (position uprightT)) (calculateGhostY notchBoard uprightT))) = true
  ∧ (getDropPositions notchBoard uprightT).1
    = getPieceBlocks (withPosition uprightT
                        (mkPos (pos_x (position uprightT))
                               (calculateGhostY notchBoard uprightT)))
  ∧ 0 <= (getDropPositions notchBoard uprightT).2.
Proof.
  assert (H : isValidPiecePosition notchBoard uprightT = true)
    by (vm_compute; reflexivity).
  split; [exact H|]. exact (calculateGhostY_resting notchBoard uprightT H).
Defined.

(** ** Moves *)

(** X12. A move that succeeds lands on a legal placement, displaced by exactly
    [(dx, dy)], and changes nothing else of the piece; from a legal
    placement it can always be undone by the opposite move. *)
Theorem tryMove_undo b piece dx dy moved :
  isValidPiecePosition b piece = true ->
  tryMove b piece dx dy = Some moved ->
  isValidPiecePosition b moved = true
  ∧ moved = withPosition piece (mkPos (pos_x (position piece) + dx)
                                      (pos_y (position piece) + dy))
  ∧ tryMove b moved (- dx) (- dy) = Some piece.
Proof.
  intros Hvalid. unfold tryMove.
  destruct (canMove b piece dx dy) eqn:Hmove; [|done]. simpl.
  intros [= <-]. split; [|split; [done|]].
  - by rewrite isValidPiecePosition_canPlace.
  - unfold canMove. simpl.
    replace (pos_x (position piece) + dx + - dx) with (pos_x (position piece)) by lia.
    replace (pos_y (position piece) + dy + - dy) with (pos_y (position piece)) by lia.
    rewrite isValidPiecePosition_canPlace, <- position_eta in Hvalid. rewrite Hvalid. simpl.
    f_equal. destruct piece as [t [x y] r g ld sd]. reflexivity.
Qed.

Lemma tryMove_undo_witness :
  isValidPiecePosition (boardOf []) floorT = true
  ∧ tryMove (boardOf []) floorT 1 0 = Some (withPosition floorT (mkPos 5 1))
  ∧ isValidPiecePosition (boardOf []) (withPosition floorT (mkPos 5 1)) = true
  ∧ withPosition floorT (mkPos 5 1)
    = withPosition floorT (mkPos (pos_x (position floorT) + 1)
                                 (pos_y (position floorT) + 0))
  ∧ tryMove (boardOf []) (withPosition floorT (mkPos 5 1)) (- 1) (- 0) = Some floorT.
Proof.
  assert (H1 : isValidPiecePosition (boardOf []) floorT = true)
    by (vm_compute; reflexivity).
  assert (H2 : tryMove (boardOf []) floorT 1 0 = Some (withPosition floorT (mkPos 5 1)))
    by (vm_compute; reflexivity).
  split; [exact H1|]. split; [exact H2|].
  exact (tryMove_undo (boardOf []) floorT 1 0 _ H1 H2).
Defined.

(** ** The T-spin verdict *)

(** X13. The verdict of [detectTSpin]: a T-spin is reported exactly for a T
    piece with at least three of its four corners filled; a mini is only
    ever reported together with a T-spin, and never when the rotation was a
    wall kick with kick index 4. *)
Theorem detectTSpin_verdict b piece wasKick kick :
  (isTSpin (detectTSpin b piece wasKick kick) = true
   <-> ptype piece = TT ∧ 3 <= countFilled b (tSpinCorners piece))
  ∧ (isMini (detectTSpin b piece wasKick kick) = true
     -> isTSpin (detectTSpin b piece wasKick kick) = true
        ∧ ¬ (wasKick = true ∧ kick = 4)).
Proof.
  unfold detectTSpin.
  destruct (decide (ptype piece = TT)) as [Ht|Ht].
  - rewrite (bool_decide_eq_true_2 _ Ht). simpl.
    case_bool_decide as Hc.
    + simpl. split; [|done]. split; [done|]. intros [_ ?]. lia.
    + destruct (getFrontCornerIndices (rotation piece)) as [i1 i2]. simpl.
      split; [split; [intros _; split; [done|lia]|done]|].
      intros Hmini. split; [done|]. intros [-> ->].
      rewrite (bool_decide_eq_true_2 (4 = 4)) in Hmini by done.
      by rewrite andb_false_r in Hmini.
  - rewrite (bool_decide_eq_false_2 _ Ht). simpl. split; [|done].
    split; [done|]. by intros [? _].
Qed.

(** ** Rotations in the three directions *)

Section Rotations.

Variable b : BoardState.

Lemma kickSearch_found piece rot kicks i :
  success (kickSearch b piece rot kicks i) = true ->
  ∃ kick, kick ∈ kicks
    ∧ newPiece (kickSearch b piece rot kicks i)
      = Some (withRotation
                (withPosition piece (mkPos (pos_x (position piece) + pos_x kick)
                                           (pos_y (position piece) + pos_y kick))) rot)
    ∧ canPlacePiece b (ptype piece)
        (mkPos (pos_x (position piece) + pos_x kick)
               (pos_y (position piece) + pos_y kick)) rot = true
    ∧ i <= kickIndex (kickSearch b piece rot kicks i) < i + Z.of_nat (length kicks)
    ∧ wasWallKick (kickSearch b piece rot kicks i)
      = bool_decide (kickIndex (kickSearch b piece rot kicks i) > 0).
Proof.
  revert i. induction kicks as [|kick rest IH]; intros i; [done|]. simpl.
  destruct (canPlacePiece _ _ _ _) eqn:Hplace; simpl.
  - intros _. exists kick. split; [by left|]. repeat split; (done || lia).
  - intros Hs. destruct (IH (i + 1) Hs) as (k & Hin & Hp & Hc & Hi & Hw).
    exists k. split; [by right|]. repeat split; (done || lia).
Qed.

Lemma kickSearch_failed piece rot kicks i :
  success (kickSearch b piece rot kicks i) = false ->
  kickSearch b piece rot kicks i = rotationFailed.
Proof.
  revert i. induction kicks as [|kick rest IH]; intros i; [done|]. simpl.
  destruct (canPlacePiece _ _ _ _); [done|]. apply IH.
Qed.

Lemma kicks_length t key : (length (getWallKicks t key) <= 5)%nat.
Proof. destruct t, key; simpl; lia. Qed.

Lemma tryRotateQuarter_sound piece d :
  soundResult b piece (getNewRotation (rotation piece) d) (tryRotateQuarter b piece d).
Proof.
  unfold soundResult, tryRotateQuarter.
  destruct (getWallKickKey _ _) as [key|]; [|done].
  destruct (success (kickSearch _ _ _ _ _)) eqn:Hs.
  - destruct (kickSearch_found _ _ _ _ Hs) as (kick & _ & Hp & Hc & Hi & Hw).
    pose proof (kicks_length (ptype piece) key). split; [|split; [lia|done]].
    eexists. split; [exact Hp|]. split; [|done].
    by rewrite isValidPiecePosition_canPlace.
  - by apply kickSearch_failed.
Qed.

Lemma withRotation_twice piece pos1 rot1 pos2 rot2 :
  withRotation (withPosition (withRotation (withPosition piece pos1) rot1) pos2) rot2
  = withRotation (withPosition piece pos2) rot2.
Proof. done. Qed.

Lemma getNewRotation_twice r d :
  d ≠ r180 -> getNewRotation (getNewRotation r d) d = getNewRotation r r180.
Proof. by destruct r, d. Qed.

Lemma tryRotate_sound piece d :
  soundResult b piece (getNewRotation (rotation piece) d) (tryRotate b piece d).
Proof.
  destruct d; [apply tryRotateQuarter_sound..|].
  assert (Hplain :
    soundResult b piece (getNewRotation (rotation piece) r180)
      (if canPlacePiece b (ptype piece) (position piece)
                        (getNewRotation (rotation piece) r180)
       then mkRotationResult true
              (Some (withRotation piece (getNewRotation (rotation piece) r180))) false 0
       else rotationFailed)).
  { unfold soundResult. destruct (canPlacePiece _ _ _ _) eqn:Hplace; [|done]. simpl.
    split; [|done]. eexists. split; [done|]. split.
    - by rewrite isValidPiecePosition_canPlace.
    - by destruct piece. }
  assert (Htwo : ∀ d' p,
    d' ≠ r180 ->
    newPiece (tryRotateQuarter b piece d') = Some p ->
    success (tryRotateQuarter b piece d') = true ->
    success (tryRotateQuarter b p d') = true ->
    soundResult b piece (getNewRotation (rotation piece) r180) (tryRotateQuarter b p d')).
  { intros d' p Hd' Hp Hs1 Hs2.
    pose proof (tryRotateQuarter_sound piece d') as H1.
    pose proof (tryRotateQuarter_sound p d') as H2.
    unfold soundResult in *. rewrite Hs1 in H1. rewrite Hs2 in H2. rewrite Hs2.
    destruct H1 as [(p1 & Hp1 & _ & Heq1) _]. rewrite Hp in Hp1. injection Hp1 as <-.
    destruct H2 as [(p2 & Hp2 & Hv2 & Heq2) Hrest]. split; [|done].
    exists p2. split; [done|]. split; [done|].
    rewrite Heq2. rewrite Heq1 at 1 2. rewrite withRotation_twice.
    cbn [position withRotation withPosition]. f_equal.
    rewrite Heq1. cbn [rotation withRotation]. by apply getNewRotation_twice. }
  unfold tryRotate.
  destruct (success (tryRotateQuarter b piece cw)) eqn:Hs1;
    destruct (newPiece (tryRotateQuarter b piece cw)) as [p1|] eqn:Hp1;
    try (destruct (success (tryRotateQuarter b p1 cw)) eqn:Hs1';
         [by apply (Htwo cw p1)|]);
    (destruct (success (tryRotateQuarter b piece ccw)) eqn:Hs2;
     destruct (newPiece (tryRotateQuarter b piece ccw)) as [p2|] eqn:Hp2;
     try (destruct (success (tryRotateQuarter b p2 ccw)) eqn:Hs2';
          [by apply (Htwo ccw p2)|]);
     exact Hplain).
Qed.

End Rotations.

(** X14. A rotation that succeeds, in any of the three directions, returns a
    piece in a legal placement, of the same type, in the rotation state the
    direction leads to, with its lock delay, ghost row and soft-drop count
    untouched; [rotatePiece] returns that piece, and [null] exactly when the
    rotation fails. *)
Theorem tryRotate_legal b piece d :
  success (tryRotate b piece d) = true ->
  ∃ p, newPiece (tryRotate b piece d) = Some p
       ∧ rotatePiece b piece d
         = Some (p, wasWallKick (tryRotate b piece d), kickIndex (tryRotate b piece d))
       ∧ isValidPiecePosition b p = true
       ∧ ptype p = ptype piece
       ∧ rotation p = getNewRotation (rotation piece) d
       ∧ lockDelay p = lockDelay piece
       ∧ ghostY p = ghostY piece
       ∧ softDropCells p = softDropCells piece.
Proof.
  intros Hs. pose proof (tryRotate_sound b piece d) as Hsound.
  unfold soundResult in Hsound. rewrite Hs in Hsound.
  destruct Hsound as [(p & Hp & Hv & Heq) _]. exists p.
  split; [done|]. split; [by unfold rotatePiece; rewrite Hs, Hp|]. split; [done|].
  rewrite Heq. done.
Qed.

Lemma tryRotate_legal_witness :
  success (tryRotate notchBoard uprightT ccw) = true
  ∧ ∃ p, newPiece (tryRotate notchBoard uprightT ccw) = Some p
         ∧ rotatePiece notchBoard uprightT ccw
           = Some (p, wasWallKick (tryRotate notchBoard uprightT ccw),
                   kickIndex (tryRotate notchBoard uprightT ccw))
         ∧ isValidPiecePosition notchBoard p = true
         ∧ ptype p = ptype uprightT
         ∧ rotation p = getNewRotation (rotation uprightT) ccw
         ∧ lockDelay p = lockDelay uprightT
         ∧ ghostY p = ghostY uprightT
         ∧ softDropCells p = softDropCells uprightT.
Proof.
  assert (H : success (tryRotate notchBoard uprightT ccw) = true)
    by (vm_compute; reflexivity).
  split; [exact H|]. exact (tryRotate_legal notchBoard uprightT ccw H).
Defined.

(** What a rotation result reports: on success a kick index between 0
    and 4, with the wall-kick flag set exactly when the index is not 0; on
    failure no piece, no wall kick and the index -1, and [rotatePiece]
    returns [null]. *)
Lemma tryRotate_report b piece d :
  (success (tryRotate b piece d) = true
   -> 0 <= kickIndex (tryRotate b piece d) <= 4
      ∧ wasWallKick (tryRotate b piece d)
        = bool_decide (kickIndex (tryRotate b piece d) > 0))
  ∧ (success (tryRotate b piece d) = false
     -> newPiece (tryRotate b piece d) = None
        ∧ wasWallKick (tryRotate b piece d) = false
        ∧ kickIndex (tryRotate b piece d) = -1
        ∧ rotatePiece b piece d = None).
Proof.
  pose proof (tryRotate_sound b piece d) as Hsound. unfold soundResult in Hsound.
  unfold rotatePiece.
  destruct (success (tryRotate b piece d)); split; try done.
  - intros _. by destruct Hsound as (_ & ? & ?).
  - intros _. by rewrite Hsound.
Qed.

(** X15. An O piece rotates in place: from a legal placement every rotation
    succeeds through the first kick, keeps the position, and leaves the
    four blocks of the piece where they were. *)
Theorem rotate_O_in_place b piece d :
  ptype piece = TO ->
  isValidPiecePosition b piece = true ->
  rotatePiece b piece d
  = Some (withRotation piece (getNewRotation (rotation piece) d), false, 0)
  ∧ getPieceBlocks (withRotation piece (getNewRotation (rotation piece) d))
    = getPieceBlocks piece.
Proof.
  intros Ht Hvalid. rewrite isValidPiecePosition_canPlace in Hvalid.
  assert (Hany : ∀ r, canPlacePiece b (ptype piece) (position piece) r = true).
  { intros r. rewrite <- Hvalid. unfold canPlacePiece. by rewrite Ht. }
  assert (Hquarter : ∀ p d', d' ≠ r180 -> ptype p = TO ->
            position p = position piece ->
            tryRotateQuarter b p d'
            = mkRotationResult true
                (Some (withRotation p (getNewRotation (rotation p) d'))) false 0).
  { intros p d' Hd' Htp Hpos. unfold tryRotateQuarter.
    destruct (getWallKickKey_quarter (rotation p) d' Hd') as [key ->].
    unfold getWallKicks. rewrite Htp. simpl.
    rewrite !Z.add_0_r, position_eta, Hpos.
    rewrite Htp, <- Ht, Hany, <- Hpos. by destruct p as [t [x y] r g ld sd]. }
  split; [|by unfold getPieceBlocks; simpl; rewrite Ht].
  unfold rotatePiece, tryRotate.
  destruct d; [by rewrite Hquarter..|].
  rewrite (Hquarter piece cw) by done. cbn [success newPiece].
  rewrite (Hquarter _ cw) by done. cbn [success newPiece wasWallKick kickIndex].
  do 3 f_equal. destruct piece as [t pos r g ld sd]. unfold withRotation. simpl.
  f_equal. by destruct r.
Qed.

Lemma rotate_O_in_place_witness :
  ptype restingO = TO
  ∧ isValidPiecePosition (boardOf []) restingO = true
  ∧ rotatePiece (boardOf []) restingO r180
    = Some (withRotation restingO (getNewRotation (rotation restingO) r180), false, 0)
  ∧ getPieceBlocks (withRotation restingO (getNewRotation (rotation restingO) r180))
    = getPieceBlocks restingO.
Proof.
  assert (H1 : ptype restingO = TO) by reflexivity.
  assert (H2 : isValidPiecePosition (boardOf []) restingO = true)
    by (vm_compute; reflexivity).
  split; [exact H1|]. split; [exact H2|].
  exact (rotate_O_in_place (boardOf []) restingO r180 H1 H2).
Defined.

(** ** Clear types *)

(** The clear type of a lock is difficult (it counts for back-to-back)
    exactly when the lock is a T-spin or clears four lines; [getClearType]
    never answers perfect-clear. *)
Lemma getClearType_difficult lineCount tspin mini :
  isDifficultClear (getClearType lineCount tspin mini)
  = tspin || bool_decide (lineCount = 4)
  ∧ getClearType lineCount tspin mini ≠ PerfectClear.
Proof.
  unfold getClearType.
  destruct tspin, mini; simpl; try done;
    (destruct lineCount as [|p|p]; [done| |done]);
    do 3 (try destruct p as [p|p|]); done.
Qed.

(** ** Points of a clear *)

Lemma Qcfloor_three_halves (p : Z) : Qcfloor (Qc_of_Z p * qc 3 2) = p + p / 2.
Proof.
  unfold Qcfloor. change (this (Qc_of_Z p * qc 3 2)) with (Qred (inject_Z p * Qred (3 # 2))).
  rewrite Qred_correct. change (Qred (3 # 2)) with (3 # 2)%Q.
  unfold Qfloor, Qmult, inject_Z. simpl. rewrite Z.mul_comm.
  change (Z.pos 2) with 2. Z.div_mod_to_equations. lia.
Qed.

Lemma calculateClearPoints_bounds clearType lvl cmb :
  calculateClearPoints clearType lvl cmb true DEFAULT_SCORING_CONFIG
  = calculateClearPoints clearType lvl cmb false DEFAULT_SCORING_CONFIG
    + calculateClearPoints clearType lvl cmb false DEFAULT_SCORING_CONFIG / 2
  ∧ (0 <= lvl ->
     0 <= basePoints DEFAULT_SCORING_CONFIG clearType * lvl
       <= calculateClearPoints clearType lvl cmb false DEFAULT_SCORING_CONFIG
     ∧ calculateClearPoints clearType lvl cmb false DEFAULT_SCORING_CONFIG
       <= calculateClearPoints clearType lvl cmb true DEFAULT_SCORING_CONFIG).
Proof.
  unfold calculateClearPoints.
  change (sc_backToBackMultiplier DEFAULT_SCORING_CONFIG) with (qc 3 2).
  rewrite Qcfloor_three_halves. split; [done|]. intros Hlvl.
  assert (Hbase : 0 <= basePoints DEFAULT_SCORING_CONFIG clearType)
    by (destruct clearType; simpl; lia).
  change (comboBonus DEFAULT_SCORING_CONFIG) with 50.
  set (base := basePoints DEFAULT_SCORING_CONFIG clearType) in *.
  assert (0 <= base * lvl) by nia.
  case_bool_decide as Hc.
  - assert (0 <= 50 * cmb * lvl) by nia. split; [lia|].
    Z.div_mod_to_equations. lia.
  - split; [lia|]. Z.div_mod_to_equations. lia.
Qed.

Lemma calculateClearPoints_nonneg clearType lvl cmb isBackToBack :
  0 <= lvl -> 0 <= calculateClearPoints clearType lvl cmb isBackToBack DEFAULT_SCORING_CONFIG.
Proof.
  intros Hlvl. destruct (calculateClearPoints_bounds clearType lvl cmb) as [_ H].
  specialize (H Hlvl). destruct isBackToBack; lia.
Qed.

(** ** Heat levels *)

Local Open Scope Qc_scope.

Lemma HEAT_THRESHOLDS_mono l1 l2 :
  (heatRank l1 <= heatRank l2)%Z -> HEAT_THRESHOLDS l1 ≤ HEAT_THRESHOLDS l2.
Proof. destruct l1, l2; simpl; intros H; try done; lia. Qed.

(** X16. [getHeatLevel] returns the highest level whose threshold the heat
    has reached, and cold when it has reached none: a level ranks at or
    below the level returned exactly when it is cold or the heat is at or
    above its threshold.  The level returned therefore never goes down
    when the heat goes up. *)
Theorem getHeatLevel_threshold heat l :
  ((heatRank l <= heatRank (getHeatLevel heat))%Z
   <-> l = cold ∨ HEAT_THRESHOLDS l ≤ heat)
  ∧ ∀ heat', heat ≤ heat' ->
      (heatRank (getHeatLevel heat) <= heatRank (getHeatLevel heat'))%Z.
Proof.
  assert (Hspec : ∀ h l',
            (heatRank l' <= heatRank (getHeatLevel h))%Z
            <-> l' = cold ∨ HEAT_THRESHOLDS l' ≤ h).
  { intros h l'. unfold getHeatLevel.
    repeat case_bool_decide; simpl;
      (split;
       [intros Hrank;
        first [ left; by destruct l'; simpl in Hrank; try lia
              | right;
                match goal with
                | H : HEAT_THRESHOLDS ?top ≤ h |- _ =>
                    apply Qcle_trans with (HEAT_THRESHOLDS top);
                    [apply HEAT_THRESHOLDS_mono; destruct l'; simpl in *; lia|done]
                end ]
       |intros [->|Hreach]; [simpl; lia|];
        destruct l'; simpl; try lia; exfalso;
        repeat match goal with
               | H : ¬ HEAT_THRESHOLDS ?lv ≤ h |- _ =>
                   apply H; apply Qcle_trans with (2 := Hreach); done
               end]). }
  split; [apply Hspec|].
  intros heat' Hle. apply Hspec.
  destruct (proj1 (Hspec heat (getHeatLevel heat)) ltac:(lia)) as [Hc|Hreach];
    [by left|right]. by apply Qcle_trans with heat.
Qed.

Local Close Scope Qc_scope.

(** ** Gravity by level *)

(** Gravity is one cell per second at level 1, grows strictly with
    every level up to level 20, and stays at the level-20 value from there
    on. *)
Lemma calculateGravity_levels :
  calculateGravity 1 = 1%Qc
  ∧ (∀ l, 1 <= l < 20 -> (calculateGravity l < calculateGravity (l + 1))%Qc)
  ∧ (∀ l, 20 <= l -> calculateGravity l = calculateGravity 20).
Proof.
  split; [by apply Qc_is_canon|]. split.
  - intros l Hl.
    assert (Hall : Forall (fun l => (calculateGravity l < calculateGravity (l + 1))%Qc)
                          (seqZ 1 19))
      by (apply (bool_decide_unpack _); vm_compute; exact I).
    rewrite Forall_forall in Hall. apply Hall, elem_of_seqZ. lia.
  - intros l Hl. unfold calculateGravity. by rewrite !Z.min_r by lia.
Qed.

(** ** The lock delay resets *)

Lemma resetLockDelay_fields piece cfg :
  ptype (resetLockDelay piece cfg) = ptype piece
  ∧ position (resetLockDelay piece cfg) = position piece
  ∧ rotation (resetLockDelay piece cfg) = rotation piece
  ∧ ghostY (resetLockDelay piece cfg) = ghostY piece
  ∧ softDropCells (resetLockDelay piece cfg) = softDropCells piece
  ∧ ld_maxResets (lockDelay (resetLockDelay piece cfg)) = ld_maxResets (lockDelay piece)
  ∧ ld_active (lockDelay (resetLockDelay piece cfg)) = ld_active (lockDelay piece).
Proof. unfold resetLockDelay. by case_bool_decide. Qed.

(** X17. The lock delay can be refreshed a bounded number of times: after
    [k] moves on the ground the reset counter is the smaller of the counter
    plus [k] and the maximum, so from the maximum on a move no longer
    restores the timer; the placement of the piece is never touched. *)
Theorem resetLockDelay_bounded piece cfg k :
  ld_moveResets (lockDelay piece) <= ld_maxResets (lockDelay piece) ->
  ld_moveResets (lockDelay (resetTimes k piece cfg))
  = Z.min (ld_maxResets (lockDelay piece)) (ld_moveResets (lockDelay piece) + Z.of_nat k)
  ∧ position (resetTimes k piece cfg) = position piece
  ∧ rotation (resetTimes k piece cfg) = rotation piece
  ∧ (ld_moveResets (lockDelay piece) = ld_maxResets (lockDelay piece)
     -> resetTimes k piece cfg = piece).
Proof.
  intros Hle. unfold resetTimes. induction k as [|k IH].
  - simpl. split; [lia|done].
  - rewrite Nat.iter_succ. destruct IH as (Hcount & Hpos & Hrot & Hfull).
    set (p := Nat.iter k (fun p => resetLockDelay p cfg) piece) in *.
    destruct (resetLockDelay_fields p cfg) as (_ & Hp & Hr & _ & _ & Hmax & _).
    assert (Hmaxp : ld_maxResets (lockDelay p) = ld_maxResets (lockDelay piece)).
    { clear -p. subst p. induction k as [|k IH]; [done|].
      rewrite Nat.iter_succ. destruct (resetLockDelay_fields
        (Nat.iter k (fun p => resetLockDelay p cfg) piece) cfg) as (_ & _ & _ & _ & _ & -> & _).
      done. }
    split; [|split; [congruence|split; [congruence|]]].
    + unfold resetLockDelay. case_bool_decide as Hfullp; simpl; lia.
    + intros Heq. rewrite (Hfull Heq). unfold resetLockDelay.
      by rewrite bool_decide_eq_true_2 by lia.
Qed.

Lemma resetLockDelay_bounded_witness :
  ld_moveResets (lockDelay floorT) <= ld_maxResets (lockDelay floorT)
  ∧ ld_moveResets (lockDelay (resetTimes 20 floorT DEFAULT_GAME_CONFIG))
    = Z.min (ld_maxResets (lockDelay floorT))
            (ld_moveResets (lockDelay floorT) + Z.of_nat 20)
  ∧ position (resetTimes 20 floorT DEFAULT_GAME_CONFIG) = position floorT
  ∧ rotation (resetTimes 20 floorT DEFAULT_GAME_CONFIG) = rotation floorT
  ∧ (ld_moveResets (lockDelay floorT) = ld_maxResets (lockDelay floorT)
     -> resetTimes 20 floorT DEFAULT_GAME_CONFIG = floorT).
Proof.
  assert (H : ld_moveResets (lockDelay floorT) <= ld_maxResets (lockDelay floorT))
    by (simpl; lia).
  split; [exact H|]. exact (resetLockDelay_bounded floorT DEFAULT_GAME_CONFIG 20 H).
Defined.

(** ** Spawning on an empty board *)

Lemma spawnPiece_Some b t cfg p :
  spawnPiece b t cfg = Some p ->
  ptype p = t
  ∧ position p = spawnPosition b
  ∧ rotation p = R0
  ∧ lockDelay p = mkLockDelay false (cfg_lockDelay cfg) 0 (lockDelayResets cfg)
  ∧ softDropCells p = 0
  ∧ ghostY p = calculateGhostY b p
  ∧ isValidPiecePosition b p = true.
Proof.
  unfold spawnPiece. destruct (isValidPiecePosition _ _) eqn:Hvalid; [|done].
  simpl. intros [= <-]. done.
Qed.

Lemma canPlacePiece_empty b t pos r :
  cells b = ∅ ->
  (∀ o, o ∈ TETROMINO_SHAPES t r ->
        0 <= pos_x pos + pos_x o < width (config b)
        ∧ 0 <= pos_y pos + pos_y o < totalHeight b) ->
  canPlacePiece b t pos r = true.
Proof.
  intros Hempty Hin. unfold canPlacePiece. apply forallb_forall. intros o Ho.
  apply list_elem_of_In, Hin in Ho. apply andb_true_iff. split.
  - by apply isValidPosition_true.
  - unfold isCellOccupied. rewrite Hempty, lookup_empty.
    apply negb_true_iff, bool_decide_eq_false. by intros [? ?].
Qed.

Lemma spawnPiece_empty b t cfg :
  cells b = ∅ ->
  4 <= width (config b) ->
  1 <= height (config b) ->
  2 <= bufferRows (config b) ->
  ∃ p, spawnPiece b t cfg = Some p.
Proof.
  intros Hempty Hw Hh Hb.
  destruct (spawnPiece b t cfg) as [p|] eqn:Hspawn; [by exists p|].
  apply spawnPiece_None in Hspawn. rewrite canPlacePiece_empty in Hspawn; [done..|].
  intros o Ho. unfold spawnPosition, totalHeight. simpl.
  assert (2 <= width (config b) / 2) by (apply Z.div_le_lower_bound; lia).
  assert (width (config b) / 2 + 1 < width (config b))
    by (Z.div_mod_to_equations; lia).
  destruct t; simpl in Ho; repeat (apply elem_of_cons in Ho as [->|Ho]);
    try (by apply elem_of_nil in Ho); simpl; lia.
Qed.

(** On an empty board at least four columns wide, with at least one
    visible row and two buffer rows, every piece type spawns: the piece
    stands in the spawn rotation at the centred spawn position, in a legal
    placement, with a fresh lock delay taken from the configuration and its
    ghost row already computed. *)
Lemma spawnPiece_empty_board b t cfg :
  cells b = ∅ ->
  4 <= width (config b) ->
  1 <= height (config b) ->
  2 <= bufferRows (config b) ->
  ∃ p, spawnPiece b t cfg = Some p
       ∧ ptype p = t
       ∧ position p = mkPos (width (config b) / 2 - 1) (height (config b))
       ∧ rotation p = R0
       ∧ lockDelay p = mkLockDelay false (cfg_lockDelay cfg) 0 (lockDelayResets cfg)
       ∧ ghostY p = calculateGhostY b p
       ∧ isValidPiecePosition b p = true.
Proof.
  intros Hempty Hw Hh Hb.
  destruct (spawnPiece_empty b t cfg Hempty Hw Hh Hb) as [p Hspawn].
  exists p. split; [done|].
  by destruct (spawnPiece_Some _ _ _ _ Hspawn) as (? & ? & ? & ? & ? & ? & ?).
Qed.

(** ** The shuffle *)

Lemma insert_head_Permutation {A} (l : list A) (j : nat) (b x : A) :
  l !! j = Some b -> b :: <[j := x]> l ≡ₚ x :: l.
Proof.
  revert j. induction l as [|y l IH]; intros [|j] Hj; try done; simpl in *.
  - injection Hj as ->. apply perm_swap.
  - rewrite perm_swap, (IH j Hj). apply perm_swap.
Qed.

Lemma swapPieces_Permutation pieces i j : swapPieces pieces i j ≡ₚ pieces.
Proof.
  unfold swapPieces.
  destruct (pieces !! i) as [a|] eqn:Hi; [|done].
  destruct (pieces !! j) as [b|] eqn:Hj; [|done].
  revert i j Hi Hj. induction pieces as [|x l IH]; intros [|i] [|j] Hi Hj;
    try done; simpl in *.
  - by injection Hi as ->; injection Hj as ->.
  - injection Hi as ->. by apply insert_head_Permutation.
  - injection Hj as ->. by apply insert_head_Permutation.
  - by rewrite (IH i j).
Qed.

Section Shuffle.

Variable rnd : nat -> Qc.

Lemma shuffleFrom_Permutation i pieces n :
  ∃ l, shuffleFrom rnd i pieces n = Some (l, (n + i)%nat) ∧ l ≡ₚ pieces.
Proof.
  revert pieces n. induction i as [|i IH]; intros pieces n.
  - exists pieces. split; [|done]. simpl. unfold mret, eff_ret. do 2 f_equal. lia.
  - simpl. unfold mbind, eff_bind, random.
    destruct (IH (swapPieces pieces (S i)
                    (Z.to_nat (Qcfloor (rnd n * Qc_of_Z (Z.of_nat (S i) + 1)))))
                 (S n)) as (l & Hl & Hperm).
    exists l. rewrite Hl. split; [do 2 f_equal; lia|].
    by rewrite Hperm, swapPieces_Permutation.
Qed.

Lemma createBag_Permutation n :
  ∃ l, createBag rnd n = Some (l, (n + 6)%nat) ∧ l ≡ₚ allPieceTypes.
Proof. apply (shuffleFrom_Permutation 6 allPieceTypes n). Qed.

Lemma createPieceBag_returns previewCnt n :
  ∃ bg, createPieceBag rnd previewCnt n = Some (bg, (n + 12)%nat)
        ∧ current bg ≡ₚ allPieceTypes
        ∧ next bg ≡ₚ allPieceTypes
        ∧ preview bg = take (Z.to_nat previewCnt) (current bg ++ next bg).
Proof.
  unfold createPieceBag, mbind, eff_bind.
  destruct (createBag_Permutation n) as (cur & -> & Hcur).
  destruct (createBag_Permutation (n + 6)) as (nxt & -> & Hnxt).
  eexists. split; [unfold mret, eff_ret; do 2 f_equal; lia|]. done.
Qed.

End Shuffle.

(** X18. Whatever [Math.random] returns, the Fisher-Yates shuffle of
    [createBag] reads six random numbers and returns the seven piece types,
    each exactly once. *)
Theorem createBag_each_type_once rnd n :
  unitRandom rnd ->
  ∃ l, createBag rnd n = Some (l, (n + 6)%nat)
       ∧ l ≡ₚ allPieceTypes
       ∧ ∀ t, count_occ TetrominoType_eq_dec l t = 1%nat.
Proof.
  intros _. destruct (createBag_Permutation rnd n) as (l & Hl & Hperm).
  exists l. split; [done|]. split; [done|]. intros t.
  rewrite (Permutation_count_occ TetrominoType_eq_dec l allPieceTypes) in Hperm.
  rewrite Hperm. by destruct t.
Qed.

Lemma createBag_each_type_once_witness :
  unitRandom constRnd
  ∧ ∃ l, createBag constRnd 0%nat = Some (l, (0 + 6)%nat)
         ∧ l ≡ₚ allPieceTypes
         ∧ ∀ t, count_occ TetrominoType_eq_dec l t = 1%nat.
Proof.
  assert (H : unitRandom constRnd) by (intros n; split; done).
  split; [exact H|]. exact (createBag_each_type_once constRnd 0%nat H).
Defined.

(** ** The initial state *)

Lemma createGameState_returns rnd now mode cfg n :
  ∃ bg, createPieceBag rnd (previewCount cfg) n = Some (bg, (n + 12)%nat)
    ∧ current bg ≡ₚ allPieceTypes
    ∧ next bg ≡ₚ allPieceTypes
    ∧ preview bg = take (Z.to_nat (previewCount cfg)) (current bg ++ next bg)
    ∧ createGameState rnd now mode cfg n
      = Some (mkGameState menu
                (createBoard (mkBoardConfig (boardWidth cfg) (boardHeight cfg) 4) now)
                None createHoldState bg createScoreState createComboState
                createStreakState (createTimingState (startLevel cfg)) createInputState
                (createModeState mode) []
                (Qcfloor (rnd (n + 12)%nat * Qc_of_Z 2147483647)),
              (n + 13)%nat).
Proof.
  destruct (createPieceBag_returns rnd (previewCount cfg) n) as (bg & Hbg & Hc & Hn & Hp).
  exists bg. repeat (split; [done|]).
  unfold createGameState, mbind, eff_bind, random. rewrite Hbg.
  unfold mret, eff_ret. do 2 f_equal. lia.
Qed.

(** The state [createGameState] returns: the menu phase, an empty board
    of the configured size with four buffer rows, no active piece, an empty
    and available hold, both queues of the bag a shuffle of the seven piece
    types with the preview their first [previewCount] pieces, a score of 0
    at level 1 whatever the start level (which only sets the gravity), the
    mode asked for, and a seed below 2147483647; thirteen random numbers
    are read. *)
Lemma createGameState_fresh rnd now mode cfg n :
  unitRandom rnd ->
  ∃ s, createGameState rnd now mode cfg n = Some (s, (n + 13)%nat)
    ∧ phase s = menu
    ∧ cells (board s) = ∅
    ∧ config (board s) = mkBoardConfig (boardWidth cfg) (boardHeight cfg) 4
    ∧ activePiece s = None
    ∧ hold s = mkHold None true
    ∧ current (bag s) ≡ₚ allPieceTypes
    ∧ next (bag s) ≡ₚ allPieceTypes
    ∧ preview (bag s)
      = take (Z.to_nat (previewCount cfg)) (current (bag s) ++ next (bag s))
    ∧ score (gs_score s) = 0
    ∧ level (gs_score s) = 1
    ∧ gravitySpeed (timing s) = calculateGravity (startLevel cfg)
    ∧ combo s = mkCombo 0 0 false 0
    ∧ modeOf (modeState s) = mode
    ∧ 0 <= seed s < 2147483647.
Proof.
  intros Hrnd.
  destruct (createGameState_returns rnd now mode cfg n) as (bg & _ & Hc & Hn & Hp & ->).
  eexists. split; [reflexivity|]. simpl.
  repeat (split; [done|]). split; [by destruct mode|].
  destruct (Hrnd (n + 12)%nat) as [Hlo Hhi]. by apply random_index.
Qed.

(** [resetGameState] returns a freshly created state of the mode the old
    state was in, in the countdown phase: nothing else of the old state
    survives. *)
Lemma resetGameState_fresh rnd now state cfg n :
  ∃ s, createGameState rnd now (modeOf (modeState state)) cfg n = Some (s, (n + 13)%nat)
       ∧ resetGameState rnd now state cfg n = Some (withPhase s countdown, (n + 13)%nat)
       ∧ modeOf (modeState (withPhase s countdown)) = modeOf (modeState state)
       ∧ phase (withPhase s countdown) = countdown.
Proof.
  destruct (createGameState_returns rnd now (modeOf (modeState state)) cfg n)
    as (bg & _ & _ & _ & _ & Hcreate).
  eexists. split; [exact Hcreate|].
  unfold resetGameState, mbind, eff_bind. rewrite Hcreate.
  split; [done|]. split; [|done]. simpl. by destruct (modeOf (modeState state)).
Qed.

(** ** A property kept by every step is kept by the update *)

Lemma withLockDelay_id piece : withLockDelay piece (lockDelay piece) = piece.
Proof. by destruct piece. Qed.

Lemma activateLockDelay_form piece :
  ∃ ld, activateLockDelay piece = withLockDelay piece ld.
Proof.
  unfold activateLockDelay. destruct (ld_active _); [|by eexists].
  exists (lockDelay piece). by rewrite withLockDelay_id.
Qed.

Lemma deactivateLockDelay_form piece :
  ∃ ld, deactivateLockDelay piece = withLockDelay piece ld.
Proof.
  unfold deactivateLockDelay. destruct (negb _); [|by eexists].
  exists (lockDelay piece). by rewrite withLockDelay_id.
Qed.

Lemma updateLockDelay_form piece deltaMs :
  ∃ ld, updateLockDelay (activateLockDelay piece) deltaMs = withLockDelay piece ld.
Proof.
  destruct (activateLockDelay_form piece) as [ld ->].
  unfold updateLockDelay. destruct (negb _); by eexists.
Qed.

Section Invariant.

Variable rnd : nat -> Qc.
Variable now : Z.
Variable cfg : GameConfig.
Variable deltaMs : Qc.

(** A property of the game state that each step of a tick preserves. *)
Variable Q : GameState -> Prop.
Hypothesis hold_keeps :
  ∀ s n r n', Q s -> processHold rnd s cfg n = Some (r, n') -> Q r.1.
Hypothesis rotation_keeps : ∀ s d, Q s -> Q (processRotation s d).1.
Hypothesis move_keeps : ∀ s dx, Q s -> Q (processMove s dx 0 cfg).1.
Hypothesis gravity_keeps : ∀ s soft, Q s -> Q (processGravity s deltaMs soft cfg).1.
Hypothesis hardDrop_keeps : ∀ s, Q s -> Q (processHardDrop now s cfg).1.
Hypothesis delay_keeps :
  ∀ s piece ld, Q s -> activePiece s = Some piece ->
                Q (withActivePiece s (Some (withLockDelay piece ld))).
Hypothesis lock_keeps : ∀ s, Q s -> Q (processLock now s cfg).1.
Hypothesis spawn_keeps :
  ∀ s n r n', Q s -> activePiece s = None ->
              processSpawn rnd s cfg n = Some (r, n') -> Q r.1.

Lemma andThen_keeps r step :
  (∀ s, Q s -> Q (step s).1) -> Q r.1 -> Q (andThen r step).1.
Proof.
  intros Hstep HQ. unfold andThen. specialize (Hstep r.1 HQ).
  by destruct (step r.1) as [s evs].
Qed.

Lemma tickRotation_keeps actions r : Q r.1 -> Q (tickRotation actions r).1.
Proof.
  intros HQ. unfold tickRotation.
  repeat case_match; try done; (apply andThen_keeps; [|done]); intros s; apply rotation_keeps.
Qed.

Lemma tickMove_keeps actions r : Q r.1 -> Q (tickMove actions cfg r).1.
Proof.
  intros HQ. unfold tickMove.
  repeat case_match; try done; (apply andThen_keeps; [|done]); intros s; apply move_keeps.
Qed.

Lemma tickDrop_keeps actions r : Q r.1 -> Q (tickDrop now deltaMs actions cfg r).1.
Proof.
  intros HQ. unfold tickDrop.
  repeat case_match; try done; (apply andThen_keeps; [|done]); intros s;
    [apply hardDrop_keeps|apply gravity_keeps].
Qed.

Lemma tickLockDelay_keeps r : Q r.1 -> Q (tickLockDelay now deltaMs cfg r).1.
Proof.
  intros HQ. unfold tickLockDelay.
  destruct (activePiece r.1) as [piece|] eqn:Hpiece; [|done].
  destruct (isOnGround _ _).
  - destruct (updateLockDelay_form piece deltaMs) as [ld ->].
    pose proof (delay_keeps r.1 piece ld HQ Hpiece) as HQ'.
    destruct (isLockDelayExpired _); [|done].
    by apply (andThen_keeps (_, _)).
  - destruct (deactivateLockDelay_form piece) as [ld ->].
    by apply delay_keeps.
Qed.

Lemma updateUntilSpawn_keeps s actions n r n' :
  Q (tickClock s deltaMs) ->
  updateUntilSpawn rnd now s deltaMs actions cfg n = Some (r, n') ->
  Q r.1.
Proof.
  intros HQ. unfold updateUntilSpawn, mbind, eff_bind.
  destruct (tickHold rnd (tickClock s deltaMs) actions cfg n) as [[r0 n0]|] eqn:Hhold;
    [|done].
  intros [= <- <-].
  apply tickLockDelay_keeps, tickDrop_keeps, tickMove_keeps, tickRotation_keeps.
  unfold tickHold in Hhold. destruct (_ && _).
  - by apply (hold_keeps _ _ _ _ HQ Hhold).
  - by injection Hhold as <- <-.
Qed.

(** In the playing phase the state an update returns has every property
    that the clock stage establishes and the steps preserve. *)
Lemma updateGame_keeps s actions n s' evs n' :
  phase s = playing ->
  Q (tickClock s deltaMs) ->
  updateGame rnd now s deltaMs actions cfg n = Some ((s', evs), n') ->
  Q s'.
Proof.
  intros Hphase HQ. unfold updateGame.
  rewrite bool_decide_eq_false_2 by (by intros ?).
  unfold mbind, eff_bind.
  destruct (updateUntilSpawn rnd now s deltaMs actions cfg n) as [[mid n1]|] eqn:Hmid;
    [|done].
  pose proof (updateUntilSpawn_keeps _ _ _ _ _ HQ Hmid) as Hmidq.
  destruct (negb (bool_decide (is_Some (activePiece mid.1)))) eqn:Hnone; simpl.
  - destruct (bool_decide (phase mid.1 = playing)); simpl.
    + destruct (processSpawn rnd mid.1 cfg n1) as [[[s1 evs1] n2]|] eqn:Hspawn; [|done].
      intros [= <- <- <-].
      apply (spawn_keeps mid.1 n1 (s1, evs1) n2); [done| |done].
      apply negb_true_iff, bool_decide_eq_false in Hnone.
      destruct (activePiece mid.1); [|done]. exfalso. apply Hnone. by eexists.
    + by intros [= <- <- <-].
  - by intros [= <- <- <-].
Qed.

End Invariant.

(** ** What each step does to the board and the piece *)

Lemma legalOn_ext b p q :
  ptype q = ptype p -> position q = position p -> rotation q = rotation p ->
  ghostY q = ghostY p -> legalOn b p -> legalOn b q.
Proof.
  intros Ht Hp Hr Hg [Hvalid Hghost]. unfold legalOn.
  rewrite isValidPiecePosition_canPlace in *. unfold calculateGhostY.
  by rewrite Ht, Hp, Hr, Hg.
Qed.

Lemma legalOn_updateGhostY b p :
  isValidPiecePosition b p = true -> legalOn b (updateGhostY b p).
Proof. intros Hvalid. split; [|done]. by rewrite isValidPiecePosition_canPlace in *. Qed.

Lemma legalOn_withLockDelay b p ld : legalOn b p -> legalOn b (withLockDelay p ld).
Proof. by apply legalOn_ext. Qed.

Lemma legalOn_resetLockDelay b p cfg : legalOn b p -> legalOn b (resetLockDelay p cfg).
Proof.
  destruct (resetLockDelay_fields p cfg) as (? & ? & ? & ? & _). by apply legalOn_ext.
Qed.

Lemma tryMove_valid b piece dx dy moved :
  tryMove b piece dx dy = Some moved -> isValidPiecePosition b moved = true.
Proof.
  unfold tryMove. destruct (canMove b piece dx dy) eqn:Hmove; [|done]. simpl.
  intros [= <-]. by rewrite isValidPiecePosition_canPlace.
Qed.

Lemma rotatePiece_valid b piece d p wasKick kick :
  rotatePiece b piece d = Some (p, wasKick, kick) -> isValidPiecePosition b p = true.
Proof.
  unfold rotatePiece. pose proof (tryRotate_sound b piece d) as Hsound.
  unfold soundResult in Hsound.
  destruct (success (tryRotate b piece d)); [|done].
  destruct Hsound as [(p' & Hp & Hv & _) _]. rewrite Hp. by intros [= <- _ _].
Qed.

Lemma dropLoop_valid fuel b soft piece accumulator cellsDropped :
  isValidPiecePosition b piece = true ->
  isValidPiecePosition b (dropLoop fuel b soft piece accumulator cellsDropped).1.1 = true.
Proof.
  revert piece accumulator cellsDropped.
  induction fuel as [|fuel IH]; intros piece accumulator cellsDropped Hvalid; [done|].
  simpl. case_bool_decide; [|done].
  destruct (tryMove b piece 0 (-1)) as [moved|] eqn:Hmove; [|done].
  apply IH. apply tryMove_valid in Hmove. by destruct soft.
Qed.

Lemma spawnNextPiece_legal rnd b bg cfg n p bg' n' :
  spawnNextPiece rnd b bg cfg n = Some ((Some p, bg'), n') ->
  legalOn b p ∧ Some (ptype p) = head (current bg).
Proof.
  intros Hspawn. apply spawnNextPiece_inv in Hspawn as (t & Hhead & Hp).
  symmetry in Hp. apply spawnPiece_Some in Hp as (Ht & _ & _ & _ & _ & Hg & Hv).
  split; [by split|]. by rewrite Hhead, Ht.
Qed.

Section Steps.

Variable rnd : nat -> Qc.
Variable now : Z.
Variable cfg : GameConfig.

Lemma processHold_board s n r n' :
  processHold rnd s cfg n = Some (r, n') ->
  board r.1 = board s ∧ gs_score r.1 = gs_score s ∧ timing r.1 = timing s
  ∧ (pieceLegal s -> pieceLegal r.1).
Proof.
  unfold processHold.
  destruct (activePiece s) as [active|] eqn:Hactive; [|by intros [= <- <-]].
  destruct (negb _); [by intros [= <- <-]|].
  unfold mbind, eff_bind.
  destruct (hold_piece (hold s)) as [held|].
  - destruct (spawnNextPiece _ _ _ _ _) as [[[[np|] bg1] n1]|] eqn:Hspawn; [| |done];
      intros [= <- <-]; [|done].
    repeat (split; [done|]). intros _. unfold pieceLegal. simpl.
    apply spawnNextPiece_legal in Hspawn as [[Hv Hg] Ht]. simpl in Ht.
    injection Ht as Ht.
    assert (Heq : withType np held = np) by (rewrite <- Ht; by destruct np).
    rewrite Heq. by apply legalOn_updateGhostY.
  - destruct (spawnNextPiece _ _ _ _ _) as [[[[np|] bg1] n1]|] eqn:Hspawn; [| |done];
      intros [= <- <-]; [|done].
    repeat (split; [done|]). intros _. unfold pieceLegal. simpl.
    by apply spawnNextPiece_legal in Hspawn as [? _].
Qed.

Lemma processRotation_board s d :
  board (processRotation s d).1 = board s
  ∧ gs_score (processRotation s d).1 = gs_score s
  ∧ timing (processRotation s d).1 = timing s
  ∧ (pieceLegal s -> pieceLegal (processRotation s d).1).
Proof.
  unfold processRotation.
  destruct (activePiece s) as [active|] eqn:Hactive; [|done].
  destruct (rotatePiece (board s) active d) as [[[piece wasKick] kick]|] eqn:Hrot;
    [|done].
  repeat (split; [done|]). intros _. unfold pieceLegal. simpl.
  apply rotatePiece_valid in Hrot.
  destruct (isOnGround _ _); [apply legalOn_resetLockDelay|]; by apply legalOn_updateGhostY.
Qed.

Lemma processMove_board s dx dy :
  board (processMove s dx dy cfg).1 = board s
  ∧ gs_score (processMove s dx dy cfg).1 = gs_score s
  ∧ timing (processMove s dx dy cfg).1 = timing s
  ∧ (pieceLegal s -> pieceLegal (processMove s dx dy cfg).1).
Proof.
  unfold processMove.
  destruct (activePiece s) as [active|] eqn:Hactive; [|done].
  destruct (tryMove (board s) active dx dy) as [moved|] eqn:Hmove;
    [|done].
  repeat (split; [done|]). intros _. unfold pieceLegal. simpl.
  apply tryMove_valid in Hmove.
  destruct (isOnGround _ _); [apply legalOn_resetLockDelay|]; by apply legalOn_updateGhostY.
Qed.

Lemma processGravity_board s deltaMs soft :
  board (processGravity s deltaMs soft cfg).1 = board s
  ∧ gs_score (processGravity s deltaMs soft cfg).1 = gs_score s
  ∧ gameTime (timing (processGravity s deltaMs soft cfg).1) = gameTime (timing s)
  ∧ (pieceLegal s -> pieceLegal (processGravity s deltaMs soft cfg).1).
Proof.
  unfold processGravity.
  destruct (activePiece s) as [active|] eqn:Hactive; [|done].
  match goal with
  | |- context [dropLoop ?f ?b ?so ?p ?a ?c] =>
      pose proof (dropLoop_valid f b so p a c) as Hdrop;
      destruct (dropLoop f b so p a c) as [[newPiece accumulator] cellsDropped]
  end.
  repeat (split; [done|]). unfold pieceLegal. rewrite Hactive. simpl.
  intros [Hvalid _]. by apply legalOn_updateGhostY, Hdrop.
Qed.

Lemma processLock_piece s :
  activePiece (processLock now s cfg).1 = None
  ∧ gameTime (timing (processLock now s cfg).1) = gameTime (timing s).
Proof.
  unfold processLock.
  destruct (activePiece s) as [piece|] eqn:Hactive; [|done].
  destruct (lockActivePiece now (board s) piece) as [newBoard locked].
  destruct (processLineClears now newBoard) as [clearedBoard clearedRows].
  case_bool_decide; [|done].
  by destruct (levelUpLoop _ _ _ _) as [[remaining newLevel] levelEvents].
Qed.

Lemma processHardDrop_piece s :
  activePiece (processHardDrop now s cfg).1 = None
  ∧ gameTime (timing (processHardDrop now s cfg).1) = gameTime (timing s).
Proof.
  unfold processHardDrop.
  destruct (activePiece s) as [active|] eqn:Hactive; [|done].
  destruct (getDropPositions (board s) active) as [positions dropDistance].
  match goal with
  | |- context [processLock now ?s' cfg] =>
      pose proof (processLock_piece s') as Hlock;
      destruct (processLock now s' cfg) as [locked lockEvents]
  end.
  done.
Qed.

Lemma processSpawn_board s n r n' :
  processSpawn rnd s cfg n = Some (r, n') ->
  board r.1 = board s ∧ gs_score r.1 = gs_score s ∧ timing r.1 = timing s
  ∧ combo r.1 = combo s ∧ streak r.1 = streak s
  ∧ (activePiece s = None -> pieceLegal r.1).
Proof.
  unfold processSpawn, mbind, eff_bind.
  destruct (spawnNextPiece rnd (board s) (bag s) cfg n) as [[[[p|] bg] n1]|] eqn:Hspawn;
    [| |done]; intros [= <- <-]; repeat (split; [done|]).
  - intros _. unfold pieceLegal. simpl. by apply spawnNextPiece_legal in Hspawn as [? _].
  - intros Hnone. unfold pieceLegal. simpl. by rewrite Hnone.
Qed.

Lemma tickClock_board s deltaMs :
  board (tickClock s deltaMs) = board s
  ∧ activePiece (tickClock s deltaMs) = activePiece s
  ∧ gs_score (tickClock s deltaMs) = gs_score s
  ∧ phase (tickClock s deltaMs) = phase s.
Proof. unfold tickClock. by case_bool_decide. Qed.

End Steps.

(** ** The active piece stays legal *)

Lemma updateGame_returns_ready rnd now cfg s deltaMs actions n :
  bagReady (bag s) ->
  ∃ s' evs n', updateGame rnd now s deltaMs actions cfg n = Some ((s', evs), n')
               ∧ bagReady (bag s').
Proof.
  intros Hready. unfold updateGame. case_bool_decide; [by eexists _, _, _|].
  unfold mbind, eff_bind.
  destruct (updateUntilSpawn_returns rnd now cfg s deltaMs actions n Hready)
    as (r & n1 & -> & [Hcur Hnext]).
  destruct (_ && _); [|by eexists _, _, _].
  unfold processSpawn, mbind, eff_bind.
  destruct (current (bag r.1)) as [|t rest] eqn:Hc; [done|].
  destruct (spawnNextPiece_returns rnd (board r.1) (bag r.1) cfg n1 t rest Hc)
    as (bg' & n2 & -> & Hready').
  destruct (spawnPiece _ _ _); eexists _, _, _; (split; [reflexivity|]); simpl.
  - by apply Hready'.
  - split; [by rewrite Hc|done].
Qed.

Lemma updateGame_pieceLegal rnd now cfg s deltaMs actions n s' evs n' :
  pieceLegal s ->
  updateGame rnd now s deltaMs actions cfg n = Some ((s', evs), n') ->
  pieceLegal s'.
Proof.
  intros Hlegal Hupdate.
  destruct (decide (phase s = playing)) as [Hphase|Hphase].
  - apply (updateGame_keeps rnd now cfg deltaMs pieceLegal) with s actions n evs n';
      try done.
    + intros s0 n0 r n0' HQ Hhold. by apply (processHold_board rnd cfg) in Hhold as (_ & _ & _ & ?); auto.
    + intros s0 d HQ. by apply processRotation_board.
    + intros s0 dx HQ. by apply processMove_board.
    + intros s0 soft HQ. by apply processGravity_board.
    + intros s0 _. unfold pieceLegal. by destruct (processHardDrop_piece now cfg s0) as [-> _].
    + intros s0 piece ld HQ Hpiece. unfold pieceLegal in *. rewrite Hpiece in HQ. simpl.
      by apply legalOn_withLockDelay.
    + intros s0 _. unfold pieceLegal. by destruct (processLock_piece now cfg s0) as [-> _].
    + intros s0 n0 r n0' _ Hnone Hspawn.
      by apply (processSpawn_board rnd cfg) in Hspawn as (_ & _ & _ & _ & _ & ?); auto.
    + unfold pieceLegal in *.
      destruct (tickClock_board s deltaMs) as (-> & -> & _). done.
  - unfold updateGame in Hupdate. rewrite bool_decide_eq_true_2 in Hupdate by done.
    by injection Hupdate as <- <- <-.
Qed.

(** X19. The active piece never overlaps a locked cell or leaves the board:
    from a state whose active piece is in a legal placement with an
    accurate ghost row, an update with any elapsed time and any actions
    returns a state whose active piece, if it has one, is again in a legal
    placement with an accurate ghost row. *)
Theorem updateGame_keeps_piece_legal rnd now cfg s deltaMs actions n :
  bagReady (bag s) ->
  pieceLegal s ->
  ∃ s' evs n',
    updateGame rnd now s deltaMs actions cfg n = Some ((s', evs), n')
    ∧ pieceLegal s'.
Proof.
  intros Hready Hlegal.
  destruct (updateGame_returns_ready rnd now cfg s deltaMs actions n Hready)
    as (s' & evs & n' & Hupdate & _).
  exists s', evs, n'. split; [done|]. by apply (updateGame_pieceLegal _ _ _ _ _ _ _ _ _ _ Hlegal Hupdate).
Qed.

Lemma updateGame_keeps_piece_legal_witness :
  bagReady (bag freshI)
  ∧ pieceLegal freshI
  ∧ ∃ s' evs n',
      updateGame constRnd 0 freshI (qc 50 3) rotateAndDrop DEFAULT_GAME_CONFIG 0%nat
      = Some ((s', evs), n')
      ∧ pieceLegal s'.
Proof.
  assert (H1 : bagReady (bag freshI)) by (split; discriminate).
  assert (H2 : pieceLegal freshI) by (apply (bool_decide_unpack _); vm_compute; exact I).
  split; [exact H1|]. split; [exact H2|].
  exact (updateGame_keeps_piece_legal constRnd 0 DEFAULT_GAME_CONFIG freshI (qc 50 3)
           rotateAndDrop 0%nat H1 H2).
Defined.

(** ** The lock, field by field *)

Section LockFields.

Variable now : Z.
Variable cfg : GameConfig.

Lemma processLineClears_board b :
  config (processLineClears now b).1 = config b
  ∧ (cellsInBounds b -> cellsInBounds (processLineClears now b).1)
  ∧ (0 < width (config b) -> getFilledRows (processLineClears now b).1 = []).
Proof.
  unfold processLineClears.
  destruct (getFilledRows b) as [|y0 rest] eqn:Hrows; simpl; [done|].
  rewrite <- Hrows. assert (Hne : getFilledRows b ≠ []) by (by rewrite Hrows).
  destruct (clearRows_in_bounds_any b (getFilledRows b) now Hne) as (Hin & Hcfg & _).
  split; [done|]. split; [done|]. intros Hwidth.
  unfold getFilledRows at 1. apply filter_none. intros w Hw.
  unfold totalHeight in Hw. rewrite Hcfg in Hw.
  by apply clearRows_no_filled_row.
Qed.

Lemma lockPiece_bounds b positions t :
  cellsInBounds b ->
  (∀ p, p ∈ positions -> isValidPosition b (pos_x p) (pos_y p) = true) ->
  cellsInBounds (lockPiece b positions t now).
Proof.
  intros Hin Hpos [x y] c Hc. simpl. rewrite lockPiece_lookup in Hc.
  unfold isValidPosition, totalHeight. rewrite lockPiece_config.
  case_decide as Hp.
  - exact (Hpos _ Hp).
  - exact (Hin (x, y) c Hc).
Qed.

(** The board a lock leaves. *)
Lemma processLock_board s :
  config (board (processLock now s cfg).1) = config (board s)
  ∧ (cellsInBounds (board s) -> pieceLegal s ->
     cellsInBounds (board (processLock now s cfg).1))
  ∧ (0 < width (config (board s)) -> getFilledRows (board s) = [] ->
     getFilledRows (board (processLock now s cfg).1) = []).
Proof.
  unfold processLock, pieceLegal.
  destruct (activePiece s) as [piece|] eqn:Hactive; [|done].
  unfold lockActivePiece.
  pose proof (processLineClears_board
                (lockPiece (board s) (getPieceBlocks piece) (ptype piece) now))
    as (Hcfg & Hbounds & Hrows).
  rewrite lockPiece_config in Hcfg, Hrows.
  destruct (processLineClears now _) as [clearedBoard clearedRows]. simpl in *.
  assert (Hboard :
    config clearedBoard = config (board s)
    ∧ (cellsInBounds (board s) -> legalOn (board s) piece -> cellsInBounds clearedBoard)
    ∧ (0 < width (config (board s)) -> getFilledRows (board s) = [] ->
       getFilledRows clearedBoard = [])).
  { split; [done|]. split; [|by intros ? _; apply Hrows].
    intros Hin [Hvalid _]. apply Hbounds, lockPiece_bounds; [done|].
    intros p Hp. rewrite isValidPiecePosition_blocks in Hvalid. by apply Hvalid. }
  case_bool_decide; [|done].
  by destruct (levelUpLoop _ _ _ _) as [[remaining newLevel] levelEvents].
Qed.

Lemma levelUpLoop_levels fuel remainingLines newLevel :
  let r := levelUpLoop fuel cfg remainingLines newLevel in
  newLevel <= r.1.2
  ∧ (newLevel <= maxLevel cfg -> r.1.2 <= maxLevel cfg)
  ∧ (0 <= remainingLines -> 0 <= r.1.1)
  ∧ r.1.1 + linesPerLevel cfg * (r.1.2 - newLevel) = remainingLines.
Proof.
  revert remainingLines newLevel.
  induction fuel as [|fuel IH]; intros remainingLines newLevel; simpl; [lia|].
  destruct (bool_decide (remainingLines >= linesPerLevel cfg)
            && bool_decide (newLevel < maxLevel cfg)) eqn:Hcond; simpl; [|lia].
  apply andb_true_iff in Hcond as [H1%bool_decide_eq_true H2%bool_decide_eq_true].
  specialize (IH (remainingLines - linesPerLevel cfg) (newLevel + 1)).
  destruct (levelUpLoop fuel cfg _ _) as [[r l] evs]. simpl in *. lia.
Qed.

(** The score state a lock leaves. *)
Lemma processLock_score s :
  (0 <= level (gs_score s) ->
   score (gs_score s) <= score (gs_score (processLock now s cfg).1)
   ∧ level (gs_score s) <= level (gs_score (processLock now s cfg).1)
   ∧ linesCleared (gs_score s) <= linesCleared (gs_score (processLock now s cfg).1))
  ∧ (scoreConsistent cfg (gs_score s)
     -> scoreConsistent cfg (gs_score (processLock now s cfg).1)).
Proof.
  unfold processLock.
  destruct (activePiece s) as [piece|] eqn:Hactive; [|split; [simpl; lia|done]].
  destruct (lockActivePiece now (board s) piece) as [newBoard locked].
  destruct (processLineClears now newBoard) as [clearedBoard clearedRows].
  case_bool_decide as Hrows; [|split; [simpl; lia|done]].
  pose proof (levelUpLoop_levels
                (Z.to_nat (maxLevel cfg - level (gs_score s)))
                (linesAtLevel (gs_score s) + Z.of_nat (length clearedRows))
                (level (gs_score s))) as (Hle & Hmax & Hrem & Hsum).
  pose proof (levelUpLoop_completes
                (Z.to_nat (maxLevel cfg - level (gs_score s))) cfg
                (linesAtLevel (gs_score s) + Z.of_nat (length clearedRows))
                (level (gs_score s)) ltac:(lia)) as Hdone.
  destruct (levelUpLoop _ _ _ _) as [[remaining newLevel] levelEvents].
  simpl in *. split.
  - intros Hlvl.
    pose proof (calculateClearPoints_nonneg
                  (getClearType (Z.of_nat (length clearedRows))
                     (isTSpin (detectTSpin (board s) piece
                                 (bool_decide (ld_moveResets (lockDelay piece) > 0)) 0))
                     (isMini (detectTSpin (board s) piece
                                (bool_decide (ld_moveResets (lockDelay piece) > 0)) 0)))
                  (level (gs_score s)) (comboCount (combo s) + 1)
                  (isDifficultClear
                     (getClearType (Z.of_nat (length clearedRows))
                        (isTSpin (detectTSpin (board s) piece
                                    (bool_decide (ld_moveResets (lockDelay piece) > 0)) 0))
                        (isMini (detectTSpin (board s) piece
                                   (bool_decide (ld_moveResets (lockDelay piece) > 0)) 0)))
                   && backToBackActive (combo s)) Hlvl) as Hpts.
    split; [|lia]. destruct (isPerfectClear clearedBoard); lia.
  - intros (Hat & Hnext & Hlevel & Hpending). unfold scoreConsistent. simpl.
    repeat split; lia.
Qed.

Local Open Scope Qc_scope.

Lemma Qcmax_lower_r (a c : Qc) : c ≤ Qcmax a c.
Proof.
  unfold Qcmax. case_decide as H; [apply Qcle_refl|].
  apply Qclt_le_weak. by apply Qcnot_le_lt.
Qed.

(** The combo and streak states a lock leaves. *)
Lemma processLock_combo s :
  (comboConsistent (combo s) -> comboConsistent (combo (processLock now s cfg).1))
  ∧ (heatLevel (streak s) ≤ peakHeat (streak s) ->
     heatLevel (streak (processLock now s cfg).1)
     ≤ peakHeat (streak (processLock now s cfg).1))
  ∧ peakHeat (streak s) ≤ peakHeat (streak (processLock now s cfg).1)
  ∧ (length (recentClears (streak s)) <= 10
     -> length (recentClears (streak (processLock now s cfg).1)) <= 10)%nat.
Proof.
  unfold processLock.
  destruct (activePiece s) as [piece|] eqn:Hactive;
    [|split; [done|split; [done|split; [apply Qcle_refl|done]]]].
  destruct (lockActivePiece now (board s) piece) as [newBoard locked].
  destruct (processLineClears now newBoard) as [clearedBoard clearedRows].
  case_bool_decide as Hrows.
  - destruct (levelUpLoop _ _ _ _) as [[remaining newLevel] levelEvents]. simpl.
    split; [|split; [intros _; apply Qcmax_lower_r|split; [apply Qcmax_lower|]]].
    + intros (Hc & Hp & Hb). unfold comboConsistent. simpl.
      split; [lia|]. split; [destruct (isPerfectClear clearedBoard); lia|].
      destruct (isDifficultClear _); simpl; [|done].
      rewrite Hb. case_bool_decide; symmetry; apply bool_decide_eq_true; lia.
    + intros _. unfold lastTen. rewrite length_drop, length_app. simpl. lia.
  - simpl. split; [|split; [done|split; [apply Qcle_refl|done]]].
    intros (Hc & Hp & Hb). unfold comboConsistent. simpl. split; [lia|done].
Qed.

Local Close Scope Qc_scope.

Lemma hardDropped_legal b active :
  legalOn b active -> legalOn b (hardDropped active).
Proof.
  intros [Hvalid Hghost]. unfold hardDropped.
  apply legalOn_withLockDelay. unfold legalOn.
  rewrite isValidPiecePosition_canPlace in *. rewrite <- position_eta in Hvalid.
  destruct (ghostLoop_descends (Z.to_nat (pos_y (position active) + 1)) b (ptype active)
              (pos_x (position active)) (rotation active) (pos_y (position active)) Hvalid)
    as [Hle Hall].
  fold (calculateGhostY b active) in Hle, Hall.
  cbn [ptype position rotation ghostY withPosition pos_x pos_y].
  rewrite Hghost. split; [apply Hall; lia|].
  unfold calculateGhostY at 2. cbn [ptype position rotation withPosition pos_x pos_y].
  symmetry.
  pose proof (calculateGhostY_completes b active) as Hstop.
  destruct (Z.to_nat (calculateGhostY b active + 1)) as [|fuel]; [done|]. simpl.
  by rewrite Hstop.
Qed.

(** A hard drop is the lock of the dropped piece followed by the award of
    the drop points. *)
Lemma processHardDrop_lock s active :
  activePiece s = Some active ->
  ∃ points,
    points = (pos_y (position active) - calculateGhostY (board s) active)
             * softDropMultiplier cfg * 2
    ∧ (processHardDrop now s cfg).1
      = withScore (processLock now (withActivePiece s (Some (hardDropped active))) cfg).1
          (mkScore
             (score (gs_score (processLock now
                       (withActivePiece s (Some (hardDropped active))) cfg).1) + points)
             (level (gs_score (processLock now
                       (withActivePiece s (Some (hardDropped active))) cfg).1))
             (linesCleared (gs_score (processLock now
                       (withActivePiece s (Some (hardDropped active))) cfg).1))
             (linesAtLevel (gs_score (processLock now
                       (withActivePiece s (Some (hardDropped active))) cfg).1))
             (linesToNextLevel (gs_score (processLock now
                       (withActivePiece s (Some (hardDropped active))) cfg).1))).
Proof.
  intros Hactive. eexists. split; [reflexivity|].
  unfold processHardDrop. rewrite Hactive. unfold getDropPositions.
  fold (hardDropped active).
  by destruct (processLock now (withActivePiece s (Some (hardDropped active))) cfg).
Qed.

Lemma calculateGhostY_le b piece : calculateGhostY b piece <= pos_y (position piece).
Proof.
  unfold calculateGhostY.
  generalize (Z.to_nat (pos_y (position piece) + 1)) as fuel.
  generalize (pos_y (position piece)) as gy.
  intros gy fuel. revert gy. induction fuel as [|fuel IH]; intros gy; simpl; [lia|].
  destruct (canPlacePiece _ _ _ _); [|lia]. specialize (IH (gy - 1)). lia.
Qed.

End LockFields.

(** ** The hard drop, field by field *)

Section HardDropFields.

Variable now : Z.
Variable cfg : GameConfig.

(** The state the lock inside a hard drop starts from. *)
Lemma processHardDrop_fields s :
  ∃ s1,
    board s1 = board s ∧ gs_score s1 = gs_score s ∧ combo s1 = combo s
    ∧ streak s1 = streak s
    ∧ (pieceLegal s -> pieceLegal s1)
    ∧ board (processHardDrop now s cfg).1 = board (processLock now s1 cfg).1
    ∧ combo (processHardDrop now s cfg).1 = combo (processLock now s1 cfg).1
    ∧ streak (processHardDrop now s cfg).1 = streak (processLock now s1 cfg).1
    ∧ level (gs_score (processHardDrop now s cfg).1)
      = level (gs_score (processLock now s1 cfg).1)
    ∧ linesCleared (gs_score (processHardDrop now s cfg).1)
      = linesCleared (gs_score (processLock now s1 cfg).1)
    ∧ linesAtLevel (gs_score (processHardDrop now s cfg).1)
      = linesAtLevel (gs_score (processLock now s1 cfg).1)
    ∧ linesToNextLevel (gs_score (processHardDrop now s cfg).1)
      = linesToNextLevel (gs_score (processLock now s1 cfg).1)
    ∧ (0 <= softDropMultiplier cfg ->
       score (gs_score (processLock now s1 cfg).1)
       <= score (gs_score (processHardDrop now s cfg).1)).
Proof.
  destruct (activePiece s) as [active|] eqn:Hactive.
  - exists (withActivePiece s (Some (hardDropped active))).
    destruct (processHardDrop_lock now cfg s active Hactive) as (points & Hpoints & ->).
    simpl. repeat (split; [done|]). split.
    + unfold pieceLegal. rewrite Hactive. simpl. apply hardDropped_legal.
    + repeat (split; [done|]). intros Hmult.
      pose proof (calculateGhostY_le (board s) active). nia.
  - exists s. unfold processHardDrop, processLock. rewrite Hactive. simpl.
    repeat (split; [done|]). intros _. lia.
Qed.

End HardDropFields.

(** ** The board through an update *)

Section BoardInvariants.

Variable rnd : nat -> Qc.
Variable now : Z.
Variable cfg : GameConfig.
Variable deltaMs : Qc.
Variable s0 : GameState.

(** The board has the configuration of [s0], every cell of it is in bounds
    and the active piece is legal. *)
Let wellFormed (s : GameState) : Prop :=
  config (board s) = config (board s0) ∧ cellsInBounds (board s) ∧ pieceLegal s.

(** The board has the configuration of [s0] and no filled row. *)
Let rowsOpen (s : GameState) : Prop :=
  config (board s) = config (board s0) ∧ getFilledRows (board s) = [].

Lemma updateGame_wellFormed actions n s' evs n' :
  cellsInBounds (board s0) -> pieceLegal s0 ->
  updateGame rnd now s0 deltaMs actions cfg n = Some ((s', evs), n') ->
  wellFormed s'.
Proof.
  intros Hin Hlegal Hupdate.
  destruct (decide (phase s0 = playing)) as [Hphase|Hphase].
  - apply (updateGame_keeps rnd now cfg deltaMs wellFormed) with s0 actions n evs n';
      try done; unfold wellFormed.
    + intros s n0 r n0' (Hc & Hb & Hl) Hhold.
      apply (processHold_board rnd cfg) in Hhold as (-> & _ & _ & Hl'). auto.
    + intros s d (Hc & Hb & Hl).
      destruct (processRotation_board s d) as (-> & _ & _ & Hl'). auto.
    + intros s dx (Hc & Hb & Hl).
      destruct (processMove_board cfg s dx 0) as (-> & _ & _ & Hl'). auto.
    + intros s soft (Hc & Hb & Hl).
      destruct (processGravity_board cfg s deltaMs soft) as (-> & _ & _ & Hl'). auto.
    + intros s (Hc & Hb & Hl).
      destruct (processHardDrop_fields now cfg s)
        as (s1 & Hb1 & _ & _ & _ & Hl1 & -> & _).
      destruct (processLock_board now cfg s1) as (Hcfg & Hbounds & _).
      rewrite Hb1 in *. split; [congruence|]. split; [auto|].
      unfold pieceLegal. by destruct (processHardDrop_piece now cfg s) as [-> _].
    + intros s piece ld (Hc & Hb & Hl) Hpiece. simpl. repeat (split; [done|]).
      unfold pieceLegal in *. rewrite Hpiece in Hl. simpl. by apply legalOn_withLockDelay.
    + intros s (Hc & Hb & Hl).
      destruct (processLock_board now cfg s) as (Hcfg & Hbounds & _).
      split; [congruence|]. split; [auto|].
      unfold pieceLegal. by destruct (processLock_piece now cfg s) as [-> _].
    + intros s n0 r n0' (Hc & Hb & Hl) Hnone Hspawn.
      apply (processSpawn_board rnd cfg) in Hspawn as (-> & _ & _ & _ & _ & Hl'). auto.
    + unfold pieceLegal in *.
      destruct (tickClock_board s0 deltaMs) as (-> & -> & _). done.
  - unfold updateGame in Hupdate. rewrite bool_decide_eq_true_2 in Hupdate by done.
    by injection Hupdate as <- <- <-.
Qed.

Lemma updateGame_rowsOpen actions n s' evs n' :
  0 < width (config (board s0)) -> getFilledRows (board s0) = [] ->
  updateGame rnd now s0 deltaMs actions cfg n = Some ((s', evs), n') ->
  rowsOpen s'.
Proof.
  intros Hwidth Hrows Hupdate.
  destruct (decide (phase s0 = playing)) as [Hphase|Hphase].
  - apply (updateGame_keeps rnd now cfg deltaMs rowsOpen) with s0 actions n evs n';
      try done; unfold rowsOpen.
    + intros s n0 r n0' Hq Hhold.
      by apply (processHold_board rnd cfg) in Hhold as (-> & _).
    + intros s d Hq. by destruct (processRotation_board s d) as (-> & _).
    + intros s dx Hq. by destruct (processMove_board cfg s dx 0) as (-> & _).
    + intros s soft Hq. by destruct (processGravity_board cfg s deltaMs soft) as (-> & _).
    + intros s (Hc & Hr).
      destruct (processHardDrop_fields now cfg s) as (s1 & Hb1 & _ & _ & _ & _ & -> & _).
      destruct (processLock_board now cfg s1) as (Hcfg & _ & Hopen).
      rewrite Hb1 in *. split; [congruence|]. apply Hopen; [by rewrite Hc|done].
    + intros s (Hc & Hr).
      destruct (processLock_board now cfg s) as (Hcfg & _ & Hopen).
      split; [congruence|]. apply Hopen; [by rewrite Hc|done].
    + intros s n0 r n0' Hq Hnone Hspawn.
      by apply (processSpawn_board rnd cfg) in Hspawn as (-> & _).
    + by destruct (tickClock_board s0 deltaMs) as (-> & _).
  - unfold updateGame in Hupdate. rewrite bool_decide_eq_true_2 in Hupdate by done.
    by injection Hupdate as <- <- <-.
Qed.

End BoardInvariants.

(** X20. The cells never leave the board: from a state whose cells are all in
    bounds and whose active piece is legal, an update returns a state whose
    cells are all in bounds, on a board of the same configuration. *)
Theorem updateGame_keeps_cells_in_bounds rnd now cfg s deltaMs actions n :
  bagReady (bag s) ->
  cellsInBounds (board s) ->
  pieceLegal s ->
  ∃ s' evs n',
    updateGame rnd now s deltaMs actions cfg n = Some ((s', evs), n')
    ∧ cellsInBounds (board s')
    ∧ config (board s') = config (board s).
Proof.
  intros Hready Hin Hlegal.
  destruct (updateGame_returns_ready rnd now cfg s deltaMs actions n Hready)
    as (s' & evs & n' & Hupdate & _).
  exists s', evs, n'. split; [done|].
  by destruct (updateGame_wellFormed rnd now cfg deltaMs s actions n s' evs n'
                 Hin Hlegal Hupdate) as (? & ? & _).
Qed.

Lemma updateGame_keeps_cells_in_bounds_witness :
  bagReady (bag hotTetrisState)
  ∧ cellsInBounds (board hotTetrisState)
  ∧ pieceLegal hotTetrisState
  ∧ ∃ s' evs n',
      updateGame constRnd 0 hotTetrisState (qc 50 3) hardDropOnly DEFAULT_GAME_CONFIG 0%nat
      = Some ((s', evs), n')
      ∧ cellsInBounds (board s')
      ∧ config (board s') = config (board hotTetrisState).
Proof.
  assert (H1 : bagReady (bag hotTetrisState)) by (split; discriminate).
  assert (H2 : cellsInBounds (board hotTetrisState))
    by (apply (bool_decide_unpack _); vm_compute; exact I).
  assert (H3 : pieceLegal hotTetrisState)
    by (apply (bool_decide_unpack _); vm_compute; exact I).
  split; [exact H1|]. split; [exact H2|]. split; [exact H3|].
  exact (updateGame_keeps_cells_in_bounds constRnd 0 DEFAULT_GAME_CONFIG hotTetrisState
           (qc 50 3) hardDropOnly 0%nat H1 H2 H3).
Defined.

(** X21. No filled row survives an update: on a board of positive width with
    no filled row, the board after the update has no filled row either,
    whatever was locked during the tick. *)
Theorem updateGame_leaves_no_filled_row rnd now cfg s deltaMs actions n :
  bagReady (bag s) ->
  0 < width (config (board s)) ->
  getFilledRows (board s) = [] ->
  ∃ s' evs n',
    updateGame rnd now s deltaMs actions cfg n = Some ((s', evs), n')
    ∧ getFilledRows (board s') = [].
Proof.
  intros Hready Hwidth Hrows.
  destruct (updateGame_returns_ready rnd now cfg s deltaMs actions n Hready)
    as (s' & evs & n' & Hupdate & _).
  exists s', evs, n'. split; [done|].
  by destruct (updateGame_rowsOpen rnd now cfg deltaMs s actions n s' evs n'
                 Hwidth Hrows Hupdate) as (_ & ?).
Qed.

Lemma updateGame_leaves_no_filled_row_witness :
  bagReady (bag hotTetrisState)
  ∧ 0 < width (config (board hotTetrisState))
  ∧ getFilledRows (board hotTetrisState) = []
  ∧ ∃ s' evs n',
      updateGame constRnd 0 hotTetrisState (qc 50 3) hardDropOnly DEFAULT_GAME_CONFIG 0%nat
      = Some ((s', evs), n')
      ∧ getFilledRows (board s') = [].
Proof.
  assert (H1 : bagReady (bag hotTetrisState)) by (split; discriminate).
  assert (H2 : 0 < width (config (board hotTetrisState))) by (simpl; lia).
  assert (H3 : getFilledRows (board hotTetrisState) = []) by (vm_compute; reflexivity).
  split; [exact H1|]. split; [exact H2|]. split; [exact H3|].
  exact (updateGame_leaves_no_filled_row constRnd 0 DEFAULT_GAME_CONFIG hotTetrisState
           (qc 50 3) hardDropOnly 0%nat H1 H2 H3).
Defined.

Lemma coreOf_fields s1 s2 :
  coreOf s1 = coreOf s2 -> combo s1 = combo s2 ∧ streak s1 = streak s2.
Proof. unfold coreOf. by intros [= _ -> ->]. Qed.

Lemma tickClock_timing s deltaMs :
  gameTime (timing (tickClock s deltaMs)) = (gameTime (timing s) + deltaMs)%Qc.
Proof. unfold tickClock. by case_bool_decide. Qed.

Local Open Scope Qc_scope.

Lemma decayHeat_le (h deltaMs peak : Qc) :
  0 ≤ deltaMs -> h ≤ peak -> 0 ≤ peak -> decayHeat h deltaMs DEFAULT_HEAT_CONFIG ≤ peak.
Proof.
  intros Hdt Hh Hpeak. unfold decayHeat. apply Qcmax_upper; [done|].
  apply Qcle_trans with h; [|done]. apply Qcminus_le.
  apply Qcmult_nonneg; [done|]. unfold Qcdiv. by apply Qcmult_nonneg.
Qed.

Lemma tickClock_peak s deltaMs :
  0 ≤ deltaMs ->
  heatLevel (streak s) ≤ peakHeat (streak s) -> 0 ≤ peakHeat (streak s) ->
  heatLevel (streak (tickClock s deltaMs)) ≤ peakHeat (streak (tickClock s deltaMs))
  ∧ peakHeat (streak (tickClock s deltaMs)) = peakHeat (streak s).
Proof.
  intros Hdt Hh Hpeak. unfold tickClock. case_bool_decide; [|done]. simpl.
  split; [|done]. by apply decayHeat_le.
Qed.

Local Close Scope Qc_scope.

Section StateInvariants.

Variable rnd : nat -> Qc.
Variable now : Z.
Variable cfg : GameConfig.
Variable deltaMs : Qc.
Variable s0 : GameState.

(** The score, the level and the line count are at least those of [s0]. *)
Let scoreGrown (s : GameState) : Prop :=
  score (gs_score s0) <= score (gs_score s)
  ∧ level (gs_score s0) <= level (gs_score s)
  ∧ linesCleared (gs_score s0) <= linesCleared (gs_score s).

Let scoreKept (s : GameState) : Prop := scoreConsistent cfg (gs_score s).

Let comboKept (s : GameState) : Prop := comboConsistent (combo s).

(** The heat is at most the peak, and the peak is at least that of [s0]. *)
Let peakKept (s : GameState) : Prop :=
  (heatLevel (streak s) ≤ peakHeat (streak s))%Qc
  ∧ (peakHeat (streak s0) ≤ peakHeat (streak s))%Qc
  ∧ (length (recentClears (streak s)) <= 10)%nat.

Let clockAdvanced (s : GameState) : Prop :=
  gameTime (timing s) = (gameTime (timing s0) + deltaMs)%Qc.

Lemma updateGame_scoreGrown actions n s' evs n' :
  0 <= level (gs_score s0) -> 0 <= softDropMultiplier cfg ->
  updateGame rnd now s0 deltaMs actions cfg n = Some ((s', evs), n') ->
  scoreGrown s'.
Proof.
  intros Hlevel Hmult Hupdate.
  destruct (decide (phase s0 = playing)) as [Hphase|Hphase].
  - apply (updateGame_keeps rnd now cfg deltaMs scoreGrown) with s0 actions n evs n';
      try done; unfold scoreGrown.
    + intros s n0 r n0' Hq Hhold.
      by apply (processHold_board rnd cfg) in Hhold as (_ & -> & _).
    + intros s d Hq. by destruct (processRotation_board s d) as (_ & -> & _).
    + intros s dx Hq. by destruct (processMove_board cfg s dx 0) as (_ & -> & _).
    + intros s soft Hq. by destruct (processGravity_board cfg s deltaMs soft) as (_ & -> & _).
    + intros s (Hs & Hl & Hn).
      destruct (processHardDrop_fields now cfg s)
        as (s1 & _ & Hsc & _ & _ & _ & _ & _ & _ & -> & -> & _ & _ & Hpts).
      specialize (Hpts Hmult).
      destruct (processLock_score now cfg s1) as [Hlock _]. rewrite Hsc in Hlock.
      specialize (Hlock ltac:(lia)). lia.
    + intros s (Hs & Hl & Hn).
      destruct (processLock_score now cfg s) as [Hlock _].
      specialize (Hlock ltac:(lia)). lia.
    + intros s n0 r n0' Hq Hnone Hspawn.
      by apply (processSpawn_board rnd cfg) in Hspawn as (_ & -> & _).
    + destruct (tickClock_board s0 deltaMs) as (_ & _ & -> & _). lia.
  - unfold updateGame in Hupdate. rewrite bool_decide_eq_true_2 in Hupdate by done.
    injection Hupdate as <- <- <-. unfold scoreGrown. lia.
Qed.

Lemma updateGame_scoreKept actions n s' evs n' :
  scoreConsistent cfg (gs_score s0) ->
  updateGame rnd now s0 deltaMs actions cfg n = Some ((s', evs), n') ->
  scoreKept s'.
Proof.
  intros Hcons Hupdate.
  destruct (decide (phase s0 = playing)) as [Hphase|Hphase].
  - apply (updateGame_keeps rnd now cfg deltaMs scoreKept) with s0 actions n evs n';
      try done; unfold scoreKept.
    + intros s n0 r n0' Hq Hhold.
      by apply (processHold_board rnd cfg) in Hhold as (_ & -> & _).
    + intros s d Hq. by destruct (processRotation_board s d) as (_ & -> & _).
    + intros s dx Hq. by destruct (processMove_board cfg s dx 0) as (_ & -> & _).
    + intros s soft Hq. by destruct (processGravity_board cfg s deltaMs soft) as (_ & -> & _).
    + intros s Hq.
      destruct (processHardDrop_fields now cfg s)
        as (s1 & _ & Hsc & _ & _ & _ & _ & _ & _ & Hl & _ & Ha & Ht & _).
      destruct (processLock_score now cfg s1) as [_ Hlock]. rewrite Hsc in Hlock.
      specialize (Hlock Hq). unfold scoreConsistent in *. by rewrite Hl, Ha, Ht.
    + intros s Hq. by apply processLock_score.
    + intros s n0 r n0' Hq Hnone Hspawn.
      by apply (processSpawn_board rnd cfg) in Hspawn as (_ & -> & _).
    + by destruct (tickClock_board s0 deltaMs) as (_ & _ & -> & _).
  - unfold updateGame in Hupdate. rewrite bool_decide_eq_true_2 in Hupdate by done.
    by injection Hupdate as <- <- <-.
Qed.

Lemma updateGame_comboKept actions n s' evs n' :
  comboConsistent (combo s0) ->
  updateGame rnd now s0 deltaMs actions cfg n = Some ((s', evs), n') ->
  comboKept s'.
Proof.
  intros Hcons Hupdate.
  destruct (decide (phase s0 = playing)) as [Hphase|Hphase].
  - apply (updateGame_keeps rnd now cfg deltaMs comboKept) with s0 actions n evs n';
      try done; unfold comboKept.
    + intros s n0 r n0' Hq Hhold.
      apply processHold_frame in Hhold as [Hcore _].
      by apply coreOf_fields in Hcore as [-> _].
    + intros s d Hq. destruct (processRotation_frame d s) as (Hcore & _).
      by apply coreOf_fields in Hcore as [-> _].
    + intros s dx Hq. destruct (processMove_frame dx 0 cfg s) as (Hcore & _).
      by apply coreOf_fields in Hcore as [-> _].
    + intros s soft Hq. destruct (processGravity_frame deltaMs soft cfg s) as (Hcore & _).
      by apply coreOf_fields in Hcore as [-> _].
    + intros s Hq.
      destruct (processHardDrop_fields now cfg s)
        as (s1 & _ & _ & Hc & _ & _ & _ & -> & _).
      apply processLock_combo. by rewrite Hc.
    + intros s Hq. by apply processLock_combo.
    + intros s n0 r n0' Hq Hnone Hspawn.
      by apply (processSpawn_board rnd cfg) in Hspawn as (_ & _ & _ & -> & _).
    + by rewrite tickClock_combo.
  - unfold updateGame in Hupdate. rewrite bool_decide_eq_true_2 in Hupdate by done.
    by injection Hupdate as <- <- <-.
Qed.

Lemma updateGame_peakKept actions n s' evs n' :
  (0 ≤ deltaMs)%Qc ->
  (heatLevel (streak s0) ≤ peakHeat (streak s0))%Qc ->
  (0 ≤ peakHeat (streak s0))%Qc ->
  (length (recentClears (streak s0)) <= 10)%nat ->
  updateGame rnd now s0 deltaMs actions cfg n = Some ((s', evs), n') ->
  peakKept s'.
Proof.
  intros Hdt Hheat Hpeak Hlen Hupdate.
  destruct (decide (phase s0 = playing)) as [Hphase|Hphase].
  - apply (updateGame_keeps rnd now cfg deltaMs peakKept) with s0 actions n evs n';
      try done; unfold peakKept.
    + intros s n0 r n0' Hq Hhold.
      apply processHold_frame in Hhold as [Hcore _].
      by apply coreOf_fields in Hcore as [_ ->].
    + intros s d Hq. destruct (processRotation_frame d s) as (Hcore & _).
      by apply coreOf_fields in Hcore as [_ ->].
    + intros s dx Hq. destruct (processMove_frame dx 0 cfg s) as (Hcore & _).
      by apply coreOf_fields in Hcore as [_ ->].
    + intros s soft Hq. destruct (processGravity_frame deltaMs soft cfg s) as (Hcore & _).
      by apply coreOf_fields in Hcore as [_ ->].
    + intros s (Hh & Hp & Hl).
      destruct (processHardDrop_fields now cfg s)
        as (s1 & _ & _ & _ & Hst & _ & _ & _ & -> & _).
      destruct (processLock_combo now cfg s1) as (_ & Hh' & Hp' & Hl').
      rewrite Hst in *. split; [auto|]. split; [by apply Qcle_trans with (peakHeat (streak s))|auto].
    + intros s (Hh & Hp & Hl).
      destruct (processLock_combo now cfg s) as (_ & Hh' & Hp' & Hl').
      split; [auto|]. split; [by apply Qcle_trans with (peakHeat (streak s))|auto].
    + intros s n0 r n0' Hq Hnone Hspawn.
      by apply (processSpawn_board rnd cfg) in Hspawn as (_ & _ & _ & _ & -> & _).
    + destruct (tickClock_peak s0 deltaMs Hdt Hheat Hpeak) as [Hh Heq].
      rewrite Heq in *. split; [done|]. split; [apply Qcle_refl|].
      unfold tickClock. by case_bool_decide.
  - unfold updateGame in Hupdate. rewrite bool_decide_eq_true_2 in Hupdate by done.
    injection Hupdate as <- <- <-. split; [done|]. split; [apply Qcle_refl|done].
Qed.

Lemma updateGame_clockAdvanced actions n s' evs n' :
  phase s0 = playing ->
  updateGame rnd now s0 deltaMs actions cfg n = Some ((s', evs), n') ->
  clockAdvanced s'.
Proof.
  intros Hphase Hupdate.
  apply (updateGame_keeps rnd now cfg deltaMs clockAdvanced) with s0 actions n evs n';
    try done; unfold clockAdvanced.
  - intros s n0 r n0' Hq Hhold.
    by apply (processHold_board rnd cfg) in Hhold as (_ & _ & -> & _).
  - intros s d Hq. by destruct (processRotation_board s d) as (_ & _ & -> & _).
  - intros s dx Hq. by destruct (processMove_board cfg s dx 0) as (_ & _ & -> & _).
  - intros s soft Hq. by destruct (processGravity_board cfg s deltaMs soft) as (_ & _ & -> & _).
  - intros s Hq. by destruct (processHardDrop_piece now cfg s) as (_ & ->).
  - intros s Hq. by destruct (processLock_piece now cfg s) as (_ & ->).
  - intros s n0 r n0' Hq Hnone Hspawn.
    by apply (processSpawn_board rnd cfg) in Hspawn as (_ & _ & -> & _).
  - apply tickClock_timing.
Qed.

End StateInvariants.

(** X22. The score, the level and the number of lines cleared never go down:
    from a level that is not negative, with a soft-drop multiplier that is
    not negative, an update returns a state whose score, level and line
    count are each at least what they were. *)
Theorem updateGame_score_never_decreases rnd now cfg s deltaMs actions n :
  bagReady (bag s) ->
  0 <= level (gs_score s) ->
  0 <= softDropMultiplier cfg ->
  ∃ s' evs n',
    updateGame rnd now s deltaMs actions cfg n = Some ((s', evs), n')
    ∧ score (gs_score s) <= score (gs_score s')
    ∧ level (gs_score s) <= level (gs_score s')
    ∧ linesCleared (gs_score s) <= linesCleared (gs_score s').
Proof.
  intros Hready Hlevel Hmult.
  destruct (updateGame_returns_ready rnd now cfg s deltaMs actions n Hready)
    as (s' & evs & n' & Hupdate & _).
  exists s', evs, n'. split; [done|].
  exact (updateGame_scoreGrown rnd now cfg deltaMs s actions n s' evs n'
           Hlevel Hmult Hupdate).
Qed.

Lemma updateGame_score_never_decreases_witness :
  bagReady (bag hotTetrisState)
  ∧ 0 <= level (gs_score hotTetrisState)
  ∧ 0 <= softDropMultiplier DEFAULT_GAME_CONFIG
  ∧ ∃ s' evs n',
      updateGame constRnd 0 hotTetrisState (qc 50 3) hardDropOnly DEFAULT_GAME_CONFIG 0%nat
      = Some ((s', evs), n')
      ∧ score (gs_score hotTetrisState) <= score (gs_score s')
      ∧ level (gs_score hotTetrisState) <= level (gs_score s')
      ∧ linesCleared (gs_score hotTetrisState) <= linesCleared (gs_score s').
Proof.
  assert (H1 : bagReady (bag hotTetrisState)) by (split; discriminate).
  assert (H2 : 0 <= level (gs_score hotTetrisState)) by (simpl; lia).
  assert (H3 : 0 <= softDropMultiplier DEFAULT_GAME_CONFIG) by (simpl; lia).
  split; [exact H1|]. split; [exact H2|]. split; [exact H3|].
  exact (updateGame_score_never_decreases constRnd 0 DEFAULT_GAME_CONFIG hotTetrisState
           (qc 50 3) hardDropOnly 0%nat H1 H2 H3).
Defined.

(** X23. The level bookkeeping stays consistent: if the lines counted at the
    current level are not negative and add up with the lines to the next
    level to [linesPerLevel], the level is at most [maxLevel], and below
    [maxLevel] fewer than [linesPerLevel] lines are pending, then the same
    holds of the state an update returns: a lock raises the level as often
    as the cleared lines allow. *)
Theorem updateGame_keeps_score_consistent rnd now cfg s deltaMs actions n :
  bagReady (bag s) ->
  scoreConsistent cfg (gs_score s) ->
  ∃ s' evs n',
    updateGame rnd now s deltaMs actions cfg n = Some ((s', evs), n')
    ∧ scoreConsistent cfg (gs_score s').
Proof.
  intros Hready Hcons.
  destruct (updateGame_returns_ready rnd now cfg s deltaMs actions n Hready)
    as (s' & evs & n' & Hupdate & _).
  exists s', evs, n'. split; [done|].
  exact (updateGame_scoreKept rnd now cfg deltaMs s actions n s' evs n' Hcons Hupdate).
Qed.

Lemma updateGame_keeps_score_consistent_witness :
  bagReady (bag hotTetrisState)
  ∧ scoreConsistent DEFAULT_GAME_CONFIG (gs_score hotTetrisState)
  ∧ ∃ s' evs n',
      updateGame constRnd 0 hotTetrisState (qc 50 3) hardDropOnly DEFAULT_GAME_CONFIG 0%nat
      = Some ((s', evs), n')
      ∧ scoreConsistent DEFAULT_GAME_CONFIG (gs_score s').
Proof.
  assert (H1 : bagReady (bag hotTetrisState)) by (split; discriminate).
  assert (H2 : scoreConsistent DEFAULT_GAME_CONFIG (gs_score hotTetrisState))
    by (apply (bool_decide_unpack _); vm_compute; exact I).
  split; [exact H1|]. split; [exact H2|].
  exact (updateGame_keeps_score_consistent constRnd 0 DEFAULT_GAME_CONFIG hotTetrisState
           (qc 50 3) hardDropOnly 0%nat H1 H2).
Defined.

(** X24. The combo state stays consistent: from a state whose combo count and
    perfect-clear count are not negative and whose back-to-back flag is set
    exactly when the back-to-back counter is positive, an update returns a
    state of which the same holds. *)
Theorem updateGame_keeps_combo_consistent rnd now cfg s deltaMs actions n :
  bagReady (bag s) ->
  comboConsistent (combo s) ->
  ∃ s' evs n',
    updateGame rnd now s deltaMs actions cfg n = Some ((s', evs), n')
    ∧ comboConsistent (combo s').
Proof.
  intros Hready Hcons.
  destruct (updateGame_returns_ready rnd now cfg s deltaMs actions n Hready)
    as (s' & evs & n' & Hupdate & _).
  exists s', evs, n'. split; [done|].
  exact (updateGame_comboKept rnd now cfg deltaMs s actions n s' evs n' Hcons Hupdate).
Qed.

Lemma updateGame_keeps_combo_consistent_witness :
  bagReady (bag hotTetrisState)
  ∧ comboConsistent (combo hotTetrisState)
  ∧ ∃ s' evs n',
      updateGame constRnd 0 hotTetrisState (qc 50 3) hardDropOnly DEFAULT_GAME_CONFIG 0%nat
      = Some ((s', evs), n')
      ∧ comboConsistent (combo s').
Proof.
  assert (H1 : bagReady (bag hotTetrisState)) by (split; discriminate).
  assert (H2 : comboConsistent (combo hotTetrisState))
    by (apply (bool_decide_unpack _); vm_compute; exact I).
  split; [exact H1|]. split; [exact H2|].
  exact (updateGame_keeps_combo_consistent constRnd 0 DEFAULT_GAME_CONFIG hotTetrisState
           (qc 50 3) hardDropOnly 0%nat H1 H2).
Defined.

(** X25. The peak heat is a running maximum: with an elapsed time that is not
    negative, from a state whose heat is at most its peak heat, an update
    returns a state whose heat is at most its peak heat and whose peak heat
    is not lower than before; the list of recent clears never grows beyond
    ten entries. *)
Theorem updateGame_peak_heat rnd now cfg s deltaMs actions n :
  bagReady (bag s) ->
  (0 ≤ deltaMs)%Qc ->
  (heatLevel (streak s) ≤ peakHeat (streak s))%Qc ->
  (0 ≤ peakHeat (streak s))%Qc ->
  (length (recentClears (streak s)) <= 10)%nat ->
  ∃ s' evs n',
    updateGame rnd now s deltaMs actions cfg n = Some ((s', evs), n')
    ∧ (heatLevel (streak s') ≤ peakHeat (streak s'))%Qc
    ∧ (peakHeat (streak s) ≤ peakHeat (streak s'))%Qc
    ∧ (length (recentClears (streak s')) <= 10)%nat.
Proof.
  intros Hready Hdt Hheat Hpeak Hlen.
  destruct (updateGame_returns_ready rnd now cfg s deltaMs actions n Hready)
    as (s' & evs & n' & Hupdate & _).
  exists s', evs, n'. split; [done|].
  exact (updateGame_peakKept rnd now cfg deltaMs s actions n s' evs n'
           Hdt Hheat Hpeak Hlen Hupdate).
Qed.

Lemma updateGame_peak_heat_witness :
  bagReady (bag hotTetrisState)
  ∧ (0 ≤ qc 50 3)%Qc
  ∧ (heatLevel (streak hotTetrisState) ≤ peakHeat (streak hotTetrisState))%Qc
  ∧ (0 ≤ peakHeat (streak hotTetrisState))%Qc
  ∧ (length (recentClears (streak hotTetrisState)) <= 10)%nat
  ∧ ∃ s' evs n',
      updateGame constRnd 0 hotTetrisState (qc 50 3) hardDropOnly DEFAULT_GAME_CONFIG 0%nat
      = Some ((s', evs), n')
      ∧ (heatLevel (streak s') ≤ peakHeat (streak s'))%Qc
      ∧ (peakHeat (streak hotTetrisState) ≤ peakHeat (streak s'))%Qc
      ∧ (length (recentClears (streak s')) <= 10)%nat.
Proof.
  assert (H1 : bagReady (bag hotTetrisState)) by (split; discriminate).
  assert (H2 : (0 ≤ qc 50 3)%Qc) by done.
  assert (H3 : (heatLevel (streak hotTetrisState) ≤ peakHeat (streak hotTetrisState))%Qc)
    by done.
  assert (H4 : (0 ≤ peakHeat (streak hotTetrisState))%Qc) by done.
  assert (H5 : (length (recentClears (streak hotTetrisState)) <= 10)%nat) by (simpl; lia).
  split; [exact H1|]. split; [exact H2|]. split; [exact H3|]. split; [exact H4|].
  split; [exact H5|].
  exact (updateGame_peak_heat constRnd 0 DEFAULT_GAME_CONFIG hotTetrisState
           (qc 50 3) hardDropOnly 0%nat H1 H2 H3 H4 H5).
Defined.

(** In the playing phase the game clock advances by exactly the elapsed
    time of the update, whatever happens in the tick. *)
Lemma updateGame_advances_clock rnd now cfg s deltaMs actions n :
  bagReady (bag s) ->
  phase s = playing ->
  ∃ s' evs n',
    updateGame rnd now s deltaMs actions cfg n = Some ((s', evs), n')
    ∧ gameTime (timing s') = (gameTime (timing s) + deltaMs)%Qc.
Proof.
  intros Hready Hphase.
  destruct (updateGame_returns_ready rnd now cfg s deltaMs actions n Hready)
    as (s' & evs & n' & Hupdate & _).
  exists s', evs, n'. split; [done|].
  exact (updateGame_clockAdvanced rnd now cfg deltaMs s actions n s' evs n' Hphase Hupdate).
Qed.

(** ** The preview *)

Lemma bagFair_ready bg : bagFair bg -> bagReady bg.
Proof.
  intros (Hcur & Hnxt & _). split; [done|]. by destruct (next bg).
Qed.

Lemma getNextPiece_fair rnd bg n :
  bagFair bg ->
  ∃ c bg' n',
    getNextPiece rnd bg n = Some ((Some c, bg'), n')
    ∧ head (current bg) = Some c
    ∧ bagFair bg'
    ∧ length (preview bg') = length (preview bg)
    ∧ (preview bg ≠ [] -> ∃ x, c :: preview bg' = preview bg ++ [x]).
Proof.
  destruct bg as [cur nxt pre]. unfold bagFair. simpl.
  intros (Hcur & Hnxt & Hlen & Hpre).
  destruct cur as [|c cs]; [done|].
  unfold getNextPiece. simpl.
  assert (∃ cur' nxt' n',
    (if bool_decide (length cs = 0%nat)
     then fresh ← createBag rnd; mret (nxt, fresh)
     else mret (cs, nxt)) n = Some ((cur', nxt'), n')
    ∧ cur' ≠ [] ∧ length nxt' = 7%nat
    ∧ ∀ k, (k < 7)%nat -> take k (cur' ++ nxt') = take k (cs ++ nxt))
    as (cur' & nxt' & n' & Hdraw & Hcur' & Hnxt' & Htake).
  { case_bool_decide as Hcs.
    - destruct cs; [|done]. unfold mbind, eff_bind.
      destruct (createBag_returns rnd n) as (fresh & -> & Hfresh).
      exists nxt, fresh, (n + 6)%nat. split; [done|].
      split; [by destruct nxt|]. split; [done|].
      intros k Hk. simpl. by rewrite take_app_le by lia.
    - exists cs, nxt, n. split; [done|]. split; [by destruct cs|]. done. }
  unfold mbind, eff_bind in *. rewrite Hdraw. simpl.
  assert (Hall : (7 < length (cur' ++ nxt'))%nat).
  { rewrite length_app, Hnxt'. destruct cur'; [done|]. simpl. lia. }
  destruct pre as [|p pre'].
  - simpl. exists c, (mkBag cur' nxt' []), n'. by repeat (split; [done|]).
  - simpl in *. injection Hpre as -> Hpre.
    rewrite bool_decide_eq_true_2 by lia. rewrite bool_decide_eq_true_2 by lia. simpl.
    destruct (lookup_lt_is_Some_2 (cur' ++ nxt') (length pre') ltac:(lia)) as [x Hx].
    rewrite Hx. simpl.
    assert (Hnew : pre' ++ [x] = take (S (length pre')) (cur' ++ nxt')).
    { rewrite (take_S_r _ _ x Hx), (Htake (length pre')) by lia. by rewrite <- Hpre. }
    exists c, (mkBag cur' nxt' (pre' ++ [x])), n'. split; [done|]. split; [done|].
    assert (Hlen' : length (pre' ++ [x]) = S (length pre'))
      by (rewrite length_app; simpl; lia).
    split; [|split; [done|intros _; by exists x]].
    unfold bagFair. simpl. rewrite Hlen'. repeat (split; [done|]). done.
Qed.

Lemma drawPieces_preview rnd j bg n :
  bagFair bg -> (j <= length (preview bg))%nat ->
  ∃ bg' n', drawPieces rnd j bg n = Some ((Some <$> take j (preview bg), bg'), n')
            ∧ bagFair bg'
            ∧ length (preview bg') = length (preview bg).
Proof.
  revert bg n. induction j as [|j IH]; intros bg n Hfair Hj.
  - exists bg, n. by rewrite take_0.
  - rewrite drawPieces_step.
    destruct (getNextPiece_fair rnd bg n Hfair) as (c & bg1 & n1 & -> & _ & Hfair1 & Hlen & Hshift).
    destruct (preview bg) as [|p pre] eqn:Hpre; [simpl in Hj; lia|].
    destruct (Hshift ltac:(done)) as [x Hx]. simpl in Hx. injection Hx as -> Hx.
    destruct (IH bg1 n1 Hfair1) as (bg' & n' & -> & Hfair' & Hlen');
      [rewrite Hlen; simpl in *; lia|].
    exists bg', n'. split; [|split; [done|by rewrite Hlen', Hlen]].
    simpl. rewrite Hx. rewrite take_app_le by (simpl in Hj; lia). done.
Qed.

(** X26. The preview shows the next pieces.  For a bag whose preview of at
    most seven pieces is the front of its two queues, with a piece in the
    current queue and a whole bag in the next: drawing as many pieces as
    the preview shows returns the preview, in order; the bag left has a
    preview of the same length that is again the front of its queues. *)
Theorem preview_shows_next_draws rnd bg n :
  bagFair bg ->
  ∃ bg' n', drawPieces rnd (length (preview bg)) bg n
            = Some ((Some <$> preview bg, bg'), n')
            ∧ bagFair bg'
            ∧ length (preview bg') = length (preview bg).
Proof.
  intros Hfair.
  destruct (drawPieces_preview rnd (length (preview bg)) bg n Hfair ltac:(lia))
    as (bg' & n' & Hdraw & Hfair' & Hlen).
  exists bg', n'. by rewrite firstn_all in Hdraw.
Qed.

Lemma preview_shows_next_draws_witness :
  bagFair lateBag
  ∧ ∃ bg' n', drawPieces constRnd (length (preview lateBag)) lateBag 0%nat
              = Some ((Some <$> preview lateBag, bg'), n')
              ∧ bagFair bg'
              ∧ length (preview bg') = length (preview lateBag).
Proof.
  assert (H : bagFair lateBag) by (apply (bool_decide_unpack _); vm_compute; exact I).
  split; [exact H|]. exact (preview_shows_next_draws constRnd lateBag 0%nat H).
Defined.

(** ** The bag through an update *)

Section BagSteps.

Variable rnd : nat -> Qc.
Variable now : Z.
Variable cfg : GameConfig.

(** The bag is fair and its preview as long as that of [bg0]. *)
Let fairAs (bg0 bg : PieceBag) : Prop :=
  bagFair bg ∧ length (preview bg) = length (preview bg0).

Lemma spawnNextPiece_fair b bg n piece bg' n' :
  bagFair bg ->
  spawnNextPiece rnd b bg cfg n = Some ((piece, bg'), n') ->
  bagFair bg' ∧ length (preview bg') = length (preview bg).
Proof.
  intros Hfair. unfold spawnNextPiece, mbind, eff_bind.
  destruct (getNextPiece_fair rnd bg n Hfair) as (c & bg1 & n1 & -> & _ & Hfair1 & Hlen & _).
  by intros [= <- <- <-].
Qed.

Lemma processHold_bag s n r n' :
  processHold rnd s cfg n = Some (r, n') ->
  bagFair (bag s) ->
  bagFair (bag r.1) ∧ length (preview (bag r.1)) = length (preview (bag s)).
Proof.
  unfold processHold.
  destruct (activePiece s) as [active|]; [|by intros [= <- <-]].
  destruct (negb _); [by intros [= <- <-]|].
  unfold mbind, eff_bind.
  destruct (hold_piece (hold s)) as [held|].
  - destruct (spawnNextPiece _ _ _ _ _) as [[[[np|] bg1] n1]|]; [| |done];
      by intros [= <- <-].
  - destruct (spawnNextPiece _ _ _ _ _) as [[[[np|] bg1] n1]|] eqn:Hspawn; [| |done];
      intros [= <- <-] Hfair; [|done].
    simpl. by apply spawnNextPiece_fair in Hspawn.
Qed.

Lemma processRotation_bag s d : bag (processRotation s d).1 = bag s.
Proof.
  unfold processRotation. destruct (activePiece s) as [active|]; [|done].
  by destruct (rotatePiece _ _ _) as [[[piece wasKick] kick]|].
Qed.

Lemma processMove_bag s dx dy : bag (processMove s dx dy cfg).1 = bag s.
Proof.
  unfold processMove. destruct (activePiece s) as [active|]; [|done].
  by destruct (tryMove _ _ _ _) as [moved|].
Qed.

Lemma processGravity_bag s deltaMs soft : bag (processGravity s deltaMs soft cfg).1 = bag s.
Proof.
  unfold processGravity. destruct (activePiece s) as [active|]; [|done].
  by destruct (dropLoop _ _ _ _ _ _) as [[newPiece accumulator] cellsDropped].
Qed.

Lemma processLock_bag s :
  bag (processLock now s cfg).1 = bag s
  ∧ hold (processLock now s cfg).1
    = match activePiece s with
      | Some _ => mkHold (hold_piece (hold s)) true
      | None => hold s
      end.
Proof.
  unfold processLock. destruct (activePiece s) as [piece|]; [|done].
  destruct (lockActivePiece now (board s) piece) as [newBoard locked].
  destruct (processLineClears now newBoard) as [clearedBoard clearedRows].
  case_bool_decide; [|done].
  by destruct (levelUpLoop _ _ _ _) as [[remaining newLevel] levelEvents].
Qed.

Lemma processHardDrop_bag s :
  bag (processHardDrop now s cfg).1 = bag s
  ∧ hold (processHardDrop now s cfg).1
    = match activePiece s with
      | Some _ => mkHold (hold_piece (hold s)) true
      | None => hold s
      end.
Proof.
  unfold processHardDrop. destruct (activePiece s) as [active|]; [|done].
  destruct (getDropPositions (board s) active) as [positions dropDistance].
  match goal with
  | |- context [processLock now ?s' cfg] =>
      pose proof (processLock_bag s') as Hlock;
      destruct (processLock now s' cfg) as [locked lockEvents]
  end.
  done.
Qed.

Lemma processSpawn_bag s n r n' :
  processSpawn rnd s cfg n = Some (r, n') ->
  bagFair (bag s) ->
  bagFair (bag r.1) ∧ length (preview (bag r.1)) = length (preview (bag s)).
Proof.
  unfold processSpawn, mbind, eff_bind.
  destruct (spawnNextPiece rnd (board s) (bag s) cfg n) as [[[[p|] bg] n1]|] eqn:Hspawn;
    [| |done]; intros [= <- <-] Hfair; [|done].
  simpl. by apply spawnNextPiece_fair in Hspawn.
Qed.

Lemma updateGame_fairAs deltaMs s0 actions n s' evs n' :
  bagFair (bag s0) ->
  updateGame rnd now s0 deltaMs actions cfg n = Some ((s', evs), n') ->
  fairAs (bag s0) (bag s').
Proof.
  intros Hfair Hupdate.
  destruct (decide (phase s0 = playing)) as [Hphase|Hphase].
  - apply (updateGame_keeps rnd now cfg deltaMs (fun s => fairAs (bag s0) (bag s)))
      with s0 actions n evs n'; try done; unfold fairAs.
    + intros s n0 r n0' [Hq Hl] Hhold.
      apply processHold_bag in Hhold as [? ->]; done.
    + intros s d Hq. by rewrite processRotation_bag.
    + intros s dx Hq. by rewrite processMove_bag.
    + intros s soft Hq. by rewrite processGravity_bag.
    + intros s Hq. by destruct (processHardDrop_bag s) as [-> _].
    + intros s Hq. by destruct (processLock_bag s) as [-> _].
    + intros s n0 r n0' [Hq Hl] Hnone Hspawn.
      apply processSpawn_bag in Hspawn as [? ->]; done.
    + unfold tickClock. by case_bool_decide.
  - unfold updateGame in Hupdate. rewrite bool_decide_eq_true_2 in Hupdate by done.
    by injection Hupdate as <- <- <-.
Qed.

End BagSteps.

(** X27. The preview stays accurate through the game: from a state whose
    preview of at most seven pieces is the front of the bag's two queues,
    an update returns a state whose preview has the same length and is
    again the front of the queues, whether or not the tick drew a piece. *)
Theorem updateGame_keeps_preview rnd now cfg s deltaMs actions n :
  bagFair (bag s) ->
  ∃ s' evs n',
    updateGame rnd now s deltaMs actions cfg n = Some ((s', evs), n')
    ∧ bagFair (bag s')
    ∧ length (preview (bag s')) = length (preview (bag s)).
Proof.
  intros Hfair.
  destruct (updateGame_returns_ready rnd now cfg s deltaMs actions n
              (bagFair_ready _ Hfair)) as (s' & evs & n' & Hupdate & _).
  exists s', evs, n'. split; [done|].
  exact (updateGame_fairAs rnd now cfg deltaMs s actions n s' evs n' Hfair Hupdate).
Qed.

(** ** Gravity *)

Lemma dropLoop_falls fuel b soft piece accumulator cellsDropped :
  let r := dropLoop fuel b soft piece accumulator cellsDropped in
  ptype r.1.1 = ptype piece
  ∧ rotation r.1.1 = rotation piece
  ∧ lockDelay r.1.1 = lockDelay piece
  ∧ pos_x (position r.1.1) = pos_x (position piece)
  ∧ pos_y (position r.1.1) = pos_y (position piece) - (r.2 - cellsDropped)
  ∧ cellsDropped <= r.2
  ∧ softDropCells r.1.1
    = (if soft then softDropCells piece + (r.2 - cellsDropped) else softDropCells piece)
  ∧ ∀ y, pos_y (position r.1.1) <= y < pos_y (position piece) ->
         canPlacePiece b (ptype piece) (mkPos (pos_x (position piece)) y) (rotation piece)
         = true.
Proof.
  revert piece accumulator cellsDropped.
  induction fuel as [|fuel IH]; intros piece accumulator cellsDropped; simpl.
  - repeat (split; [done || lia || (by destruct soft; lia)|]). intros y Hy. lia.
  - case_bool_decide as Hacc; simpl;
      [|repeat (split; [done || lia || (by destruct soft; lia)|]); intros y Hy; lia].
    unfold tryMove, canMove. rewrite Z.add_0_r.
    destruct (canPlacePiece b (ptype piece)
                (mkPos (pos_x (position piece)) (pos_y (position piece) + -1))
                (rotation piece)) eqn:Hplace; simpl;
      [|repeat (split; [done || lia || (by destruct soft; lia)|]); intros y Hy; lia].
    match goal with
    | |- context [dropLoop fuel b soft ?p ?a ?c] =>
        destruct (IH p a c) as (Ht & Hr & Hl & Hx & Hy & Hc & Hs & Hall);
        destruct (dropLoop fuel b soft p a c) as [[newPiece acc'] dropped]
    end.
    simpl in *.
    assert (Hfields :
      ptype newPiece = ptype piece ∧ rotation newPiece = rotation piece
      ∧ lockDelay newPiece = lockDelay piece
      ∧ pos_x (position newPiece) = pos_x (position piece)
      ∧ pos_y (position newPiece) = pos_y (position piece) + -1 - (dropped - (cellsDropped + 1))
      ∧ softDropCells newPiece
        = (if soft then softDropCells piece + (dropped - cellsDropped)
           else softDropCells piece)
      ∧ ∀ y, pos_y (position newPiece) <= y < pos_y (position piece) + -1 ->
             canPlacePiece b (ptype piece) (mkPos (pos_x (position piece)) y)
                           (rotation piece) = true).
    { destruct soft; simpl in *; repeat (split; [done || lia|]); done. }
    destruct Hfields as (Ht' & Hr' & Hl' & Hx' & Hy' & Hs' & Hall').
    repeat (split; [done || lia|]).
    intros y Hrange.
    destruct (decide (y = pos_y (position piece) + -1)) as [->|Hne]; [done|].
    apply Hall'. lia.
Qed.

Lemma ghostLoop_below fuel b t x r gy :
  ghostLoop fuel b t x r gy <= gy
  ∧ ∀ y, ghostLoop fuel b t x r gy <= y < gy ->
         canPlacePiece b t (mkPos x y) r = true.
Proof.
  revert gy. induction fuel as [|fuel IH]; intros gy; simpl.
  - split; [lia|]. intros y Hy. lia.
  - destruct (canPlacePiece b t (mkPos x (gy - 1)) r) eqn:Hnext.
    + destruct (IH (gy - 1)) as [Hle Hall]. split; [lia|].
      intros y Hy. destruct (decide (y = gy - 1)) as [->|Hne]; [done|]. apply Hall. lia.
    + split; [lia|]. intros y Hy. lia.
Qed.

Lemma Qcfloor_le (q : Qc) : (Qc_of_Z (Qcfloor q) ≤ q)%Qc.
Proof. unfold Qcle, Qcfloor. simpl. apply Qfloor_le. Qed.

Lemma Qcminus_0_r (q : Qc) : (q - Qc_of_Z 0 = q)%Qc.
Proof. rewrite Z2Qc_inj_0. ring. Qed.

Lemma dropLoop_exact fuel b soft piece (accumulator : Qc) (cellsDropped k g : Z) :
  0 <= k ->
  (accumulator < Qc_of_Z (k + 1))%Qc ->
  k = 0 ∨ (Qc_of_Z k ≤ accumulator)%Qc ->
  k <= Z.of_nat fuel ->
  g <= pos_y (position piece) ->
  (∀ y, g <= y < pos_y (position piece) ->
        canPlacePiece b (ptype piece) (mkPos (pos_x (position piece)) y) (rotation piece)
        = true) ->
  canPlacePiece b (ptype piece) (mkPos (pos_x (position piece)) (g - 1)) (rotation piece)
  = false ->
  (dropLoop fuel b soft piece accumulator cellsDropped).2
  = cellsDropped + Z.min k (pos_y (position piece) - g)
  ∧ (dropLoop fuel b soft piece accumulator cellsDropped).1.2
    = if decide (k <= pos_y (position piece) - g)
      then (accumulator - Qc_of_Z k)%Qc else 0%Qc.
Proof.
  revert piece accumulator cellsDropped k.
  induction fuel as [|fuel IH];
    intros piece accumulator cellsDropped k Hk Hhi Hlo Hfuel Hg Hfree Hstop.
  - assert (k = 0) as -> by lia. simpl.
    split; [lia|]. rewrite decide_True by lia. by rewrite Qcminus_0_r.
  - simpl. case_bool_decide as Hacc.
    + assert (Hk1 : 1 <= k).
      { assert (Hlt : (Qc_of_Z 1 < Qc_of_Z (k + 1))%Qc).
        { rewrite Z2Qc_inj_1. by apply Qcle_lt_trans with accumulator. }
        apply Z2Qc_inj_lt in Hlt. lia. }
      destruct Hlo as [->|Hlo]; [lia|].
      unfold tryMove, canMove. rewrite Z.add_0_r.
      destruct (canPlacePiece b (ptype piece)
                  (mkPos (pos_x (position piece)) (pos_y (position piece) + -1))
                  (rotation piece)) eqn:Hplace; simpl.
      * assert (Hroom : g <= pos_y (position piece) + -1).
        { destruct (decide (g <= pos_y (position piece) + -1)) as [|Hno]; [done|].
          replace (pos_y (position piece) + -1) with (g - 1) in Hplace by lia.
          congruence. }
        match goal with
        | |- context [dropLoop fuel b soft ?p ?a ?c] =>
            destruct (IH p a c (k - 1)) as [Hdropped Hleft]
        end.
        -- lia.
        -- replace (k - 1 + 1) with k by lia.
           rewrite Z2Qc_inj_add, Z2Qc_inj_1 in Hhi.
           apply (Qcplus_lt_mono_r _ _ 1%Qc). unfold Qcminus.
           by rewrite <- Qcplus_assoc, (Qcplus_comm (- 1)%Qc), Qcplus_opp_r, Qcplus_0_r.
        -- right. rewrite Z2Qc_inj_sub, Z2Qc_inj_1. unfold Qcminus.
           by apply Qcplus_le_mono_r.
        -- lia.
        -- by destruct soft.
        -- intros y Hy. destruct soft; simpl in *; apply Hfree; lia.
        -- by destruct soft.
        -- destruct soft; simpl in *; rewrite Hdropped, Hleft; (split; [lia|]);
             (destruct (decide (k - 1 <= pos_y (position piece) + -1 - g)) as [H1|H1];
              [rewrite decide_True by lia; rewrite Z2Qc_inj_sub, Z2Qc_inj_1; ring
              |by rewrite decide_False by lia]).
      * assert (pos_y (position piece) = g) as Heq.
        { destruct (decide (pos_y (position piece) = g)) as [|Hne]; [done|].
          rewrite Hfree in Hplace by lia. done. }
        split; [lia|]. by rewrite decide_False by lia.
    + assert (k = 0) as ->.
      { destruct Hlo as [|Hlo]; [done|].
        assert (Hlt : (Qc_of_Z k < Qc_of_Z 1)%Qc).
        { rewrite Z2Qc_inj_1. apply Qcle_lt_trans with accumulator; [done|].
          by apply Qcnot_le_lt. }
        apply Z2Qc_inj_lt in Hlt. lia. }
      simpl. split; [lia|]. rewrite decide_True by lia. by rewrite Qcminus_0_r.
Qed.

(** X28. Gravity moves the piece straight down, by as many rows as the
    accumulator holds whole cells, and never through the stack.  After
    [processGravity] the active piece has the type, rotation, column and
    lock delay it had; it has fallen by the whole cells of the accumulated
    gravity or by the distance to its ghost row, whichever is smaller; its
    cached ghost row is up to date; the accumulator keeps its fractional
    part, or is 0 when the piece was stopped by the stack, and is below 1;
    and a soft drop counts and reports exactly the rows fallen. *)
Theorem processGravity_falls s deltaMs soft cfg active :
  activePiece s = Some active ->
  ∃ p, activePiece (processGravity s deltaMs soft cfg).1 = Some p
    ∧ ptype p = ptype active
    ∧ rotation p = rotation active
    ∧ lockDelay p = lockDelay active
    ∧ pos_x (position p) = pos_x (position active)
    ∧ pos_y (position p)
      = pos_y (position active)
        - Z.min (wholeCells (gravityBudget s deltaMs soft cfg))
                (pos_y (position active) - calculateGhostY (board s) active)
    ∧ calculateGhostY (board s) active <= pos_y (position p) <= pos_y (position active)
    ∧ ghostY p = calculateGhostY (board s) p
    ∧ gravityAccumulator (timing (processGravity s deltaMs soft cfg).1)
      = (if decide (wholeCells (gravityBudget s deltaMs soft cfg)
                    <= pos_y (position active) - calculateGhostY (board s) active)
         then (gravityBudget s deltaMs soft cfg
               - Qc_of_Z (wholeCells (gravityBudget s deltaMs soft cfg)))%Qc
         else 0%Qc)
    ∧ (gravityAccumulator (timing (processGravity s deltaMs soft cfg).1) < 1)%Qc
    ∧ softDropCells p
      = (if soft then softDropCells active + (pos_y (position active) - pos_y (position p))
         else softDropCells active)
    ∧ (processGravity s deltaMs soft cfg).2
      = (if soft && bool_decide (pos_y (position p) < pos_y (position active))
         then [SoftDropEvent (pos_y (position active) - pos_y (position p))] else [])
    ∧ board (processGravity s deltaMs soft cfg).1 = board s.
Proof.
  intros Hactive.
  pose proof (calculateGhostY_completes (board s) active) as Hstop.
  assert (Hbelow : calculateGhostY (board s) active <= pos_y (position active)
                   ∧ ∀ y, calculateGhostY (board s) active <= y < pos_y (position active) ->
                       canPlacePiece (board s) (ptype active)
                         (mkPos (pos_x (position active)) y) (rotation active) = true)
    by apply ghostLoop_below.
  destruct Hbelow as [Hle Hfree].
  unfold processGravity. rewrite Hactive.
  change (gravityAccumulator (timing s)
          + deltaMs * ((if soft
                        then gravitySpeed (timing s) * Qc_of_Z (softDropMultiplier cfg)
                        else gravitySpeed (timing s)) / Qc_of_Z 1000))%Qc
    with (gravityBudget s deltaMs soft cfg).
  set (budget := gravityBudget s deltaMs soft cfg).
  assert (Hk : 0 <= wholeCells budget) by (unfold wholeCells; lia).
  assert (Hfuel : wholeCells budget <= Z.of_nat (Z.to_nat (Qcfloor budget)))
    by (unfold wholeCells; lia).
  assert (Hhi : (budget < Qc_of_Z (wholeCells budget + 1))%Qc).
  { pose proof (Qcfloor_fuel budget) as Hlt.
    by replace (Z.of_nat (Z.to_nat (Qcfloor budget))) with (wholeCells budget) in Hlt
      by (unfold wholeCells; lia). }
  assert (Hlo : wholeCells budget = 0 ∨ (Qc_of_Z (wholeCells budget) ≤ budget)%Qc).
  { unfold wholeCells. destruct (decide (Qcfloor budget <= 0)) as [|Hpos]; [left; lia|].
    right. replace (Z.max 0 (Qcfloor budget)) with (Qcfloor budget) by lia.
    apply Qcfloor_le. }
  pose proof (dropLoop_exact (Z.to_nat (Qcfloor budget)) (board s) soft active budget 0
                (wholeCells budget) (calculateGhostY (board s) active)
                Hk Hhi Hlo Hfuel Hle Hfree Hstop) as [Hdropped Hleft].
  pose proof (dropLoop_falls (Z.to_nat (Qcfloor budget)) (board s) soft active budget 0)
    as Hfalls.
  pose proof (dropLoop_completes (Z.to_nat (Qcfloor budget)) (board s) soft active budget 0
                (Qcfloor_fuel budget)) as Hacc.
  destruct (dropLoop (Z.to_nat (Qcfloor budget)) (board s) soft active budget 0)
    as [[newPiece accumulator] cellsDropped].
  simpl in *. destruct Hfalls as (Ht & Hr & Hl & Hx & Hy & Hc & Hs & _).
  exists (updateGhostY (board s) newPiece). simpl.
  repeat (split; [done|]).
  split; [lia|]. split; [lia|]. split; [done|]. split; [done|]. split; [done|].
  split; [destruct soft; [rewrite Hs; f_equal; lia|done]|].
  split; [|done].
  destruct soft; [|done]. simpl.
  destruct (decide (cellsDropped > 0)) as [Hpos|Hzero].
  - rewrite !bool_decide_eq_true_2 by lia. do 2 f_equal. lia.
  - by rewrite !bool_decide_eq_false_2 by lia.
Qed.

Lemma processGravity_falls_witness :
  activePiece hoveringState = Some hoveringI
  ∧ ∃ p, activePiece (processGravity hoveringState (Qc_of_Z 125) true
                                     DEFAULT_GAME_CONFIG).1 = Some p
    ∧ ptype p = ptype hoveringI
    ∧ rotation p = rotation hoveringI
    ∧ lockDelay p = lockDelay hoveringI
    ∧ pos_x (position p) = pos_x (position hoveringI)
    ∧ pos_y (position p)
      = pos_y (position hoveringI)
        - Z.min (wholeCells (gravityBudget hoveringState (Qc_of_Z 125) true
                                           DEFAULT_GAME_CONFIG))
                (pos_y (position hoveringI)
                 - calculateGhostY (board hoveringState) hoveringI)
    ∧ calculateGhostY (board hoveringState) hoveringI <= pos_y (position p)
      <= pos_y (position hoveringI)
    ∧ ghostY p = calculateGhostY (board hoveringState) p
    ∧ gravityAccumulator
        (timing (processGravity hoveringState (Qc_of_Z 125) true DEFAULT_GAME_CONFIG).1)
      = (if decide (wholeCells (gravityBudget hoveringState (Qc_of_Z 125) true
                                              DEFAULT_GAME_CONFIG)
                    <= pos_y (position hoveringI)
                       - calculateGhostY (board hoveringState) hoveringI)
         then (gravityBudget hoveringState (Qc_of_Z 125) true DEFAULT_GAME_CONFIG
               - Qc_of_Z (wholeCells (gravityBudget hoveringState (Qc_of_Z 125) true
                                                    DEFAULT_GAME_CONFIG)))%Qc
         else 0%Qc)
    ∧ (gravityAccumulator
         (timing (processGravity hoveringState (Qc_of_Z 125) true
                                 DEFAULT_GAME_CONFIG).1) < 1)%Qc
    ∧ softDropCells p
      = (if true then softDropCells hoveringI
                      + (pos_y (position hoveringI) - pos_y (position p))
         else softDropCells hoveringI)
    ∧ (processGravity hoveringState (Qc_of_Z 125) true DEFAULT_GAME_CONFIG).2
      = (if true && bool_decide (pos_y (position p) < pos_y (position hoveringI))
         then [SoftDropEvent (pos_y (position hoveringI) - pos_y (position p))] else [])
    ∧ board (processGravity hoveringState (Qc_of_Z 125) true DEFAULT_GAME_CONFIG).1
      = board hoveringState.
Proof.
  assert (H : activePiece hoveringState = Some hoveringI) by reflexivity.
  split; [exact H|].
  exact (processGravity_falls hoveringState (Qc_of_Z 125) true DEFAULT_GAME_CONFIG
           hoveringI H).
Defined.

(** A soft drop of 125 ms at level 1 accumulates 2.5 cells: [hoveringI], three
    rows above its ghost row, falls two rows and half a cell is kept; with
    1000 ms the 20 cells accumulated drop it the three rows to the stack and
    the accumulator is cleared. *)
Example processGravity_soft_drop :
  wholeCells (gravityBudget hoveringState (Qc_of_Z 125) true DEFAULT_GAME_CONFIG) = 2
  ∧ calculateGhostY (board hoveringState) hoveringI = 4
  ∧ (let r := processGravity hoveringState (Qc_of_Z 125) true DEFAULT_GAME_CONFIG in
     (position <$> activePiece r.1) = Some (mkPos 3 5)
     ∧ (softDropCells <$> activePiece r.1) = Some 2
     ∧ this (gravityAccumulator (timing r.1)) = (1 # 2)%Q
     ∧ r.2 = [SoftDropEvent 2])
  ∧ (let r := processGravity hoveringState (Qc_of_Z 1000) true DEFAULT_GAME_CONFIG in
     (position <$> activePiece r.1) = Some (mkPos 3 4)
     ∧ (softDropCells <$> activePiece r.1) = Some 3
     ∧ this (gravityAccumulator (timing r.1)) = 0%Q
     ∧ r.2 = [SoftDropEvent 3]).
Proof. repeat split; vm_compute; reflexivity. Qed.

(** ** The hold *)

(** X29. A piece can be held once.  On a bag with a piece in each queue
    [processHold] returns; the board is untouched; a swap with a held piece
    leaves the bag alone; when the hold happened (an event was emitted)
    the piece that was active is in the hold, the hold is used up and the
    new active piece is of the held type, or of the type at the head of the
    queue when nothing was held; and a second hold right after it changes
    nothing and emits nothing. *)
Theorem processHold_once rnd cfg s n :
  bagReady (bag s) ->
  ∃ r n1 n2,
    processHold rnd s cfg n = Some (r, n1)
    ∧ processHold rnd r.1 cfg n1 = Some ((r.1, []), n2)
    ∧ board r.1 = board s
    ∧ (is_Some (hold_piece (hold s)) -> bag r.1 = bag s)
    ∧ (r.2 ≠ [] ->
       ∃ active p,
         activePiece s = Some active
         ∧ hold r.1 = mkHold (Some (ptype active)) false
         ∧ activePiece r.1 = Some p
         ∧ Some (ptype p) = match hold_piece (hold s) with
                            | Some held => Some held
                            | None => head (current (bag s))
                            end).
Proof.
  intros [Hcur Hnext].
  destruct (activePiece s) as [active|] eqn:Hactive.
  2: { exists (s, []), n, n. unfold processHold. simpl. rewrite Hactive. done. }
  destruct (hold_available (hold s)) eqn:Havailable.
  2: { exists (s, []), n, n. unfold processHold. simpl. rewrite Hactive, Havailable. done. }
  destruct (hold_piece (hold s)) as [held|] eqn:Hheld.
  - destruct (spawnNextPiece_returns rnd (board s)
                (mkBag (held :: current (bag s)) (next (bag s)) (preview (bag s)))
                cfg n held (current (bag s)) eq_refl) as (bg1 & n1 & Hspawn & _).
    destruct (spawnPiece (board s) held cfg) as [np|] eqn:Hnp.
    + eexists (_, _), n1, n1. unfold processHold at 1.
      rewrite Hactive, Havailable, Hheld. simpl. unfold mbind, eff_bind. rewrite Hspawn.
      split; [reflexivity|]. simpl. split; [done|]. split; [done|]. split; [done|].
      intros _. eexists active, _. repeat (split; [done|]). simpl.
      done.
    + destruct (spawnNextPiece_returns rnd (board s)
                  (mkBag (held :: current (bag s)) (next (bag s)) (preview (bag s)))
                  cfg n1 held (current (bag s)) eq_refl) as (bg2 & n2 & Hspawn2 & _).
      rewrite Hnp in Hspawn2.
      exists (s, []), n1, n2. unfold processHold. simpl.
      rewrite Hactive, Havailable, Hheld. simpl. unfold mbind, eff_bind.
      rewrite Hspawn, Hspawn2. done.
  - destruct (current (bag s)) as [|t rest] eqn:Hc; [done|].
    destruct (spawnNextPiece_returns rnd (board s) (bag s) cfg n t rest Hc)
      as (bg1 & n1 & Hspawn & _).
    destruct (spawnPiece (board s) t cfg) as [np|] eqn:Hnp.
    + eexists (_, _), n1, n1. unfold processHold at 1.
      rewrite Hactive, Havailable, Hheld. simpl. unfold mbind, eff_bind. rewrite Hspawn.
      split; [reflexivity|]. simpl. split; [done|]. split; [done|].
      split; [by intros [? ?]|].
      intros _. eexists active, _. repeat (split; [done|]). simpl.
      by apply spawnPiece_Some in Hnp as (-> & _).
    + destruct (spawnNextPiece_returns rnd (board s) (bag s) cfg n1 t rest Hc)
        as (bg2 & n2 & Hspawn2 & _).
      rewrite Hnp in Hspawn2.
      exists (s, []), n1, n2. unfold processHold. simpl.
      rewrite Hactive, Havailable, Hheld. simpl. unfold mbind, eff_bind.
      rewrite Hspawn, Hspawn2. split; [done|]. split; [done|]. split; [done|].
      split; [by intros [? ?]|done].
Qed.

(** ** A new game and its runs *)

Lemma runUpdates_keeps rnd now cfg deltaMs (I : GameState -> Prop) :
  (∀ s a n, I s ->
     ∃ s' evs n', updateGame rnd now s deltaMs a cfg n = Some ((s', evs), n') ∧ I s') ->
  ∀ acts s n, I s ->
    ∃ s' evs n', runUpdates rnd now cfg deltaMs acts s n = Some ((s', evs), n') ∧ I s'.
Proof.
  intros Hstep acts. induction acts as [|a rest IH]; intros s n Hs.
  - by exists s, [], n.
  - simpl. unfold mbind, eff_bind.
    destruct (Hstep s a n Hs) as (s1 & evs1 & n1 & -> & Hs1).
    destruct (IH s1 n1 Hs1) as (s2 & evs2 & n2 & -> & Hs2).
    by exists s2, (evs1 ++ evs2), n2.
Qed.

Lemma updateGame_gameSound rnd now cfg deltaMs c k s actions n :
  0 < width c -> 0 <= softDropMultiplier cfg ->
  gameSound s ∧ config (board s) = c ∧ length (preview (bag s)) = k ->
  ∃ s' evs n',
    updateGame rnd now s deltaMs actions cfg n = Some ((s', evs), n')
    ∧ (gameSound s' ∧ config (board s') = c ∧ length (preview (bag s')) = k).
Proof.
  intros Hwidth Hmult ((Hin & Hrows & Hlegal & Hfair & Hscore & Hlevel & Hlines & Hcombo)
                       & Hcfg & Hlen).
  destruct (updateGame_returns_ready rnd now cfg s deltaMs actions n
              (bagFair_ready _ Hfair)) as (s' & evs & n' & Hupdate & _).
  exists s', evs, n'. split; [done|].
  destruct (updateGame_wellFormed rnd now cfg deltaMs s actions n s' evs n'
              Hin Hlegal Hupdate) as (Hcfg' & Hin' & Hlegal').
  destruct (updateGame_rowsOpen rnd now cfg deltaMs s actions n s' evs n'
              ltac:(by rewrite Hcfg) Hrows Hupdate) as (_ & Hrows').
  destruct (updateGame_fairAs rnd now cfg deltaMs s actions n s' evs n' Hfair Hupdate)
    as (Hfair' & Hlen').
  destruct (updateGame_scoreGrown rnd now cfg deltaMs s actions n s' evs n'
              ltac:(lia) Hmult Hupdate) as (Hscore' & Hlevel' & Hlines').
  pose proof (updateGame_comboKept rnd now cfg deltaMs s actions n s' evs n'
                Hcombo Hupdate) as Hcombo'.
  split; [|split; congruence].
  repeat (split; [done || lia|]). done.
Qed.

Lemma getFilledRows_empty b : cells b = ∅ -> 0 < width (config b) -> getFilledRows b = [].
Proof.
  intros Hempty Hwidth. unfold getFilledRows. apply filter_none. intros y _.
  unfold rowFilled. rewrite seqZ_cons by lia. simpl.
  unfold isCellOccupied at 1. rewrite Hempty, lookup_empty. done.
Qed.

Lemma createPieceBag_fair rnd previewCnt n :
  previewCnt <= 7 ->
  ∃ bg, createPieceBag rnd previewCnt n = Some (bg, (n + 12)%nat)
        ∧ bagFair bg ∧ length (preview bg) = Z.to_nat previewCnt.
Proof.
  intros Hcount.
  destruct (createPieceBag_returns rnd previewCnt n) as (bg & Hbg & Hcur & Hnxt & Hpre).
  exists bg. split; [done|].
  apply Permutation_length in Hcur, Hnxt. simpl in Hcur, Hnxt.
  assert (Hlen : length (preview bg) = Z.to_nat previewCnt).
  { rewrite Hpre, length_take, length_app. lia. }
  split; [|done]. unfold bagFair. rewrite Hlen.
  split; [by destruct (current bg)|]. split; [done|]. split; [lia|done].
Qed.

(** X30. A new game is sound and stays sound.  With a board at least four
    columns wide and one row high, a soft-drop multiplier that is not
    negative and a preview of at most seven pieces, [createGameState]
    followed by [startGame] gives a playing state with an active piece, and
    any run of updates from it returns, whatever the inputs and the random
    numbers: in the state reached the cells are on the board of the
    configured size, no row is filled, the active piece is legal, the
    preview has the configured length and shows the next draws, the score
    is not negative, the level is at least 1 and the combo is consistent. *)
Theorem new_game_stays_sound rnd now mode cfg deltaMs acts n :
  4 <= boardWidth cfg ->
  1 <= boardHeight cfg ->
  0 <= softDropMultiplier cfg ->
  previewCount cfg <= 7 ->
  ∃ s0 n0 s1 evs1 n1 s' evs n',
    createGameState rnd now mode cfg n = Some (s0, n0)
    ∧ startGame rnd s0 cfg n0 = Some ((s1, evs1), n1)
    ∧ phase s1 = playing
    ∧ is_Some (activePiece s1)
    ∧ runUpdates rnd now cfg deltaMs acts s1 n1 = Some ((s', evs), n')
    ∧ gameSound s'
    ∧ config (board s') = mkBoardConfig (boardWidth cfg) (boardHeight cfg) 4
    ∧ length (preview (bag s')) = Z.to_nat (previewCount cfg).
Proof.
  intros Hw Hh Hmult Hcount.
  destruct (createGameState_returns rnd now mode cfg n)
    as (bg & Hbg & _ & _ & _ & Hcreate).
  destruct (createPieceBag_fair rnd (previewCount cfg) n Hcount)
    as (bg0 & Hbg0 & Hfair & Hlen).
  rewrite Hbg in Hbg0. injection Hbg0 as <-.
  set (b := createBoard (mkBoardConfig (boardWidth cfg) (boardHeight cfg) 4) now) in *.
  destruct (spawnNextPiece rnd b bg cfg (n + 13)%nat) as [[[piece bg1] n1]|] eqn:Hspawn.
  2: { destruct (current bg) as [|t rest] eqn:Hc; [by destruct Hfair|].
       destruct (spawnNextPiece_returns rnd b bg cfg (n + 13)%nat t rest Hc)
         as (? & ? & Hsome & _). by rewrite Hsome in Hspawn. }
  destruct (spawnNextPiece_fair rnd cfg b bg (n + 13)%nat piece bg1 n1 Hfair Hspawn)
    as (Hfair1 & Hlen1).
  destruct (spawnNextPiece_inv rnd b bg cfg _ _ _ _ Hspawn) as (t & _ & Hpiece).
  destruct (spawnPiece_empty b t cfg) as [p Hp]; [done|simpl; lia..|].
  rewrite Hp in Hpiece. subst piece.
  destruct (spawnNextPiece_legal rnd b bg cfg _ _ _ _ Hspawn) as [Hlegal _].
  set (s0 := mkGameState menu b None createHoldState bg createScoreState
               createComboState createStreakState
               (createTimingState (startLevel cfg)) createInputState
               (createModeState mode) []
               (Qcfloor (rnd (n + 12)%nat * Qc_of_Z 2147483647))) in *.
  set (s1 := withBag (withActivePiece (withPhase s0 playing) (Some p)) bg1).
  assert (Hstart : startGame rnd s0 cfg (n + 13)%nat
                   = Some ((s1, [PieceSpawnEvent (ptype p)]), n1)).
  { unfold startGame, mbind, eff_bind.
    change (board s0) with b. change (bag s0) with bg. by rewrite Hspawn. }
  destruct (runUpdates_keeps rnd now cfg deltaMs
              (fun s => gameSound s
                        ∧ config (board s)
                          = mkBoardConfig (boardWidth cfg) (boardHeight cfg) 4
                        ∧ length (preview (bag s)) = Z.to_nat (previewCount cfg))
              (fun s a n Hs =>
                 updateGame_gameSound rnd now cfg deltaMs
                   (mkBoardConfig (boardWidth cfg) (boardHeight cfg) 4)
                   (Z.to_nat (previewCount cfg)) s a n ltac:(simpl; lia) Hmult Hs)
              acts s1 n1) as (s' & evs & n' & Hrun & Hsound & Hcfg & Hpre).
  { split; [|split; [done|by rewrite <- Hlen, <- Hlen1]].
    unfold gameSound. simpl.
    split; [apply map_Forall_empty|].
    split; [by apply getFilledRows_empty; [|simpl; lia]|].
    split; [done|]. split; [done|]. repeat (split; [simpl; lia|]). done. }
  exists s0, (n + 13)%nat, s1, [PieceSpawnEvent (ptype p)], n1, s', evs, n'.
  split; [exact Hcreate|]. split; [exact Hstart|].
  split; [done|]. split; [by eexists|]. done.
Qed.

Lemma new_game_stays_sound_witness :
  4 <= boardWidth DEFAULT_GAME_CONFIG
  ∧ 1 <= boardHeight DEFAULT_GAME_CONFIG
  ∧ 0 <= softDropMultiplier DEFAULT_GAME_CONFIG
  ∧ previewCount DEFAULT_GAME_CONFIG <= 7
  ∧ ∃ s0 n0 s1 evs1 n1 s' evs n',
      createGameState constRnd 0 marathon DEFAULT_GAME_CONFIG 0%nat = Some (s0, n0)
      ∧ startGame constRnd s0 DEFAULT_GAME_CONFIG n0 = Some ((s1, evs1), n1)
      ∧ phase s1 = playing
      ∧ is_Some (activePiece s1)
      ∧ runUpdates constRnd 0 DEFAULT_GAME_CONFIG (qc 50 3)
          [rotateAndDrop; noActions; hardDropOnly] s1 n1 = Some ((s', evs), n')
      ∧ gameSound s'
      ∧ config (board s')
        = mkBoardConfig (boardWidth DEFAULT_GAME_CONFIG) (boardHeight DEFAULT_GAME_CONFIG) 4
      ∧ length (preview (bag s')) = Z.to_nat (previewCount DEFAULT_GAME_CONFIG).
Proof.
  assert (H1 : 4 <= boardWidth DEFAULT_GAME_CONFIG) by (simpl; lia).
  assert (H2 : 1 <= boardHeight DEFAULT_GAME_CONFIG) by (simpl; lia).
  assert (H3 : 0 <= softDropMultiplier DEFAULT_GAME_CONFIG) by (simpl; lia).
  assert (H4 : previewCount DEFAULT_GAME_CONFIG <= 7) by (simpl; lia).
  split; [exact H1|]. split; [exact H2|]. split; [exact H3|]. split; [exact H4|].
  exact (new_game_stays_sound constRnd 0 marathon DEFAULT_GAME_CONFIG (qc 50 3)
           [rotateAndDrop; noActions; hardDropOnly] 0%nat H1 H2 H3 H4).
Defined.

Lemma updateGame_keeps_preview_witness :
  bagFair (bag lateBagState)
  ∧ ∃ s' evs n',
      updateGame constRnd 0 lateBagState (qc 50 3) hardDropOnly DEFAULT_GAME_CONFIG 0%nat
      = Some ((s', evs), n')
      ∧ bagFair (bag s')
      ∧ length (preview (bag s')) = length (preview (bag lateBagState)).
Proof.
  assert (H : bagFair (bag lateBagState))
    by (apply (bool_decide_unpack _); vm_compute; exact I).
  split; [exact H|].
  exact (updateGame_keeps_preview constRnd 0 DEFAULT_GAME_CONFIG lateBagState (qc 50 3)
           hardDropOnly 0%nat H).
Defined.

Lemma processHold_once_witness :
  bagReady (bag hotTetrisState)
  ∧ ∃ r n1 n2,
      processHold constRnd hotTetrisState DEFAULT_GAME_CONFIG 0%nat = Some (r, n1)
      ∧ processHold constRnd r.1 DEFAULT_GAME_CONFIG n1 = Some ((r.1, []), n2)
      ∧ board r.1 = board hotTetrisState
      ∧ (is_Some (hold_piece (hold hotTetrisState)) -> bag r.1 = bag hotTetrisState)
      ∧ (r.2 ≠ [] ->
         ∃ active p,
           activePiece hotTetrisState = Some active
           ∧ hold r.1 = mkHold (Some (ptype active)) false
           ∧ activePiece r.1 = Some p
           ∧ Some (ptype p) = match hold_piece (hold hotTetrisState) with
                              | Some held => Some held
                              | None => head (current (bag hotTetrisState))
                              end).
Proof.
  assert (H : bagReady (bag hotTetrisState)) by (split; discriminate).
  split; [exact H|].
  exact (processHold_once constRnd DEFAULT_GAME_CONFIG hotTetrisState 0%nat H).
Defined.
